(** * Contract-AI: the document-ingestion and suggestion-mapping pipeline

    A shallow embedding of [src/lib/ai-analysis.ts] (class
    [AIAnalysisService]) and [src/lib/document-processor.ts] (class
    [DocumentProcessor]), followed by the properties proved about them.

    Conventions.
    - A JavaScript string is its sequence of UTF-16 code units: [jsstring]
      is [list N].  [length], [indexOf], [substring], [split] and indexing
      all count code units, as in the language.
    - A regular-expression literal is a value of [Regex.regex], run by a
      backtracking matcher with the priorities of the language (greedy
      star, left alternative first, leftmost match); a pattern with a
      lazy quantifier is a value of [Regex.lazyRegex], run on top of the
      same matcher.
    - What the run time provides and no file of the repository defines
      ([String.prototype.toLowerCase], [JSON.parse], the [ToNumber]
      coercion of values that are not numbers) is a [Variable] of the
      section that needs it; [asciiToLowerCase] and the like are the
      instances used to run the code on ASCII inputs.
    - A [while] loop whose termination is itself a property to prove takes
      a fuel argument and returns [None] when the fuel runs out. *)

From Stdlib Require Import Ascii String DecimalString.
From Stdlib Require Import List NArith ZArith Bool Arith Lia.
From Stdlib Require Import Permutation Sorting.Sorted.
From Stdlib Require Import Floats.
Import ListNotations.

Set Implicit Arguments.
Set Warnings "-register-all".

(* ================================================================= *)
(** * Part I.  The embedding *)
(* ================================================================= *)

(** ** JavaScript strings *)

Module JS.

Abbreviation char := N.
Abbreviation jsstring := (list N).

(** An ASCII literal as a JavaScript string. *)
Definition js (s : string) : jsstring :=
  map N_of_ascii (list_ascii_of_string s).

Fixpoint streq (a b : jsstring) : bool :=
  match a, b with
  | [], [] => true
  | x :: a', y :: b' => N.eqb x y && streq a' b'
  | _, _ => false
  end.

(** [s.startsWith(p)]. *)
Fixpoint startsWith (p s : jsstring) : bool :=
  match p, s with
  | [], _ => true
  | x :: p', y :: s' => N.eqb x y && startsWith p' s'
  | _ :: _, [] => false
  end.

(** [s.indexOf(search)]: the least index at which [search] starts, or -1. *)
Fixpoint indexOfFrom (search s : jsstring) (i : Z) : Z :=
  if startsWith search s then i
  else match s with
       | [] => (-1)%Z
       | _ :: s' => indexOfFrom search s' (i + 1)%Z
       end.

Definition indexOf (s search : jsstring) : Z := indexOfFrom search s 0%Z.

(** [s.substring(a, b)] for [0 <= a <= b]. *)
Definition substring (s : jsstring) (a b : nat) : jsstring :=
  firstn (b - a) (skipn a s).

(** [s[i]]: the string of the single code unit at [i] ([undefined] out of
    range, which no caller below reaches). *)
Definition charAt (s : jsstring) (i : nat) : option jsstring :=
  match nth_error s i with
  | Some x => Some [x]
  | None => None
  end.

(** WhiteSpace and LineTerminator code points of ECMAScript: what
    [String.prototype.trim] strips and what [\s] matches. *)
Definition isWhiteSpace (c : char) : bool :=
  ((9 <=? c) && (c <=? 13) || (c =? 32) || (c =? 160) || (c =? 5760)
   || (8192 <=? c) && (c <=? 8202) || (c =? 8232) || (c =? 8233)
   || (c =? 8239) || (c =? 8287) || (c =? 12288) || (c =? 65279))%N.

Fixpoint trimStart (s : jsstring) : jsstring :=
  match s with
  | [] => []
  | x :: s' => if isWhiteSpace x then trimStart s' else s
  end.

Definition trimEnd (s : jsstring) : jsstring := rev (trimStart (rev s)).

Definition trim (s : jsstring) : jsstring := trimEnd (trimStart s).

(** [parts.join(sep)]. *)
Fixpoint join (sep : jsstring) (parts : list jsstring) : jsstring :=
  match parts with
  | [] => []
  | [p] => p
  | p :: rest => p ++ sep ++ join sep rest
  end.

(** [s.split(sep)] for a non-empty separator: the pieces between the
    leftmost, non-overlapping occurrences of [sep].  [skip] counts the
    code units of an occurrence still to be passed over and [cur] holds
    the current piece, reversed. *)
Fixpoint splitGo (sep : jsstring) (skip : nat) (cur : jsstring)
    (s : jsstring) : list jsstring :=
  match s with
  | [] => [rev cur]
  | x :: s' =>
      match skip with
      | S k => splitGo sep k cur s'
      | O =>
          if startsWith sep s
          then rev cur :: splitGo sep (length sep - 1) [] s'
          else splitGo sep 0 (x :: cur) s'
      end
  end.

Definition split (s sep : jsstring) : list jsstring := splitGo sep 0 [] s.

(** A string is truthy when it is not empty. *)
Definition truthy (s : jsstring) : bool :=
  match s with [] => false | _ :: _ => true end.

(** [toLowerCase] on strings of ASCII code units (the instance used to run
    the code; the development is otherwise parametric in the case
    mapping). *)
Definition asciiLowerChar (c : char) : char :=
  if ((65 <=? c) && (c <=? 90))%N then (c + 32)%N else c.

Definition asciiToLowerCase (s : jsstring) : jsstring := map asciiLowerChar s.

(** Decimal rendering of a natural number, as template literals do. *)
Definition natToString (n : nat) : jsstring :=
  js (NilEmpty.string_of_uint (Nat.to_uint n)).

End JS.

Import JS.

(** ** Regular expressions *)

Module Regex.

(** The fragment of the regular-expression syntax the two files use. *)
Inductive regex : Type :=
| Empty                         (* the empty pattern *)
| Chr (p : char -> bool)        (* one code unit of a class *)
| Seq (r1 r2 : regex)           (* r1 r2 *)
| Alt (r1 r2 : regex)           (* r1|r2 *)
| Star (r : regex)              (* r*, greedy *)
| Group (r : regex)             (* (r), the only capturing group *)
| WordB.                        (* \b *)

Definition Plus (r : regex) : regex := Seq r (Star r).

Definition lit1 (c : char) : regex := Chr (N.eqb c).

Fixpoint lit (s : jsstring) : regex :=
  match s with
  | [] => Empty
  | x :: s' => Seq (lit1 x) (lit s')
  end.

Definition notChar (c : char) : char -> bool := fun x => negb (N.eqb c x).
Definition anyChar : char -> bool := fun _ => true.
Definition isUpper (c : char) : bool := ((65 <=? c) && (c <=? 90))%N.
Definition isLower (c : char) : bool := ((97 <=? c) && (c <=? 122))%N.
Definition isDigit (c : char) : bool := ((48 <=? c) && (c <=? 57))%N.
(** [\w]: [A-Za-z0-9_]. *)
Definition isWordChar (c : char) : bool :=
  isUpper c || isLower c || isDigit c || (c =? 95)%N.

Definition isWordOpt (o : option char) : bool :=
  match o with Some c => isWordChar c | None => false end.

(** Group 1, when it took part in the match. *)
Definition capture := option jsstring.

(** What is left of the input after the match, and group 1. *)
Definition mresult := (jsstring * capture)%type.

(** A continuation receives the code unit before the current position,
    the rest of the input and the capture. *)
Definition cont := option char -> jsstring -> capture -> option mresult.

(** The loop of a greedy star whose body is matched by [body]: try one
    more iteration, which must consume input, and fall back on the
    continuation [k].  [length s] iterations are all the input allows. *)
Section StarLoop.

Variable body : option char -> jsstring -> capture -> cont -> option mresult.
Variable k : cont.

Fixpoint starLoop (fuel : nat) (prev : option char) (s : jsstring)
    (c : capture) {struct fuel} : option mresult :=
  match fuel with
  | O => k prev s c
  | S fuel' =>
      match
        body prev s c
          (fun prev' s' c' =>
             if length s' <? length s
             then starLoop fuel' prev' s' c'
             else None)
      with
      | Some res => Some res
      | None => k prev s c
      end
  end.

End StarLoop.

(** The backtracking matcher.  [prev] is the code unit before the current
    position (for [\b]), [s] the input from the current position on. *)
Fixpoint rmatch (r : regex) (prev : option char) (s : jsstring)
    (c : capture) (k : cont) {struct r} : option mresult :=
  match r with
  | Empty => k prev s c
  | Chr p =>
      match s with
      | x :: s' => if p x then k (Some x) s' c else None
      | [] => None
      end
  | Seq r1 r2 =>
      rmatch r1 prev s c (fun prev' s' c' => rmatch r2 prev' s' c' k)
  | Alt r1 r2 =>
      match rmatch r1 prev s c k with
      | Some res => Some res
      | None => rmatch r2 prev s c k
      end
  | Star r1 => starLoop (rmatch r1) k (length s) prev s c
  | Group r1 =>
      rmatch r1 prev s c
        (fun prev' s' _ =>
           k prev' s' (Some (firstn (length s - length s') s)))
  | WordB =>
      if xorb (isWordOpt prev) (isWordOpt (hd_error s))
      then k prev s c
      else None
  end.

(** A match of [r] that starts at the current position. *)
Definition matchHere (r : regex) (prev : option char) (s : jsstring)
  : option mresult :=
  rmatch r prev s None (fun _ s' c => Some (s', c)).

(** One found match: the text skipped before it, the matched text, group 1
    and the rest of the input. *)
Record found := {
  f_before : jsstring;
  f_match : jsstring;
  f_group : capture;
  f_rest : jsstring
}.

(** [RegExp.prototype.exec] from the current position: the leftmost
    position at which the pattern matches. *)
Fixpoint exec (r : regex) (prev : option char) (s : jsstring)
  : option found :=
  match matchHere r prev s with
  | Some (s', c) =>
      Some {| f_before := []; f_match := firstn (length s - length s') s;
              f_group := c; f_rest := s' |}
  | None =>
      match s with
      | [] => None
      | x :: t =>
          match exec r (Some x) t with
          | Some f =>
              Some {| f_before := x :: f_before f; f_match := f_match f;
                      f_group := f_group f; f_rest := f_rest f |}
          | None => None
          end
      end
  end.

Definition lastOr (prev : option char) (s : jsstring) : option char :=
  match rev s with
  | x :: _ => Some x
  | [] => prev
  end.

(** A segment of a global scan: the text between the previous match and
    this one, this match and its group 1. *)
Definition segment := (jsstring * jsstring * capture)%type.

Definition seg_before (g : segment) : jsstring := fst (fst g).
Definition seg_match (g : segment) : jsstring := snd (fst g).
Definition seg_group (g : segment) : capture := snd g.

(** All the matches of a global ([g]) pattern, left to right, and the text
    after the last one.  After an empty match the scan moves one code unit
    on, as [String.prototype.match] and [replace] do. *)
Fixpoint scan (fuel : nat) (r : regex) (prev : option char) (s : jsstring)
  : list segment * jsstring :=
  match fuel with
  | O => ([], s)
  | S fuel' =>
      match exec r prev s with
      | None => ([], s)
      | Some f =>
          let here := (f_before f, f_match f, f_group f) in
          let prev' := lastOr prev (f_before f ++ f_match f) in
          match f_match f, f_rest f with
          | _ :: _, rest =>
              let '(segs, tl) := scan fuel' r prev' rest in
              (here :: segs, tl)
          | [], [] => ([here], [])
          | [], x :: rest =>
              match scan fuel' r (Some x) rest with
              | ([], tl) => ([here], x :: tl)
              | ((b, m, g) :: segs, tl) =>
                  (here :: (x :: b, m, g) :: segs, tl)
              end
          end
      end
  end.

Definition scanAll (r : regex) (s : jsstring) : list segment * jsstring :=
  scan (S (length s)) r None s.

(** [s.match(r)] for a pattern without the [g] flag: element 0 of the
    result, or [None] for [null]. *)
Definition matchFirst (s : jsstring) (r : regex) : option jsstring :=
  match exec r None s with
  | Some f => Some (f_match f)
  | None => None
  end.

(** [s.match(r)] for a global pattern: the matched texts ([null], read as
    the empty list by the callers below, when there is none). *)
Definition matchAll (s : jsstring) (r : regex) : list jsstring :=
  map seg_match (fst (scanAll r s)).

(** [s.replace(r, by)] for a global pattern and a replacement text without
    [$] patterns. *)
Definition replaceAll (s : jsstring) (r : regex) (by_ : jsstring)
  : jsstring :=
  let '(segs, tl) := scanAll r s in
  concat (map (fun g => seg_before g ++ by_) segs) ++ tl.

(** [s.split(r)] for a pattern without a capturing group.  The loop of
    [RegExp.prototype[Symbol.split]]: [s] is the input from [q] on and
    [cur] holds, reversed, the input from [p] to [q].  At each [q] the
    pattern is tried at [q] only; a match that ends at [e] is skipped when
    [e = p], otherwise the piece from [p] to [q] is pushed and both [p] and
    [q] move to [e].  The loop makes at most two steps for each code
    unit. *)
Fixpoint splitLoop (fuel : nat) (r : regex) (prev : option char)
    (cur s : jsstring) : list jsstring :=
  match fuel with
  | O => [rev cur ++ s]
  | S fuel' =>
      match s with
      | [] => [rev cur]
      | x :: s' =>
          match matchHere r prev s with
          | None => splitLoop fuel' r (Some x) (x :: cur) s'
          | Some (rest, _) =>
              if (length s - length rest) + length cur =? 0
              then splitLoop fuel' r (Some x) (x :: cur) s'
              else
                let matched := firstn (length s - length rest) s in
                rev cur :: splitLoop fuel' r (lastOr prev matched) [] rest
          end
      end
  end.

(** The empty string splits into no piece when the pattern matches it and
    into itself otherwise. *)
Definition splitBy (s : jsstring) (r : regex) : list jsstring :=
  match s with
  | [] =>
      match matchHere r None [] with
      | Some _ => []
      | None => [[]]
      end
  | _ :: _ => splitLoop (S (2 * length s)) r None [] s
  end.

(** Matching with the [i] flag (and without [u]) compares canonicalized
    code units.  On ASCII, canonicalizing maps the lower-case letters to
    upper case; a code unit from 128 on never canonicalizes to an ASCII
    one, so it matches no ASCII code unit of a pattern. *)
Definition canonicalizeASCII (c : char) : char :=
  if isLower c then (c - 32)%N else c.

(** The class of the code units that match the ASCII code unit [c] of a
    pattern with the [i] flag. *)
Definition ci (c : char) : char -> bool :=
  fun x => ((x <? 128) && (canonicalizeASCII x =? canonicalizeASCII c))%N.

(** An ASCII literal of a pattern with the [i] flag. *)
Fixpoint litCI (s : jsstring) : regex :=
  match s with
  | [] => Empty
  | x :: s' => Seq (Chr (ci x)) (litCI s')
  end.

(** ** Lazy quantifiers *)

(** Patterns that use a lazy quantifier: greedy parts, sequences, [r*?]
    and the capturing group around them. *)
Inductive lazyRegex : Type :=
| Greedy (r : regex)              (* a part without lazy quantifier *)
| LSeq (r1 r2 : lazyRegex)        (* r1 r2 *)
| LazyStar (r : lazyRegex)        (* r*?, lazy *)
| LGroup (r : lazyRegex).         (* (r), the only capturing group *)

(** The loop of a lazy star: fall back on the continuation [k] first, and
    only when it fails try one more iteration, which must consume
    input. *)
Section LazyLoop.

Variable body : option char -> jsstring -> capture -> cont -> option mresult.
Variable k : cont.

Fixpoint lazyLoop (fuel : nat) (prev : option char) (s : jsstring)
    (c : capture) {struct fuel} : option mresult :=
  match k prev s c with
  | Some res => Some res
  | None =>
      match fuel with
      | O => None
      | S fuel' =>
          body prev s c
            (fun prev' s' c' =>
               if length s' <? length s
               then lazyLoop fuel' prev' s' c'
               else None)
      end
  end.

End LazyLoop.

Fixpoint lmatch (r : lazyRegex) (prev : option char) (s : jsstring)
    (c : capture) (k : cont) {struct r} : option mresult :=
  match r with
  | Greedy r0 => rmatch r0 prev s c k
  | LSeq r1 r2 =>
      lmatch r1 prev s c (fun prev' s' c' => lmatch r2 prev' s' c' k)
  | LazyStar r1 => lazyLoop (lmatch r1) k (length s) prev s c
  | LGroup r1 =>
      lmatch r1 prev s c
        (fun prev' s' _ =>
           k prev' s' (Some (firstn (length s - length s') s)))
  end.

Definition lmatchHere (r : lazyRegex) (prev : option char) (s : jsstring)
  : option mresult :=
  lmatch r prev s None (fun _ s' c => Some (s', c)).

(** [RegExp.prototype.exec] for these patterns. *)
Fixpoint lexec (r : lazyRegex) (prev : option char) (s : jsstring)
  : option found :=
  match lmatchHere r prev s with
  | Some (s', c) =>
      Some {| f_before := []; f_match := firstn (length s - length s') s;
              f_group := c; f_rest := s' |}
  | None =>
      match s with
      | [] => None
      | x :: t =>
          match lexec r (Some x) t with
          | Some f =>
              Some {| f_before := x :: f_before f; f_match := f_match f;
                      f_group := f_group f; f_rest := f_rest f |}
          | None => None
          end
      end
  end.

End Regex.

Import Regex.

(** ** Results of calls that may throw *)

(** What a [throw] carries. *)
Inductive exn : Type :=
| Err (msg : jsstring)                  (* new Error(msg) *)
| SyntaxErr                             (* raised by JSON.parse *)
| TypeErr                               (* a property read on null or undefined *)
| Wrapped (pre : jsstring) (cause : exn). (* new Error(pre + cause.message) *)

(** A call returns, throws, or (for the fuelled loops only) is cut short. *)
Inductive outcome (A : Type) : Type :=
| Returns (a : A)
| Throws (e : exn)
| OutOfFuel.

Arguments Returns {A} a.
Arguments Throws {A} e.
Arguments OutOfFuel {A}.

Definition bind {A B : Type} (m : outcome A) (f : A -> outcome B)
  : outcome B :=
  match m with
  | Returns a => f a
  | Throws e => Throws e
  | OutOfFuel => OutOfFuel
  end.

Notation "x <- m ;; k" := (bind m (fun x => k))
  (at level 61, m at next level, right associativity).

(** [xs.map(f)] for a callback that may throw. *)
Fixpoint mapM {A B : Type} (f : A -> outcome B) (xs : list A)
  : outcome (list B) :=
  match xs with
  | [] => Returns []
  | x :: xs' =>
      y <- f x ;;
      ys <- mapM f xs' ;;
      Returns (y :: ys)
  end.

(** [try { body } catch (error) { throw new Error(pre + error.message) }]. *)
Definition rethrow {A : Type} (pre : jsstring) (body : outcome A)
  : outcome A :=
  match body with
  | Throws e => Throws (Wrapped pre e)
  | other => other
  end.

Definition LF : jsstring := [10%N].

(** ** JSON values *)

(** What [JSON.parse] returns.  An object keeps its properties in
    insertion order. *)
Inductive JSValue : Type :=
| JNull
| JBool (b : bool)
| JNumber (n : float)
| JString (s : jsstring)
| JArray (xs : list JSValue)
| JObject (props : list (jsstring * JSValue)).

Fixpoint lookup {V : Type} (key : jsstring) (props : list (jsstring * V))
  : option V :=
  match props with
  | [] => None
  | (k, v) :: rest => if streq k key then Some v else lookup key rest
  end.

(** [obj[key] = v]: an existing property keeps its place. *)
Fixpoint setProp {V : Type} (key : jsstring) (v : V)
    (props : list (jsstring * V)) : list (jsstring * V) :=
  match props with
  | [] => [(key, v)]
  | (k, w) :: rest =>
      if streq k key then (k, v) :: rest else (k, w) :: setProp key v rest
  end.

(** [v.key] for one of the property names read below ([None] is
    [undefined]).  None of these names is [length] or an index, so strings
    and arrays have no such property; reading it on [null] throws. *)
Definition getProp (v : JSValue) (key : jsstring)
  : outcome (option JSValue) :=
  match v with
  | JNull => Throws TypeErr
  | JObject props => Returns (lookup key props)
  | _ => Returns None
  end.

(** ToBoolean. *)
Definition truthyNumber (n : float) : bool :=
  negb (is_nan n || is_zero n).

Definition truthyValue (v : option JSValue) : bool :=
  match v with
  | None => false
  | Some JNull => false
  | Some (JBool b) => b
  | Some (JNumber n) => truthyNumber n
  | Some (JString s) => truthy s
  | Some (JArray _) => true
  | Some (JObject _) => true
  end.

(** [a || b]. *)
Definition orElse (a : option JSValue) (b : JSValue) : JSValue :=
  match a with
  | Some v => if truthyValue a then v else b
  | None => b
  end.

(** [Math.min(a, b)] and [Math.max(a, b)] on numbers: NaN if either is
    NaN, and -0 below +0. *)
Definition Math_min (a b : float) : float :=
  if is_nan a || is_nan b then nan
  else if (a <? b)%float then a
  else if (b <? a)%float then b
  else if get_sign a then a else b.

Definition Math_max (a b : float) : float :=
  if is_nan a || is_nan b then nan
  else if (a <? b)%float then b
  else if (b <? a)%float then a
  else if get_sign a then b else a.

(** ** A JSON reader for running the code *)

(** [JSON.parse] on the JSON texts made of objects, arrays, strings
    without escapes, [true], [false], [null] and numbers of at most
    fifteen digits without exponent ([None] anywhere else).  On these
    texts every arithmetic step below is exact, so the number read is the
    one [JSON.parse] returns.  It is the instance the general statements
    about [parseAIResponse] are run with. *)
Module MiniJSON.

Definition isSpace (c : char) : bool :=
  ((c =? 32) || (c =? 9) || (c =? 10) || (c =? 13))%N.

Fixpoint skipSpace (s : jsstring) : jsstring :=
  match s with
  | [] => []
  | x :: s' => if isSpace x then skipSpace s' else s
  end.

(** The characters of a string up to its closing quote. *)
Fixpoint stringBody (s : jsstring) : option (jsstring * jsstring) :=
  match s with
  | [] => None
  | x :: s' =>
      if (x =? 34)%N then Some ([], s')
      else if ((x =? 92) || (x <? 32))%N then None
      else match stringBody s' with
           | Some (body, rest) => Some (x :: body, rest)
           | None => None
           end
  end.

Definition digitValue (c : char) : float :=
  match (c - 48)%N with
  | 0%N => 0 | 1%N => 1 | 2%N => 2 | 3%N => 3 | 4%N => 4
  | 5%N => 5 | 6%N => 6 | 7%N => 7 | 8%N => 8 | _ => 9
  end%float.

(** A run of digits: the value read so far, the power of ten that goes
    with the digits read, their number, and the rest. *)
Fixpoint digits (s : jsstring) (acc scale : float) (n : nat)
  : float * float * nat * jsstring :=
  match s with
  | x :: s' =>
      if isDigit x
      then digits s' (acc * 10 + digitValue x)%float (scale * 10)%float (S n)
      else (acc, scale, n, s)
  | [] => (acc, scale, n, [])
  end.

Definition isExponentMark (s : jsstring) : bool :=
  match s with
  | x :: _ => ((x =? 101) || (x =? 69))%N
  | [] => false
  end.

Definition number (s : jsstring) : option (float * jsstring) :=
  let '(negative, s1) :=
    match s with
    | x :: t => if (x =? 45)%N then (true, t) else (false, s)
    | [] => (false, s)
    end in
  let '(whole, _, n, s2) := digits s1 0%float 1%float 0 in
  let leadingZero :=
    match s1 with x :: _ => (x =? 48)%N | [] => false end in
  if (n =? 0) || (leadingZero && (1 <? n)) then None
  else
    let signed (v : float) := if negative then (- v)%float else v in
    match s2 with
    | x :: t =>
        if (x =? 46)%N then
          let '(all, scale, k, s3) := digits t whole 1%float 0 in
          if (k =? 0) || (15 <? n + k) || isExponentMark s3 then None
          else Some (signed (all / scale)%float, s3)
        else if (15 <? n) || isExponentMark s2 then None
        else Some (signed whole, s2)
    | [] => if 15 <? n then None else Some (signed whole, [])
    end.

Fixpoint value (fuel : nat) (s : jsstring) {struct fuel}
  : option (JSValue * jsstring) :=
  match fuel with
  | O => None
  | S fuel' =>
      match skipSpace s with
      | [] => None
      | x :: t =>
          if (x =? 123)%N then members fuel' (skipSpace t) [] true
          else if (x =? 91)%N then elements fuel' (skipSpace t) [] true
          else if (x =? 34)%N then
            match stringBody t with
            | Some (body, rest) => Some (JString body, rest)
            | None => None
            end
          else if startsWith (js "true") (x :: t)
          then Some (JBool true, skipn 4 (x :: t))
          else if startsWith (js "false") (x :: t)
          then Some (JBool false, skipn 5 (x :: t))
          else if startsWith (js "null") (x :: t)
          then Some (JNull, skipn 4 (x :: t))
          else match number (x :: t) with
               | Some (n, rest) => Some (JNumber n, rest)
               | None => None
               end
      end
  end

with members (fuel : nat) (s : jsstring) (acc : list (jsstring * JSValue))
    (first : bool) {struct fuel} : option (JSValue * jsstring) :=
  match fuel with
  | O => None
  | S fuel' =>
      match s with
      | [] => None
      | x :: t =>
          if (x =? 125)%N && first then Some (JObject acc, t)
          else if (x =? 34)%N then
            match stringBody t with
            | None => None
            | Some (key, r1) =>
                match skipSpace r1 with
                | [] => None
                | y :: r2 =>
                    if (y =? 58)%N then
                      match value fuel' r2 with
                      | None => None
                      | Some (v, r3) =>
                          match skipSpace r3 with
                          | [] => None
                          | z :: r4 =>
                              if (z =? 44)%N
                              then members fuel' (skipSpace r4)
                                     (setProp key v acc) false
                              else if (z =? 125)%N
                              then Some (JObject (setProp key v acc), r4)
                              else None
                          end
                      end
                    else None
                end
            end
          else None
      end
  end

with elements (fuel : nat) (s : jsstring) (acc : list JSValue)
    (first : bool) {struct fuel} : option (JSValue * jsstring) :=
  match fuel with
  | O => None
  | S fuel' =>
      match s with
      | [] => None
      | x :: t =>
          if (x =? 93)%N && first then Some (JArray (rev acc), t)
          else
            match value fuel' s with
            | None => None
            | Some (v, r1) =>
                match skipSpace r1 with
                | [] => None
                | z :: r2 =>
                    if (z =? 44)%N
                    then elements fuel' (skipSpace r2) (v :: acc) false
                    else if (z =? 93)%N
                    then Some (JArray (rev (v :: acc)), r2)
                    else None
                end
            end
      end
  end.

Definition parse (text : jsstring) : option JSValue :=
  match value (2 * length text + 2) text with
  | Some (v, rest) =>
      match skipSpace rest with
      | [] => Some v
      | _ :: _ => None
      end
  | None => None
  end.

(** ToNumber of a string, array or object, for the values whose
    conversion is not a number. *)
Definition notANumber (v : JSValue) : float := nan.

End MiniJSON.

(** ** [AIAnalysisService] *)

Module AIAnalysisService.

Record TextPosition := {
  start : Z;
  end_ : Z;
  line : option Z;
  column : option Z
}.

Inductive ChangeType := REPLACEMENT | INSERTION | DELETION | HIGHLIGHT.

Inductive Severity := CRITICAL | HIGH | MEDIUM | LOW | INFO.

(** [Omit<SuggestedChange, 'position'>]. *)
Record ChangeData := {
  type : ChangeType;
  originalText : option jsstring;
  suggestedText : option jsstring;
  reason : jsstring;
  severity : Severity;
  ruleId : option jsstring;
  confidence : float
}.

(** [{ ...change, position }]. *)
Record SuggestedChange := {
  change : ChangeData;
  position : TextPosition
}.

Inductive RuleType :=
| CLAUSE_CHECK | RISK_ASSESSMENT | LANGUAGE_PREFERENCE | MISSING_PROVISION
| COMPLIANCE_CHECK | TERM_EXTRACTION | DEADLINE_CHECK.

(** The columns of the [Rule] and [Playbook] models that the service
    reads. *)
Record Rule := {
  rule_id : jsstring;
  rule_name : jsstring;
  rule_type : RuleType;
  aiPrompt : jsstring;
  rule_severity : Severity;
  preferredLanguage : option jsstring;
  orderIndex : Z;
  isActive : bool
}.

Record Playbook := {
  name : jsstring;
  description : option jsstring;
  contractType : option jsstring;
  rules : list Rule
}.

Definition severityName (s : Severity) : jsstring :=
  match s with
  | CRITICAL => js "CRITICAL"
  | HIGH => js "HIGH"
  | MEDIUM => js "MEDIUM"
  | LOW => js "LOW"
  | INFO => js "INFO"
  end.

Definition ruleTypeName (t : RuleType) : jsstring :=
  match t with
  | CLAUSE_CHECK => js "CLAUSE_CHECK"
  | RISK_ASSESSMENT => js "RISK_ASSESSMENT"
  | LANGUAGE_PREFERENCE => js "LANGUAGE_PREFERENCE"
  | MISSING_PROVISION => js "MISSING_PROVISION"
  | COMPLIANCE_CHECK => js "COMPLIANCE_CHECK"
  | TERM_EXTRACTION => js "TERM_EXTRACTION"
  | DEADLINE_CHECK => js "DEADLINE_CHECK"
  end.

(** An optional string is truthy when present and not empty. *)
Definition truthyOpt (o : option jsstring) : bool :=
  match o with Some s => truthy s | None => false end.

(** *** [buildAnalysisPrompt] *)

(** [{ CRITICAL: 0, HIGH: 1, MEDIUM: 2, LOW: 3, INFO: 4 }]. *)
Definition severityOrder (s : Severity) : Z :=
  match s with
  | CRITICAL => 0
  | HIGH => 1
  | MEDIUM => 2
  | LOW => 3
  | INFO => 4
  end%Z.

(** The comparator handed to [sort]. *)
Definition compareRules (a b : Rule) : Z :=
  let severityDiff :=
    (severityOrder (rule_severity a) - severityOrder (rule_severity b))%Z in
  if negb (severityDiff =? 0)%Z then severityDiff
  else (orderIndex a - orderIndex b)%Z.

(** [Array.prototype.sort(cmp)].  The language fixes the result for a
    consistent comparator: the elements in ascending order, equal ones in
    their original order.  A stable insertion sort computes it. *)
Fixpoint insertBy {A : Type} (cmp : A -> A -> Z) (x : A) (l : list A)
  : list A :=
  match l with
  | [] => [x]
  | y :: l' =>
      if (cmp x y <=? 0)%Z then x :: y :: l' else y :: insertBy cmp x l'
  end.

Fixpoint sortBy {A : Type} (cmp : A -> A -> Z) (l : list A) : list A :=
  match l with
  | [] => []
  | x :: l' => insertBy cmp x (sortBy cmp l')
  end.

Definition sortedRules (playbook : Playbook) : list Rule :=
  sortBy compareRules (filter isActive (rules playbook)).

(** The text one iteration of [sortedRules.forEach] appends. *)
Definition ruleText (index : nat) (rule : Rule) : jsstring :=
  js "**Rule " ++ natToString (index + 1) ++ js ": " ++ rule_name rule
    ++ js "** (ID: " ++ rule_id rule ++ js ")" ++ LF
  ++ js "Type: " ++ ruleTypeName (rule_type rule) ++ LF
  ++ js "Severity: " ++ severityName (rule_severity rule) ++ LF
  ++ js "Instructions: " ++ aiPrompt rule ++ LF
  ++ (if truthyOpt (preferredLanguage rule)
      then js "Preferred Language/Format:" ++ LF
           ++ match preferredLanguage rule with Some s => s | None => [] end
           ++ LF
      else [])
  ++ LF.

(** [forEach((rule, index) => ...)] from [index] on. *)
Fixpoint rulesText (index : nat) (rs : list Rule) : jsstring :=
  match rs with
  | [] => []
  | rule :: rs' => ruleText index rule ++ rulesText (S index) rs'
  end.

Definition promptHeader (contractContent : jsstring) (playbook : Playbook)
  : jsstring :=
  js "**CONTRACT TO ANALYZE:**" ++ LF ++ LF ++ contractContent ++ LF ++ LF
  ++ js "**PLAYBOOK: " ++ name playbook ++ js "**" ++ LF
  ++ (if truthyOpt (description playbook)
      then js "Description: "
           ++ match description playbook with Some s => s | None => [] end
           ++ LF
      else [])
  ++ (if truthyOpt (contractType playbook)
      then js "Contract Type: "
           ++ match contractType playbook with Some s => s | None => [] end
           ++ LF
      else [])
  ++ LF ++ js "**REVIEW RULES:**" ++ LF ++ LF.

Definition promptFooter : jsstring :=
  LF ++ js "**ANALYSIS INSTRUCTIONS:**" ++ LF
  ++ js "1. Review the contract against each active rule" ++ LF
  ++ js "2. Identify specific text that violates or could improve compliance"
  ++ LF
  ++ js "3. Provide exact replacement text following legal best practices"
  ++ LF
  ++ js "4. Calculate risk score (0-10) considering: liability, enforceability, compliance gaps"
  ++ LF
  ++ js "5. Calculate compliance score (0-10) for GDPR, SOC2, and industry standards"
  ++ LF
  ++ js "6. Extract key terms and identify missing critical provisions"
  ++ LF ++ LF
  ++ js "Analyze thoroughly and provide specific, actionable recommendations.".

Definition buildAnalysisPrompt (contractContent : jsstring)
    (playbook : Playbook) : jsstring :=
  promptHeader contractContent playbook
  ++ rulesText 0 (sortedRules playbook)
  ++ promptFooter.

(** *** [parseAIResponse] *)

(** [/\{[\s\S]*\}/]. *)
Definition jsonPattern : regex :=
  Seq (lit1 123%N) (Seq (Star (Chr anyChar)) (lit1 125%N)).

Definition isNumber (v : option JSValue) : bool :=
  match v with Some (JNumber _) => true | _ => false end.

Section ParseAIResponse.

(** [JSON.parse]: [None] when it raises a SyntaxError. *)
Variable JSON_parse : jsstring -> option JSValue.

(** ToNumber on strings, arrays and objects. *)
Variable ToNumberOther : JSValue -> float.

Definition ToNumber (v : option JSValue) : float :=
  match v with
  | None => nan
  | Some (JNumber n) => n
  | Some JNull => 0%float
  | Some (JBool b) => if b then 1%float else 0%float
  | Some other => ToNumberOther other
  end.

(** The body of the [try] block.  After the validation [analysis] is an
    object (only an object has a truthy [summary]), which the assignments
    update in place. *)
Definition parseBody (responseText : jsstring) : outcome JSValue :=
  match matchFirst responseText jsonPattern with
  | None => Throws (Err (js "No JSON found in AI response"))
  | Some json =>
      match JSON_parse json with
      | None => Throws SyntaxErr
      | Some analysis =>
          summary <- getProp analysis (js "summary") ;;
          riskScore <- getProp analysis (js "riskScore") ;;
          if negb (truthyValue summary) || negb (isNumber riskScore)
          then Throws (Err (js "Invalid analysis structure"))
          else
            match analysis with
            | JObject props =>
                let orEmpty key props :=
                  setProp key (orElse (lookup key props) (JArray [])) props in
                let props := orEmpty (js "changes") props in
                let props := orEmpty (js "missingClauses") props in
                let props := orEmpty (js "risks") props in
                let props := orEmpty (js "keyTerms") props in
                let clamp (v : option JSValue) : JSValue :=
                  JNumber (Math_max 0 (Math_min 10 (ToNumber v))) in
                let props :=
                  setProp (js "riskScore")
                    (clamp (lookup (js "riskScore") props)) props in
                let props :=
                  setProp (js "complianceScore")
                    (clamp (Some (orElse (lookup (js "complianceScore") props)
                                    (JNumber 5))))
                    props in
                Returns (JObject props)
            | _ => Throws TypeErr
            end
      end
  end.

Definition parseAIResponse (responseText : jsstring) : outcome JSValue :=
  rethrow (js "Failed to parse AI response: ") (parseBody responseText).

End ParseAIResponse.

(** *** [findTextPosition], [fuzzyFindPosition], [mapChangesToDocument] *)

(** [{ start: 0, end: 0 }]. *)
Definition notFound : TextPosition :=
  {| start := 0; end_ := 0; line := None; column := None |}.

(** [/\s+/g]. *)
Definition whitespaceRun : regex := Plus (Chr isWhiteSpace).

Section TextMatching.

(** [String.prototype.toLowerCase]. *)
Variable toLowerCase : jsstring -> jsstring.

(** [text.toLowerCase().replace(/\s+/g, ' ').trim()]. *)
Definition normalizeText (text : jsstring) : jsstring :=
  trim (replaceAll (toLowerCase text) whitespaceRun (js " ")).

(** The [while] loop that maps [index], found in the normalized text,
    back to the original text. *)
Fixpoint mapBack (fuel : nat) (fullText : jsstring) (index : Z)
    (originalIndex normalizedIndex : Z) : outcome Z :=
  if ((normalizedIndex <? index)
      && (originalIndex <? Z.of_nat (length fullText)))%Z
  then
    match fuel with
    | O => OutOfFuel
    | S fuel' =>
        match charAt fullText (Z.to_nat originalIndex) with
        | None => Throws TypeErr
        | Some char =>
            let normalizedChar := normalizeText char in
            let normalizedIndex :=
              if truthy normalizedChar
              then (normalizedIndex + Z.of_nat (length normalizedChar))%Z
              else normalizedIndex in
            mapBack fuel' fullText index (originalIndex + 1)%Z
              normalizedIndex
        end
    end
  else Returns originalIndex.

Definition fuzzyFindPosition (fuel : nat) (searchText fullText : jsstring)
  : outcome Z :=
  let normalizedSearch := normalizeText searchText in
  let normalizedFull := normalizeText fullText in
  let index := indexOf normalizedFull normalizedSearch in
  if negb (index =? -1)%Z
  then mapBack fuel fullText index 0 0
  else Returns (-1)%Z.

Definition findTextPosition (fuel : nat) (searchText fullText : jsstring)
  : outcome TextPosition :=
  if negb (truthy searchText) then Returns notFound
  else
    let index := indexOf fullText searchText in
    index <- (if (index =? -1)%Z
              then fuzzyFindPosition fuel searchText fullText
              else Returns index) ;;
    if (index =? -1)%Z then Returns notFound
    else
      let start := index in
      let end_ := (index + Z.of_nat (length searchText))%Z in
      let beforeText := substring fullText 0 (Z.to_nat start) in
      let lines := split beforeText LF in
      match rev lines with
      | [] => Throws TypeErr
      | lastLine :: _ =>
          Returns {| start := start;
                     end_ := end_;
                     line := Some (Z.of_nat (length lines));
                     column := Some (Z.of_nat (length lastLine) + 1)%Z |}
      end.

(** [change.originalText || '']. *)
Definition searchTextOf (c : ChangeData) : jsstring :=
  match originalText c with
  | Some s => s
  | None => []
  end.

Definition mapChangesToDocument (fuel : nat) (changes : list ChangeData)
    (contractContent : jsstring) : outcome (list SuggestedChange) :=
  mapM (fun c =>
          position <- findTextPosition fuel (searchTextOf c) contractContent ;;
          Returns {| change := c; position := position |})
       changes.

End TextMatching.

End AIAnalysisService.

(** ** [DocumentProcessor] *)

Module DocumentProcessor.

(** [format?: string | number]. *)
Inductive Format := FormatString (s : jsstring) | FormatNumber (n : Z).

Inductive LexicalNode : Type :=
  mkNode {
    children : option (list LexicalNode);
    direction : option jsstring;
    format : option Format;
    indent : option Z;
    type : jsstring;
    version : option Z;
    text : option jsstring;
    detail : option Z;
    mode : option jsstring;
    style : option jsstring
  }.

Record Root := {
  root_children : list LexicalNode;
  root_direction : jsstring;
  root_format : jsstring;
  root_indent : Z;
  root_type : jsstring;
  root_version : Z
}.

Record LexicalState := { root : Root }.

(** The text node both conversions build. *)
Definition textNode (t : jsstring) : LexicalNode :=
  {| children := None;
     direction := None;
     format := Some (FormatNumber 0);
     indent := None;
     type := js "text";
     version := Some 1%Z;
     text := Some t;
     detail := Some 0%Z;
     mode := Some (js "normal");
     style := Some [] |}.

(** The paragraph node both conversions build. *)
Definition paragraphNode (kids : list LexicalNode) : LexicalNode :=
  {| children := Some kids;
     direction := Some (js "ltr");
     format := Some (FormatString []);
     indent := Some 0%Z;
     type := js "paragraph";
     version := Some 1%Z;
     text := None;
     detail := None;
     mode := None;
     style := None |}.

Definition rootOf (kids : list LexicalNode) : LexicalState :=
  {| root := {| root_children := kids;
                root_direction := js "ltr";
                root_format := [];
                root_indent := 0%Z;
                root_type := js "root";
                root_version := 1%Z |} |}.

(** [/<[^>]*>/g]. *)
Definition tagPattern : regex :=
  Seq (lit1 60%N) (Seq (Star (Chr (notChar 62%N))) (lit1 62%N)).

Definition htmlToLexical (html : jsstring) : LexicalState :=
  let textContent := replaceAll html tagPattern [] in
  rootOf [paragraphNode [textNode textContent]].

(** The paragraph separator, two line feeds. *)
Definition paragraphBreak : jsstring := LF ++ LF.

Definition textToLexical (text : jsstring) : LexicalState :=
  let paragraphs :=
    filter (fun p => truthy (trim p)) (split text paragraphBreak) in
  let children :=
    map (fun paragraph => paragraphNode [textNode (trim paragraph)])
        paragraphs in
  rootOf children.

(** The inner [extractText] of [lexicalToText]. *)
Fixpoint extractText (node : LexicalNode) : jsstring :=
  match node with
  | mkNode kids _ _ _ ty _ txt _ _ _ =>
      if streq ty (js "text")
      then match txt with
           | Some t => t
           | None => []
           end
      else match kids with
           | Some cs => join [] (map extractText cs)
           | None => []
           end
  end.

(** [root.children] of a [LexicalState] is always an array, so the guard
    that returns [''] for a missing one never fires. *)
Definition lexicalToText (lexicalState : LexicalState) : jsstring :=
  join paragraphBreak (map extractText (root_children (root lexicalState))).

(** *** [extractKeyTerms] *)

Definition quote : char := 34%N.

(** The global pattern of defined terms: a double quote, group 1 made of
    one or more code units other than a double quote, a double quote,
    [\s+], then [means] or [shall mean]. *)
Definition definedTermsPattern : regex :=
  Seq (lit1 quote)
    (Seq (Group (Plus (Chr (notChar quote))))
       (Seq (lit1 quote)
          (Seq (Plus (Chr isWhiteSpace))
             (Alt (lit (js "means")) (lit (js "shall mean")))))).

(** [[A-Z][a-z]+]. *)
Definition capitalizedWord : regex := Seq (Chr isUpper) (Plus (Chr isLower)).

(** [/\b[A-Z][a-z]+(?:\s+[A-Z][a-z]+)*\b/g]. *)
Definition capitalizedPattern : regex :=
  Seq WordB
    (Seq capitalizedWord
       (Seq (Star (Seq (Plus (Chr isWhiteSpace)) capitalizedWord)) WordB)).

(** The [exec] loop: group 1 of every match.  The loop and [scanAll] make
    the same steps because the pattern matches no empty text. *)
Definition definedTerms (content : jsstring) : list jsstring :=
  flat_map (fun g => match seg_group g with Some t => [t] | None => [] end)
           (fst (scanAll definedTermsPattern content)).

(** [termCounts[term] = (termCounts[term] || 0) + 1] on an object whose
    keys stay in insertion order. *)
Definition countTerm (termCounts : list (jsstring * nat)) (term : jsstring)
  : list (jsstring * nat) :=
  if 3 <? length term
  then setProp term
         (match lookup term termCounts with Some n => n | None => 0 end + 1)
         termCounts
  else termCounts.

Definition countTerms (capitalizedTerms : list jsstring)
  : list (jsstring * nat) :=
  fold_left countTerm capitalizedTerms [].

Definition frequentTerms (content : jsstring) : list jsstring :=
  map fst
    (filter (fun e => 3 <=? snd e)
       (countTerms (matchAll content capitalizedPattern))).

Fixpoint mem (x : jsstring) (l : list jsstring) : bool :=
  match l with
  | [] => false
  | y :: l' => streq y x || mem x l'
  end.

(** [[...new Set(xs)]]: first occurrences, in order. *)
Fixpoint uniqueFrom (seen : list jsstring) (xs : list jsstring)
  : list jsstring :=
  match xs with
  | [] => []
  | x :: xs' =>
      if mem x seen then uniqueFrom seen xs'
      else x :: uniqueFrom (x :: seen) xs'
  end.

Definition unique (xs : list jsstring) : list jsstring := uniqueFrom [] xs.

Definition extractKeyTerms (content : jsstring) : list jsstring :=
  let terms := definedTerms content ++ frequentTerms content in
  firstn 20 (unique terms).

(** *** [countWords] *)

Definition countWords (text : jsstring) : nat :=
  length
    (filter (fun word => 0 <? length word)
       (splitBy (trim text) (Plus (Chr isWhiteSpace)))).

(** *** [extractContractType] *)

(** [\w+\s+keyword]; with the [i] flag [\w] and [\s] match what they match
    without it. *)
Definition typedAs (keyword : jsstring) : regex :=
  Seq (Plus (Chr isWordChar)) (Seq (Plus (Chr isWhiteSpace)) (litCI keyword)).

(** [/(?:this\s+)?(\w+\s+keyword)/i]. *)
Definition anyTypePattern (keyword : jsstring) : regex :=
  Seq (Alt (Seq (litCI (js "this")) (Plus (Chr isWhiteSpace))) Empty)
      (Group (typedAs keyword)).

(** [/(name\s+agreement)/i]. *)
Definition namedTypePattern (name : jsstring) : regex :=
  Group (Seq (litCI name)
           (Seq (Plus (Chr isWhiteSpace)) (litCI (js "agreement")))).

Definition typePatterns : list regex :=
  [ anyTypePattern (js "agreement");
    anyTypePattern (js "contract");
    namedTypePattern (js "non-disclosure");
    namedTypePattern (js "service");
    namedTypePattern (js "employment");
    namedTypePattern (js "license") ].

Section ContractType.

(** [String.prototype.toLowerCase]. *)
Variable toLowerCase : jsstring -> jsstring.

(** The [for] loop over the patterns: the first pattern that matches with
    a non-empty group 1 decides. *)
Fixpoint firstType (patterns : list regex) (content : jsstring)
  : option jsstring :=
  match patterns with
  | [] => None
  | pattern :: rest =>
      match exec pattern None content with
      | Some f =>
          match f_group f with
          | Some g =>
              if truthy g then Some (toLowerCase g)
              else firstType rest content
          | None => firstType rest content
          end
      | None => firstType rest content
      end
  end.

Definition extractContractType (content : jsstring) : option jsstring :=
  firstType typePatterns content.

End ContractType.

(** *** [getMimeTypeFromName] *)

(** The own properties of [mimeTypes]. *)
Definition mimeTypes : list (jsstring * jsstring) :=
  [ (js "docx",
     js "application/vnd.openxmlformats-officedocument.wordprocessingml.document");
    (js "doc", js "application/msword");
    (js "pdf", js "application/pdf");
    (js "txt", js "text/plain");
    (js "rtf", js "application/rtf") ].

(** The names of the properties that an object literal inherits from
    [Object.prototype].  Each of them holds a function, and [__proto__]
    gives the prototype: a truthy value that is not a string. *)
Definition objectPrototype : list jsstring :=
  [ js "constructor"; js "hasOwnProperty"; js "isPrototypeOf";
    js "propertyIsEnumerable"; js "toLocaleString"; js "toString";
    js "valueOf"; js "__proto__"; js "__defineGetter__";
    js "__defineSetter__"; js "__lookupGetter__"; js "__lookupSetter__" ].

(** What [getMimeTypeFromName] returns: a string, or the inherited value
    found under the name [name]. *)
Inductive mimeValue : Type :=
| MimeString (s : jsstring)
| InheritedValue (name : jsstring).

(** [xs.pop()]: the last element ([None] is [undefined]). *)
Definition pop (xs : list jsstring) : option jsstring := hd_error (rev xs).

Section MimeType.

(** [String.prototype.toLowerCase]. *)
Variable toLowerCase : jsstring -> jsstring.

Definition getMimeTypeFromName (filename : jsstring) : mimeValue :=
  let ext := pop (split (toLowerCase filename) (js ".")) in
  let key :=
    match ext with
    | Some e => if truthy e then e else []
    | None => []
    end in
  match lookup key mimeTypes with
  | Some own =>
      if truthy own then MimeString own
      else MimeString (js "application/octet-stream")
  | None =>
      if mem key objectPrototype then InheritedValue key
      else MimeString (js "application/octet-stream")
  end.

End MimeType.

(** *** [extractParties], [extractDate], [extractContractMetadata] *)

(** [.]: any code unit but a line terminator. *)
Definition dot : char -> bool :=
  fun x => negb ((x =? 10) || (x =? 13) || (x =? 8232) || (x =? 8233))%N.

(** [[^...]] with the [i] flag: the code units that match none of [cs]. *)
Definition noneOf (cs : list char) : char -> bool :=
  fun x => negb (existsb (fun c => ci c x) cs).

(** [/between\s+([^,]+?)\s+(?:and|&)/i]. *)
Definition betweenPattern : lazyRegex :=
  LSeq (Greedy (Seq (litCI (js "between")) (Plus (Chr isWhiteSpace))))
    (LSeq (LGroup (LSeq (Greedy (Chr (noneOf [44%N])))
                     (LazyStar (Greedy (Chr (noneOf [44%N]))))))
       (Greedy (Seq (Plus (Chr isWhiteSpace))
                  (Alt (litCI (js "and")) (litCI (js "&")))))).

(** [([^\\n]+)]: in a regular expression literal the class [[^\\n]] holds
    every code unit but the backslash and the letter [n]. *)
Definition restOfLine : lazyRegex :=
  LGroup (Greedy (Plus (Chr (noneOf [92%N; 110%N])))).

(** [/label.*?:\s*([^\\n]+)/i]. *)
Definition labelPattern (label : jsstring) : lazyRegex :=
  LSeq (Greedy (litCI label))
    (LSeq (LazyStar (Greedy (Chr dot)))
       (LSeq (Greedy (Seq (litCI (js ":")) (Star (Chr isWhiteSpace))))
          restOfLine)).

Definition partyPatterns : list lazyRegex :=
  [ betweenPattern;
    labelPattern (js "party");
    labelPattern (js "client");
    labelPattern (js "vendor") ].

(** [match[1]] when [match && match[1]] holds. *)
Definition group1 (pattern : lazyRegex) (content : jsstring)
  : option jsstring :=
  match lexec pattern None content with
  | Some f =>
      match f_group f with
      | Some g => if truthy g then Some g else None
      | None => None
      end
  | None => None
  end.

Definition extractParties (content : jsstring) : list jsstring :=
  let parties :=
    flat_map
      (fun pattern =>
         match group1 pattern content with
         | Some g => [trim g]
         | None => []
         end)
      partyPatterns in
  unique parties.

(** [/word.*?date.*?:?\s*([^\\n]+)/i], for [effective] and [expir]. *)
Definition datePattern (word : jsstring) : lazyRegex :=
  LSeq (Greedy (litCI word))
    (LSeq (LazyStar (Greedy (Chr dot)))
       (LSeq (Greedy (litCI (js "date")))
          (LSeq (LazyStar (Greedy (Chr dot)))
             (LSeq (Greedy (Seq (Alt (litCI (js ":")) Empty)
                              (Star (Chr isWhiteSpace))))
                restOfLine)))).

Record ContractMetadata := {
  parties : list jsstring;
  effectiveDate : option jsstring;
  expirationDate : option jsstring;
  contractType : option jsstring;
  keyTerms : list jsstring
}.

Section ContractMetadata.

(** [String.prototype.toLowerCase]. *)
Variable toLowerCase : jsstring -> jsstring.

(** [new Date(s).toISOString()] when [new Date(s)] is a valid date, and
    [None] when its time value is NaN. *)
Variable toISOString : jsstring -> option jsstring.

Definition extractDate (content : jsstring) (pattern : lazyRegex)
  : option jsstring :=
  match group1 pattern content with
  | Some g =>
      let dateStr := trim g in
      match toISOString dateStr with
      | Some iso => Some (hd [] (split iso (js "T")))
      | None => Some dateStr
      end
  | None => None
  end.

Definition extractContractMetadata (content : jsstring) : ContractMetadata :=
  {| parties := extractParties content;
     effectiveDate := extractDate content (datePattern (js "effective"));
     expirationDate := extractDate content (datePattern (js "expir"));
     contractType := extractContractType toLowerCase content;
     keyTerms := extractKeyTerms content |}.

End ContractMetadata.

(** *** [validateFile] *)

(** What [validateFile] reads of a [File]. *)
Record FileInfo := {
  file_size : float;
  file_type : jsstring
}.

Record Validation := {
  valid : bool;
  error : option jsstring
}.

Definition defaultAllowedTypes : list jsstring :=
  [ js "application/vnd.openxmlformats-officedocument.wordprocessingml.document";
    js "application/msword";
    js "application/pdf";
    js "text/plain" ].

Section ValidateFile.

(** [process.env.MAX_FILE_SIZE] and [process.env.ALLOWED_FILE_TYPES]
    ([None] when unset). *)
Variable MAX_FILE_SIZE : option jsstring.
Variable ALLOWED_FILE_TYPES : option jsstring.

(** [parseInt] and [Number.prototype.toFixed(1)]. *)
Variable parseInt : jsstring -> float.
Variable toFixed1 : float -> jsstring.

Definition maxSize : float :=
  parseInt
    match MAX_FILE_SIZE with
    | Some s => if truthy s then s else js "94371840"
    | None => js "94371840"
    end.

(** An array is truthy, so the default list is used only when the
    variable is unset. *)
Definition allowedTypes : list jsstring :=
  match ALLOWED_FILE_TYPES with
  | Some s => split s (js ",")
  | None => defaultAllowedTypes
  end.

Definition validateFile (file : FileInfo) : Validation :=
  if (maxSize <? file_size file)%float
  then
    {| valid := false;
       error :=
         Some (js "File size "
               ++ toFixed1 (file_size file / 1024 / 1024)%float
               ++ js "MB exceeds maximum allowed size of "
               ++ toFixed1 (maxSize / 1024 / 1024)%float
               ++ js "MB") |}
  else if negb (mem (file_type file) allowedTypes)
  then
    {| valid := false;
       error :=
         Some (js "File type " ++ file_type file
               ++ js " is not supported. Allowed types: "
               ++ join (js ", ") allowedTypes) |}
  else {| valid := true; error := None |}.

End ValidateFile.

End DocumentProcessor.

(* ================================================================= *)
(** * Part II.  The vocabulary of the properties *)
(* ================================================================= *)

Import AIAnalysisService.
Import DocumentProcessor.

(** [search] occurs in [s] at index [i]. *)
Definition occursAt (search s : jsstring) (i : nat) : Prop :=
  exists pre post, s = pre ++ search ++ post /\ length pre = i.

(** [i] is the index of the first occurrence of [search] in [s]. *)
Definition firstOccurrence (search s : jsstring) (i : nat) : Prop :=
  occursAt search s i /\ forall j, j < i -> ~ occursAt search s j.

(** The tail of [findTextPosition], once [index] is known. *)
Definition positionAt (index : Z) (searchText fullText : jsstring)
  : outcome TextPosition :=
  if (index =? -1)%Z then Returns notFound
  else
    let lines := split (substring fullText 0 (Z.to_nat index)) LF in
    match rev lines with
    | [] => Throws TypeErr
    | lastLine :: _ =>
        Returns {| start := index;
                   end_ := (index + Z.of_nat (length searchText))%Z;
                   line := Some (Z.of_nat (length lines));
                   column := Some (Z.of_nat (length lastLine) + 1)%Z |}
    end.

(** The change used to run [mapChangesToDocument]. *)
Definition sampleChange : ChangeData :=
  {| AIAnalysisService.type := REPLACEMENT;
     originalText := Some (js "b c");
     suggestedText := Some (js "d");
     reason := js "r";
     severity := LOW;
     ruleId := None;
     confidence := 1%float |}.

(** [a] may stand before [b]. *)
Definition before {A : Type} (cmp : A -> A -> Z) (a b : A) : Prop :=
  (cmp a b <= 0)%Z.

(** The place of a severity in the list CRITICAL, HIGH, MEDIUM, LOW,
    INFO. *)
Definition severityRank (s : Severity) : nat :=
  match s with
  | CRITICAL => 0
  | HIGH => 1
  | MEDIUM => 2
  | LOW => 3
  | INFO => 4
  end.

(** [a] has an earlier severity than [b], or the same severity and an
    [orderIndex] that is not larger. *)
Definition listedBefore (a b : Rule) : Prop :=
  severityRank (rule_severity a) < severityRank (rule_severity b)
  \/ (rule_severity a = rule_severity b /\ (orderIndex a <= orderIndex b)%Z).

(** A blank string: white space only. *)
Definition isBlank (s : jsstring) : bool := forallb isWhiteSpace s.

(** A paragraph: not empty, no white space at either end, no paragraph
    break inside. *)
Definition isParagraph (p : jsstring) : Prop :=
  p <> [] /\ trim p = p /\ forall a b, p <> a ++ paragraphBreak ++ b.

(** No paragraph break inside, no line feed at the end. *)
Definition quiet (p : jsstring) : Prop :=
  (forall a b, p <> a ++ paragraphBreak ++ b) /\ (forall t, p <> t ++ LF).

(** [Matches r prev s c prev' s' c']: from the position with [prev] before
    it, [s] ahead of it and capture [c], the pattern [r] can match up to
    the position with [prev'] before it and [s'] ahead, leaving capture
    [c']. *)
Inductive Matches :
  regex -> option char -> jsstring -> capture ->
  option char -> jsstring -> capture -> Prop :=
| M_Empty prev s c : Matches Empty prev s c prev s c
| M_Chr p prev x s c :
    p x = true -> Matches (Chr p) prev (x :: s) c (Some x) s c
| M_Seq r1 r2 prev s c prev1 s1 c1 prev2 s2 c2 :
    Matches r1 prev s c prev1 s1 c1 ->
    Matches r2 prev1 s1 c1 prev2 s2 c2 ->
    Matches (Seq r1 r2) prev s c prev2 s2 c2
| M_AltL r1 r2 prev s c prev1 s1 c1 :
    Matches r1 prev s c prev1 s1 c1 ->
    Matches (Alt r1 r2) prev s c prev1 s1 c1
| M_AltR r1 r2 prev s c prev1 s1 c1 :
    Matches r2 prev s c prev1 s1 c1 ->
    Matches (Alt r1 r2) prev s c prev1 s1 c1
| M_Star0 r prev s c : Matches (Star r) prev s c prev s c
| M_StarS r prev s c prev1 s1 c1 prev2 s2 c2 :
    Matches r prev s c prev1 s1 c1 ->
    length s1 < length s ->
    Matches (Star r) prev1 s1 c1 prev2 s2 c2 ->
    Matches (Star r) prev s c prev2 s2 c2
| M_Group r prev s c prev1 s1 c1 :
    Matches r prev s c prev1 s1 c1 ->
    Matches (Group r) prev s c prev1 s1
      (Some (firstn (length s - length s1) s))
| M_WordB prev s c :
    xorb (isWordOpt prev) (isWordOpt (hd_error s)) = true ->
    Matches WordB prev s c prev s c.

(** The texts a pattern matches, positions and captures left out. *)
Inductive InLang : regex -> jsstring -> Prop :=
| L_Empty : InLang Empty []
| L_Chr p x : p x = true -> InLang (Chr p) [x]
| L_Seq r1 r2 m1 m2 :
    InLang r1 m1 -> InLang r2 m2 -> InLang (Seq r1 r2) (m1 ++ m2)
| L_AltL r1 r2 m : InLang r1 m -> InLang (Alt r1 r2) m
| L_AltR r1 r2 m : InLang r2 m -> InLang (Alt r1 r2) m
| L_Star0 r : InLang (Star r) []
| L_StarS r m1 m2 :
    InLang r m1 -> InLang (Star r) m2 -> InLang (Star r) (m1 ++ m2)
| L_Group r m : InLang r m -> InLang (Group r) m
| L_WordB : InLang WordB [].

(** [v.key] when [v] is an object that has the property. *)
Definition field (v : JSValue) (key : jsstring) : option JSValue :=
  match v with
  | JObject props => lookup key props
  | _ => None
  end.

(** [Math.max(0, Math.min(10, n))]. *)
Definition clamp (n : float) : float := Math_max 0 (Math_min 10 n).

(** The four properties that default to the empty array. *)
Definition arrayFields : list jsstring :=
  [js "changes"; js "missingClauses"; js "risks"; js "keyTerms"].

(** An ASCII literal in which the apostrophe stands for the double
    quote. *)
Definition jsq (s : string) : jsstring :=
  map (fun c => if (c =? 39)%N then 34%N else c) (js s).

(** Some contiguous part of [text] is the JSON text of an object. *)
Definition containsJSONObject (JSON_parse : jsstring -> option JSValue)
    (text : jsstring) : Prop :=
  exists pre body post props,
    text = pre ++ body ++ post /\ JSON_parse body = Some (JObject props).

(** The response used to run [parseAIResponse]: prose around an object
    that has none of the four arrays and no compliance score. *)
Definition sampleResponse : jsstring :=
  jsq "Here you go: {'summary': 'fine', 'riskScore': 12.5} Regards.".

(** A response whose compliance score is 0. *)
Definition zeroComplianceResponse : jsstring :=
  jsq "{'summary': 'fine', 'riskScore': 3, 'complianceScore': 0}".

(** The rest of [s] after the first [stop], when there is one. *)
Fixpoint afterFirst (stop : char) (s : jsstring) : option jsstring :=
  match s with
  | [] => None
  | x :: t => if (stop =? x)%N then Some t else afterFirst stop t
  end.

(** [Stripped html text]: [text] is [html] with every [<] up to the next
    [>] removed, read from the left.  A [<] that no [>] follows closes
    nothing, and the text from it on stays. *)
Inductive Stripped : jsstring -> jsstring -> Prop :=
| Stripped_nil : Stripped [] []
| Stripped_keep x s r :
    x <> 60%N -> Stripped s r -> Stripped (x :: s) (x :: r)
| Stripped_tag body rest r :
    Forall (fun x => x <> 62%N) body ->
    Stripped rest r ->
    Stripped (60%N :: body ++ 62%N :: rest) r
| Stripped_open t :
    Forall (fun x => x <> 62%N) t -> Stripped (60%N :: t) (60%N :: t).

(** The text a global [replace] with the empty string leaves. *)
Definition removed (res : list segment * jsstring) : jsstring :=
  concat (map (fun g => seg_before g ++ []) (fst res)) ++ snd res.

(** The input of a global scan, put back together. *)
Definition flatten (segs : list segment) : jsstring :=
  concat (map (fun g => seg_before g ++ seg_match g) segs).

(** A segment holds a match of [r], with its group. *)
Definition segmentOf (r : regex) (g : segment) : Prop :=
  InLang r (seg_match g)
  /\ exists prev prev' post,
       Matches r prev (seg_match g ++ post) None prev' post (seg_group g).

(** A capital letter followed by one or more small letters. *)
Definition CapWord (w : jsstring) : Prop :=
  exists u ls,
    w = u :: ls /\ isUpper u = true /\ ls <> []
    /\ Forall (fun x => isLower x = true) ls.

(** Further capitalized words, each after a run of white space. *)
Inductive CapTail : jsstring -> Prop :=
| CapTail_nil : CapTail []
| CapTail_more ws w rest :
    ws <> [] ->
    Forall (fun x => isWhiteSpace x = true) ws ->
    CapWord w ->
    CapTail rest ->
    CapTail (ws ++ w ++ rest).

(** Capitalized words separated by white space. *)
Definition CapPhrase (t : jsstring) : Prop :=
  exists w rest, t = w ++ rest /\ CapWord w /\ CapTail rest.

(** Patterns without a group. *)
Fixpoint noGroup (r : regex) : bool :=
  match r with
  | Empty | Chr _ | WordB => true
  | Seq r1 r2 | Alt r1 r2 => noGroup r1 && noGroup r2
  | Star r1 => noGroup r1
  | Group _ => false
  end.

(** [term] is a quoted term of [content] followed by [means] or
    [shall mean]: between double quotes, not empty, without a double
    quote, then white space, then one of the two phrases. *)
Definition definedIn (content term : jsstring) : Prop :=
  exists pre ws kw post,
    content = pre ++ quote :: term ++ quote :: ws ++ kw ++ post
    /\ term <> []
    /\ Forall (fun x => x <> quote) term
    /\ ws <> []
    /\ Forall (fun x => isWhiteSpace x = true) ws
    /\ (kw = js "means" \/ kw = js "shall mean").

(** How many of [ms] are [t]. *)
Definition countOf (t : jsstring) (ms : list jsstring) : nat :=
  length (filter (streq t) ms).

(** Every count recorded so far is the count of a term longer than 3 and
    does not exceed the number of times the term was seen. *)
Definition countsBelow (seen : list jsstring) (acc : list (jsstring * nat))
  : Prop :=
  forall t n, In (t, n) acc -> 3 < length t /\ n <= countOf t seen.

(** [term] occurs at three different places of [content] or more. *)
Definition occursThrice (term content : jsstring) : Prop :=
  exists i1 i2 i3,
    i1 < i2 /\ i2 < i3
    /\ occursAt term content i1
    /\ occursAt term content i2
    /\ occursAt term content i3.

(** [term] is a capitalized phrase longer than 3 code units that occurs
    at least 3 times in [content]. *)
Definition frequentIn (content term : jsstring) : Prop :=
  CapPhrase term /\ 3 < length term /\ occursThrice term content.

(** No [<] of [s] has a [>] after it. *)
Definition tagFree (s : jsstring) : Prop :=
  forall pre mid post, s <> pre ++ 60%N :: mid ++ 62%N :: post.

(** The six properties that [parseAIResponse] assigns. *)
Definition assignedFields : list jsstring :=
  arrayFields ++ [js "riskScore"; js "complianceScore"].

(** The properties of the object that [parseAIResponse] returns, from
    those of the parsed object: the six assignments of the [try] block,
    in order. *)
Definition assigned (ToNumberOther : JSValue -> float)
    (props : list (jsstring * JSValue)) : list (jsstring * JSValue) :=
  let orEmpty key props :=
    setProp key (orElse (lookup key props) (JArray [])) props in
  let props := orEmpty (js "changes") props in
  let props := orEmpty (js "missingClauses") props in
  let props := orEmpty (js "risks") props in
  let props := orEmpty (js "keyTerms") props in
  let props :=
    setProp (js "riskScore")
      (JNumber (clamp (ToNumber ToNumberOther (lookup (js "riskScore") props))))
      props in
  setProp (js "complianceScore")
    (JNumber
       (clamp (ToNumber ToNumberOther
                 (Some (orElse (lookup (js "complianceScore") props)
                          (JNumber 5))))))
    props.

(** The number of line feeds in [s]. *)
Definition lineBreaks (s : jsstring) : nat := count_occ N.eq_dec s 10%N.

(** [lastLine] is the part of [s] after its last line feed (all of [s]
    when it has none). *)
Definition lastLineOf (s lastLine : jsstring) : Prop :=
  exists head,
    s = head ++ lastLine
    /\ ~ In 10%N lastLine
    /\ (head = [] \/ exists h, head = h ++ LF).

(** A word: not empty, no white space inside. *)
Definition isWord (w : jsstring) : Prop :=
  w <> [] /\ forallb (fun x => negb (isWhiteSpace x)) w = true.

(** A gap between two words: not empty, white space only. *)
Definition isGap (g : jsstring) : Prop := g <> [] /\ isBlank g = true.

(** The text made of the word [w] and then, for each pair of [rest], a gap
    and a word. *)
Definition spaced (w : jsstring) (rest : list (jsstring * jsstring))
  : jsstring :=
  w ++ concat (map (fun gw => fst gw ++ snd gw) rest).

(** The number of code units of [s] that begin a word; [afterSpace] tells
    whether a word may begin at the head of [s]. *)
Fixpoint wordStarts (afterSpace : bool) (s : jsstring) : nat :=
  match s with
  | [] => 0
  | x :: s' =>
      if isWhiteSpace x then wordStarts true s'
      else (if afterSpace then 1 else 0) + wordStarts false s'
  end.

(** A pattern without [\b]. *)
Fixpoint noBoundary (r : regex) : bool :=
  match r with
  | Empty | Chr _ => true
  | Seq r1 r2 | Alt r1 r2 => noBoundary r1 && noBoundary r2
  | Star r1 | Group r1 => noBoundary r1
  | WordB => false
  end.

(** An ASCII text without upper-case letters. *)
Definition plain (s : jsstring) : Prop :=
  Forall (fun c => (c < 128)%N /\ isUpper c = false) s.

(** [m] is a part of [content] made of a run of word characters, white
    space and a text that reads [keyword] when its ASCII letters are put
    in lower case. *)
Definition typePhrase (keyword content m : jsstring) : Prop :=
  exists pre w g kw post,
    content = pre ++ m ++ post
    /\ m = w ++ g ++ kw
    /\ (w <> [] /\ Forall (fun x => isWordChar x = true) w)
    /\ (g <> [] /\ Forall (fun x => isWhiteSpace x = true) g)
    /\ asciiToLowerCase kw = keyword.

(** What is left of [s] after the last [stop], if there is one. *)
Fixpoint afterLast (stop : char) (s : jsstring) : option jsstring :=
  match s with
  | [] => None
  | x :: t =>
      match afterLast stop t with
      | Some rest => Some rest
      | None => if (stop =? x)%N then Some t else None
      end
  end.

(** [json] is the part of [text] from its first [{] to its last [}]. *)
Definition jsonExtent (text json : jsstring) : Prop :=
  exists pre mid post,
    text = pre ++ json ++ post
    /\ json = 123%N :: mid ++ [125%N]
    /\ ~ In 123%N pre
    /\ ~ In 125%N post.

(** No [{] of [text] has a [}] after it. *)
Definition braceFree (text : jsstring) : Prop :=
  forall pre mid post, text <> pre ++ 123%N :: mid ++ 125%N :: post.

(** [s] with every run of white space replaced by one space; [inRun] tells
    whether the code unit before [s] is white space. *)
Fixpoint collapse (inRun : bool) (s : jsstring) : jsstring :=
  match s with
  | [] => []
  | x :: s' =>
      if isWhiteSpace x
      then if inRun then collapse true s' else 32%N :: collapse true s'
      else x :: collapse false s'
  end.

(** [a] and [r] have the same severity and the same [orderIndex]. *)
Definition sameRank (a r : Rule) : bool :=
  (severityRank (rule_severity a) =? severityRank (rule_severity r))
  && (orderIndex a =? orderIndex r)%Z.

(** The extension of a file name: what follows its last dot, or the whole
    name when it has no dot. *)
Definition extension (name : jsstring) : jsstring :=
  match afterLast 46%N name with
  | Some ext => ext
  | None => name
  end.

(** [LMatches], the matches of a pattern with lazy quantifiers, read as
    [Matches]. *)
Inductive LMatches :
  lazyRegex -> option char -> jsstring -> capture ->
  option char -> jsstring -> capture -> Prop :=
| LM_Greedy r prev s c prev1 s1 c1 :
    Matches r prev s c prev1 s1 c1 ->
    LMatches (Greedy r) prev s c prev1 s1 c1
| LM_Seq r1 r2 prev s c prev1 s1 c1 prev2 s2 c2 :
    LMatches r1 prev s c prev1 s1 c1 ->
    LMatches r2 prev1 s1 c1 prev2 s2 c2 ->
    LMatches (LSeq r1 r2) prev s c prev2 s2 c2
| LM_Star0 r prev s c : LMatches (LazyStar r) prev s c prev s c
| LM_StarS r prev s c prev1 s1 c1 prev2 s2 c2 :
    LMatches r prev s c prev1 s1 c1 ->
    length s1 < length s ->
    LMatches (LazyStar r) prev1 s1 c1 prev2 s2 c2 ->
    LMatches (LazyStar r) prev s c prev2 s2 c2
| LM_Group r prev s c prev1 s1 c1 :
    LMatches r prev s c prev1 s1 c1 ->
    LMatches (LGroup r) prev s c prev1 s1
      (Some (firstn (length s - length s1) s)).

(** Whatever the pattern [r] matches leaves in group 1 a non-empty text
    of code units of the class [p], taken from the matched text. *)
Definition capturesClass (p : char -> bool) (r : lazyRegex) : Prop :=
  forall prev s c prev' s' c',
    LMatches r prev s c prev' s' c' ->
    exists before m after,
      s = before ++ m ++ after ++ s'
      /\ c' = Some m
      /\ m <> []
      /\ Forall (fun x => p x = true) m.

(** [part] is a part of [content]. *)
Definition partOf (part content : jsstring) : Prop :=
  exists pre post, content = pre ++ part ++ post.

(** [entry] is the entry of [rule] in a prompt, under the number [n]: a
    heading with the number, the name and the id of the rule, then its
    type, its severity and its instructions, each on a line of its own,
    then the preferred language when the rule has one, and an empty
    line. *)
Definition ruleEntry (n : nat) (rule : Rule) (entry : jsstring) : Prop :=
  exists language,
    entry
    = js "**Rule " ++ natToString n ++ js ": " ++ rule_name rule
        ++ js "** (ID: " ++ rule_id rule ++ js ")" ++ LF
      ++ js "Type: " ++ ruleTypeName (rule_type rule) ++ LF
      ++ js "Severity: " ++ severityName (rule_severity rule) ++ LF
      ++ js "Instructions: " ++ aiPrompt rule ++ LF
      ++ language
      ++ LF
    /\ match preferredLanguage rule with
       | Some (x :: s) =>
           language = js "Preferred Language/Format:" ++ LF ++ (x :: s) ++ LF
       | _ => language = []
       end.

(** [text] is made of the entries of the rules [rs], in this order and
    without anything else, numbered from [n] on. *)
Inductive Entries : nat -> list Rule -> jsstring -> Prop :=
| Entries_nil n : Entries n [] []
| Entries_cons n rule rs entry text :
    ruleEntry n rule entry ->
    Entries (S n) rs text ->
    Entries n (rule :: rs) (entry ++ text).

(* ================================================================= *)
(** * Part III.  Properties *)
(* ================================================================= *)

(** ** Strings *)

Lemma streq_true_iff (a b : jsstring) : streq a b = true <-> a = b.
Proof.
  revert b; induction a as [|x a IH]; intros [|y b]; simpl;
    try (split; [discriminate | congruence]); try tauto.
  rewrite andb_true_iff, N.eqb_eq, IH. split.
  - intros [-> ->]; reflexivity.
  - intros H; injection H; auto.
Qed.

Lemma streq_refl (a : jsstring) : streq a a = true.
Proof. apply streq_true_iff; reflexivity. Qed.

Lemma streq_false_iff (a b : jsstring) : streq a b = false <-> a <> b.
Proof.
  rewrite <- streq_true_iff. destruct (streq a b); split; congruence.
Qed.

Lemma startsWith_true_iff (p s : jsstring) :
  startsWith p s = true <-> exists t, s = p ++ t.
Proof.
  revert s; induction p as [|x p IH]; intros s; simpl.
  - split; [intros _; exists s; reflexivity | reflexivity].
  - destruct s as [|y s].
    + split; [discriminate | intros [t Ht]; discriminate].
    + rewrite andb_true_iff, N.eqb_eq, IH. split.
      * intros [-> [t ->]]. exists t; reflexivity.
      * intros [t Ht]. injection Ht as -> ->. eauto.
Qed.

Lemma occursAt_0 (search s : jsstring) :
  occursAt search s 0 <-> startsWith search s = true.
Proof.
  rewrite startsWith_true_iff. split.
  - intros (pre & post & -> & Hlen).
    destruct pre; [|discriminate]. exists post; reflexivity.
  - intros [t ->]. exists [], t. auto.
Qed.

Lemma occursAt_S (search : jsstring) (x : char) (s : jsstring) (i : nat) :
  occursAt search (x :: s) (S i) <-> occursAt search s i.
Proof.
  split.
  - intros (pre & post & Heq & Hlen).
    destruct pre as [|y pre]; [discriminate|].
    simpl in Heq, Hlen. injection Heq as _ ->. injection Hlen as <-.
    exists pre, post. auto.
  - intros (pre & post & -> & <-). exists (x :: pre), post. auto.
Qed.

Lemma occursAt_nil (search : jsstring) (i : nat) :
  occursAt search [] i -> search = [] /\ i = 0.
Proof.
  intros (pre & post & Heq & Hlen).
  symmetry in Heq. apply app_eq_nil in Heq as [-> Heq].
  apply app_eq_nil in Heq as [-> _]. auto.
Qed.

(** [indexOf] finds the first occurrence, and answers -1 only when there
    is none. *)
Lemma indexOfFrom_cases (search s : jsstring) (k : Z) :
  (indexOfFrom search s k = (-1)%Z /\ forall i, ~ occursAt search s i)
  \/ (exists i, indexOfFrom search s k = (k + Z.of_nat i)%Z
                /\ firstOccurrence search s i).
Proof.
  revert k; induction s as [|x s IH]; intros k.
  - simpl. destruct (startsWith search []) eqn:E.
    + right. exists 0. split; [lia|]. split.
      * apply occursAt_0; exact E.
      * intros j Hj; lia.
    + left. split; [destruct search; reflexivity|].
      intros i Hi. destruct (occursAt_nil Hi) as [-> ->].
      discriminate.
  - simpl. destruct (startsWith search (x :: s)) eqn:E.
    + right. exists 0. split; [lia|]. split.
      * apply occursAt_0; exact E.
      * intros j Hj; lia.
    + destruct (IH (k + 1)%Z) as [[Hm Hno] | (i & Hi & Hocc & Hmin)].
      * left. split; [exact Hm|]. intros [|i] Hi.
        -- apply occursAt_0 in Hi. congruence.
        -- apply occursAt_S in Hi. exact (Hno _ Hi).
      * right. exists (S i). split; [lia|]. split.
        -- apply occursAt_S; exact Hocc.
        -- intros [|j] Hj Hoc.
           ++ apply occursAt_0 in Hoc. congruence.
           ++ apply occursAt_S in Hoc. apply (Hmin j); [lia | exact Hoc].
Qed.

Lemma firstOccurrence_unique (search s : jsstring) (i j : nat) :
  firstOccurrence search s i -> firstOccurrence search s j -> i = j.
Proof.
  intros [Hi Hmi] [Hj Hmj].
  destruct (Nat.lt_trichotomy i j) as [H | [H | H]]; auto.
  - exfalso; exact (Hmj _ H Hi).
  - exfalso; exact (Hmi _ H Hj).
Qed.

Lemma indexOf_found (s search : jsstring) (i : nat) :
  occursAt search s i ->
  exists j, firstOccurrence search s j /\ indexOf s search = Z.of_nat j.
Proof.
  intros Hocc. unfold indexOf.
  destruct (indexOfFrom_cases search s 0) as [[_ Hno] | (j & Hj & Hfirst)].
  - exfalso; exact (Hno _ Hocc).
  - exists j. split; [exact Hfirst | lia].
Qed.

Lemma indexOf_range (s search : jsstring) :
  indexOf s search = (-1)%Z \/ (0 <= indexOf s search)%Z.
Proof.
  unfold indexOf.
  destruct (indexOfFrom_cases search s 0) as [[H _] | (j & Hj & _)];
    [left; exact H | right; lia].
Qed.

Lemma indexOf_missing (s search : jsstring) :
  indexOf s search = (-1)%Z -> forall i, ~ occursAt search s i.
Proof.
  unfold indexOf.
  destruct (indexOfFrom_cases search s 0) as [[_ H] | (j & Hj & _)];
    [intros _; exact H | lia].
Qed.

Lemma splitGo_not_nil (sep : jsstring) (skip : nat) (cur s : jsstring) :
  splitGo sep skip cur s <> [].
Proof.
  revert skip cur; induction s as [|x s IH]; intros skip cur; simpl.
  - discriminate.
  - destruct skip; [|apply IH].
    destruct (startsWith sep (x :: s)); [discriminate | apply IH].
Qed.

Lemma rev_not_nil {A : Type} (l : list A) : l <> [] -> rev l <> [].
Proof.
  intros H E. apply H. rewrite <- (rev_involutive l), E. reflexivity.
Qed.

(** ** Locating a change in the document *)

Section TextMatchingFacts.

Variable toLowerCase : jsstring -> jsstring.

Local Abbreviation mapBack := (mapBack toLowerCase).
Local Abbreviation fuzzyFindPosition := (fuzzyFindPosition toLowerCase).
Local Abbreviation findTextPosition := (findTextPosition toLowerCase).
Local Abbreviation mapChangesToDocument := (mapChangesToDocument toLowerCase).
Local Abbreviation normalizeText := (normalizeText toLowerCase).

Lemma charAt_in_range (s : jsstring) (i : nat) :
  i < length s -> exists c, charAt s i = Some c.
Proof.
  intros H. unfold charAt.
  destruct (nth_error s i) eqn:E; [eauto|].
  apply nth_error_None in E. lia.
Qed.

(** One fuel per code unit of [fullText] still ahead of [originalIndex] is
    enough for the loop: every iteration moves [originalIndex] one step
    towards [length fullText]. *)
Lemma mapBack_returns (fuel : nat) (fullText : jsstring)
    (index originalIndex normalizedIndex : Z) :
  (0 <= originalIndex)%Z ->
  (Z.of_nat (length fullText) - originalIndex <= Z.of_nat fuel)%Z ->
  exists r, mapBack fuel fullText index originalIndex normalizedIndex
            = Returns r
            /\ (originalIndex <= r)%Z
            /\ (r <= Z.of_nat (length fullText) \/ r = originalIndex)%Z.
Proof.
  revert originalIndex normalizedIndex.
  induction fuel as [|fuel IH]; intros oi ni Hpos Hfuel.
  - simpl.
    destruct ((ni <? index)%Z && (oi <? Z.of_nat (length fullText))%Z)
      eqn:G.
    + apply andb_true_iff in G as [_ G]. apply Z.ltb_lt in G. lia.
    + exists oi. repeat split; [lia | right; reflexivity].
  - simpl.
    destruct ((ni <? index)%Z && (oi <? Z.of_nat (length fullText))%Z)
      eqn:G.
    + apply andb_true_iff in G as [_ G]. apply Z.ltb_lt in G.
      destruct (@charAt_in_range fullText (Z.to_nat oi)) as [c Hc]; [lia|].
      rewrite Hc.
      match goal with
      | |- context [AIAnalysisService.mapBack _ fuel _ _ _ ?n] =>
          destruct (IH (oi + 1)%Z n) as (r & Hr & Hle & Hub); [lia | lia |]
      end.
      exists r. split; [exact Hr|]. split; [lia|]. left. lia.
    + exists oi. repeat split; [lia | right; reflexivity].
Qed.

(** Whatever the fuel, the loop reads [fullText] inside its bounds. *)
Lemma mapBack_no_throw (fuel : nat) (fullText : jsstring)
    (index originalIndex normalizedIndex : Z) (e : exn) :
  (0 <= originalIndex)%Z ->
  mapBack fuel fullText index originalIndex normalizedIndex <> Throws e.
Proof.
  revert originalIndex normalizedIndex.
  induction fuel as [|fuel IH]; intros oi ni Hpos; simpl;
    destruct ((ni <? index)%Z && (oi <? Z.of_nat (length fullText))%Z)
      eqn:G; try discriminate.
  apply andb_true_iff in G as [_ G]. apply Z.ltb_lt in G.
  destruct (@charAt_in_range fullText (Z.to_nat oi)) as [c Hc]; [lia|].
  rewrite Hc. apply IH. lia.
Qed.

Lemma mapBack_nonneg (fuel : nat) (fullText : jsstring)
    (index originalIndex normalizedIndex r : Z) :
  (0 <= originalIndex)%Z ->
  mapBack fuel fullText index originalIndex normalizedIndex = Returns r ->
  (0 <= r)%Z.
Proof.
  revert originalIndex normalizedIndex.
  induction fuel as [|fuel IH]; intros oi ni Hpos; simpl;
    destruct ((ni <? index)%Z && (oi <? Z.of_nat (length fullText))%Z)
      eqn:G; try discriminate; try (intros [= <-]; exact Hpos).
  destruct (charAt fullText (Z.to_nat oi)); [|discriminate].
  apply IH. lia.
Qed.

Lemma fuzzyFindPosition_returns (fuel : nat) (searchText fullText : jsstring) :
  length fullText <= fuel ->
  exists r, fuzzyFindPosition fuel searchText fullText = Returns r.
Proof.
  intros Hfuel. unfold AIAnalysisService.fuzzyFindPosition.
  destruct (negb _); [|eauto].
  destruct (@mapBack_returns fuel fullText
              (indexOf (normalizeText fullText) (normalizeText searchText))
              0 0) as (r & Hr & _); [lia | lia | eauto].
Qed.

Lemma fuzzyFindPosition_no_throw (fuel : nat) (searchText fullText : jsstring)
    (e : exn) :
  fuzzyFindPosition fuel searchText fullText <> Throws e.
Proof.
  unfold AIAnalysisService.fuzzyFindPosition.
  destruct (negb _); [|discriminate].
  apply mapBack_no_throw. lia.
Qed.

Lemma positionAt_returns (index : Z) (searchText fullText : jsstring) :
  exists p, positionAt index searchText fullText = Returns p
            /\ (index = (-1)%Z -> p = notFound)
            /\ (index <> (-1)%Z ->
                start p = index
                /\ end_ p = (index + Z.of_nat (length searchText))%Z).
Proof.
  unfold positionAt. destruct (index =? -1)%Z eqn:E.
  - apply Z.eqb_eq in E. exists notFound. repeat split; tauto.
  - apply Z.eqb_neq in E.
    destruct (rev (split (substring fullText 0 (Z.to_nat index)) LF))
      as [|lastLine rest] eqn:R.
    + exfalso. revert R. apply rev_not_nil, splitGo_not_nil.
    + eexists. split; [reflexivity|]. split; [tauto|]. simpl. auto.
Qed.

Lemma findTextPosition_unfold (fuel : nat) (searchText fullText : jsstring) :
  findTextPosition fuel searchText fullText =
  if negb (truthy searchText) then Returns notFound
  else
    index <- (if (indexOf fullText searchText =? -1)%Z
              then fuzzyFindPosition fuel searchText fullText
              else Returns (indexOf fullText searchText)) ;;
    positionAt index searchText fullText.
Proof. reflexivity. Qed.

Lemma findTextPosition_returns (fuel : nat) (searchText fullText : jsstring) :
  length fullText <= fuel ->
  exists p, findTextPosition fuel searchText fullText = Returns p.
Proof.
  intros Hfuel. rewrite findTextPosition_unfold.
  destruct (negb (truthy searchText)); [eauto|].
  destruct (indexOf fullText searchText =? -1)%Z.
  - destruct (@fuzzyFindPosition_returns fuel searchText fullText Hfuel)
      as [r ->].
    simpl. destruct (positionAt_returns r searchText fullText) as (p & -> & _).
    eauto.
  - simpl.
    destruct (positionAt_returns (indexOf fullText searchText)
                searchText fullText) as (p & -> & _).
    eauto.
Qed.

Lemma findTextPosition_no_throw (fuel : nat) (searchText fullText : jsstring)
    (e : exn) :
  findTextPosition fuel searchText fullText <> Throws e.
Proof.
  rewrite findTextPosition_unfold.
  destruct (negb (truthy searchText)); [discriminate|].
  destruct (indexOf fullText searchText =? -1)%Z.
  - destruct (fuzzyFindPosition fuel searchText fullText) as [r | e' |] eqn:F;
      simpl; try discriminate.
    + destruct (positionAt_returns r searchText fullText) as (p & -> & _).
      discriminate.
    + exfalso.
      exact (@fuzzyFindPosition_no_throw fuel searchText fullText e' F).
  - simpl.
    destruct (positionAt_returns (indexOf fullText searchText)
                searchText fullText) as (p & -> & _).
    discriminate.
Qed.

(** A non-empty text that occurs verbatim is placed at its first
    occurrence, whatever the fuel: the loop is not entered. *)
Lemma findTextPosition_exact (fuel : nat) (searchText fullText : jsstring)
    (i : nat) :
  searchText <> [] ->
  occursAt searchText fullText i ->
  exists p j,
    findTextPosition fuel searchText fullText = Returns p
    /\ firstOccurrence searchText fullText j
    /\ start p = Z.of_nat j
    /\ end_ p = (Z.of_nat j + Z.of_nat (length searchText))%Z.
Proof.
  intros Hne Hocc. rewrite findTextPosition_unfold.
  destruct searchText as [|x search]; [congruence|]. simpl negb. cbv iota.
  destruct (indexOf_found Hocc) as (j & Hfirst & Hidx).
  rewrite Hidx.
  replace (Z.of_nat j =? -1)%Z with false by (symmetry; apply Z.eqb_neq; lia).
  simpl bind.
  destruct (positionAt_returns (Z.of_nat j) (x :: search) fullText)
    as (p & Hp & _ & Hpos).
  destruct Hpos as [Hs He]; [lia|].
  exists p, j. auto.
Qed.

(** C1.  With fuel for the whole document, [mapChangesToDocument] returns
    one positioned change per suggested change, in order; and every
    change whose [originalText] is non-empty and occurs verbatim in the
    contract content gets [position.start] equal to the index of the first
    exact occurrence of [originalText] and [position.end] equal to
    [position.start] plus the length of [originalText]. *)
Theorem mapChangesToDocument_first_occurrence (fuel : nat)
    (changes : list ChangeData) (contractContent : jsstring) :
  length contractContent <= fuel ->
  exists mapped,
    mapChangesToDocument fuel changes contractContent = Returns mapped
    /\ Forall2
         (fun c sc =>
            change sc = c
            /\ forall s i,
                 originalText c = Some s ->
                 s <> [] ->
                 occursAt s contractContent i ->
                 exists j,
                   firstOccurrence s contractContent j
                   /\ start (position sc) = Z.of_nat j
                   /\ end_ (position sc)
                      = (start (position sc) + Z.of_nat (length s))%Z)
         changes mapped.
Proof.
  intros Hfuel. induction changes as [|c cs IH].
  - exists []. split; [reflexivity | constructor].
  - destruct IH as (mapped & Hm & Hall).
    destruct (@findTextPosition_returns fuel (searchTextOf c)
                contractContent Hfuel) as [p Hp].
    exists ({| change := c; position := p |} :: mapped). split.
    + unfold AIAnalysisService.mapChangesToDocument in *. simpl.
      rewrite Hp. simpl. rewrite Hm. reflexivity.
    + constructor; [|exact Hall]. split; [reflexivity|].
      intros s i Hs Hne Hocc. simpl.
      destruct (@findTextPosition_exact fuel s contractContent i Hne Hocc)
        as (p' & j & Hp' & Hfirst & Hstart & Hend).
      unfold searchTextOf in Hp. rewrite Hs in Hp.
      rewrite Hp in Hp'. injection Hp' as <-.
      exists j. rewrite Hstart. auto.
Qed.

(** C6.  With one unit of fuel per code unit of [fullText],
    [findTextPosition] returns a [TextPosition] for every [searchText].
    In particular the back-mapping loop of the fuzzy fallback returns: from
    any state it needs at most as many iterations as there are code units
    of [fullText] ahead of [originalIndex], and it leaves [originalIndex]
    no smaller than it was and, once moved, no larger than the length of
    [fullText]. *)
Theorem findTextPosition_terminates (fuel : nat)
    (searchText fullText : jsstring) :
  length fullText <= fuel ->
  (exists p, findTextPosition fuel searchText fullText = Returns p)
  /\ forall (n : nat) (index originalIndex normalizedIndex : Z),
       (0 <= originalIndex)%Z ->
       (Z.of_nat (length fullText) - originalIndex <= Z.of_nat n)%Z ->
       exists r,
         mapBack n fullText index originalIndex normalizedIndex = Returns r
         /\ (originalIndex <= r)%Z
         /\ (r <= Z.of_nat (length fullText) \/ r = originalIndex)%Z.
Proof.
  intros Hfuel. split.
  - apply findTextPosition_returns; exact Hfuel.
  - intros n index oi ni Hpos Hn. apply mapBack_returns; assumption.
Qed.

(** C8.  [findTextPosition] never throws, and it returns the same sentinel
    [{start: 0, end: 0}] when [searchText] is empty as when [searchText]
    occurs neither verbatim in [fullText] nor, normalized, in the
    normalized [fullText]: the result does not tell an unlocatable text
    from an empty one placed at the start of the document. *)
Theorem findTextPosition_sentinel (fuel : nat)
    (searchText fullText : jsstring) :
  searchText = []
  \/ (indexOf fullText searchText = (-1)%Z
      /\ indexOf (normalizeText fullText) (normalizeText searchText)
         = (-1)%Z) ->
  findTextPosition fuel searchText fullText = Returns notFound
  /\ findTextPosition fuel [] fullText = Returns notFound
  /\ start notFound = 0%Z /\ end_ notFound = 0%Z
  /\ forall n s t e, findTextPosition n s t <> Throws e.
Proof.
  intros H.
  assert (Hempty : findTextPosition fuel [] fullText = Returns notFound)
    by reflexivity.
  split; [|split; [exact Hempty|]].
  - destruct H as [-> | [Hexact Hfuzzy]]; [exact Hempty|].
    rewrite findTextPosition_unfold.
    destruct (negb (truthy searchText)); [reflexivity|].
    rewrite Hexact. simpl.
    unfold AIAnalysisService.fuzzyFindPosition. rewrite Hfuzzy.
    reflexivity.
  - repeat split. intros n s t e. apply findTextPosition_no_throw.
Qed.

Lemma mapBack_range (fuel : nat) (fullText : jsstring)
    (index originalIndex normalizedIndex r : Z) :
  (0 <= originalIndex)%Z ->
  mapBack fuel fullText index originalIndex normalizedIndex = Returns r ->
  (originalIndex <= r)%Z
  /\ (r <= Z.of_nat (length fullText) \/ r = originalIndex)%Z.
Proof.
  revert originalIndex normalizedIndex.
  induction fuel as [|fuel IH]; intros oi ni Hpos; simpl;
    destruct ((ni <? index)%Z && (oi <? Z.of_nat (length fullText))%Z)
      eqn:G; try discriminate; try (intros [= <-]; lia).
  apply andb_true_iff in G as [_ G]. apply Z.ltb_lt in G.
  destruct (charAt fullText (Z.to_nat oi)); [|discriminate].
  intros H. apply IH in H; lia.
Qed.

Lemma occursAt_bound (search s : jsstring) (i : nat) :
  occursAt search s i -> i + length search <= length s.
Proof.
  intros (pre & post & -> & <-). rewrite !length_app. lia.
Qed.

(** X2.  Whatever [findTextPosition] returns starts inside the document:
    [0 <= start <= length fullText]. *)
Theorem findTextPosition_start_in_document (fuel : nat)
    (searchText fullText : jsstring) (p : TextPosition) :
  findTextPosition fuel searchText fullText = Returns p ->
  (0 <= start p <= Z.of_nat (length fullText))%Z.
Proof.
  rewrite findTextPosition_unfold.
  destruct (negb (truthy searchText)); [intros [= <-]; simpl; lia|].
  assert (Hpos : forall index,
             (index = -1 \/ 0 <= index <= Z.of_nat (length fullText))%Z ->
             positionAt index searchText fullText = Returns p ->
             (0 <= start p <= Z.of_nat (length fullText))%Z).
  { intros index Hidx Hp.
    destruct (positionAt_returns index searchText fullText)
      as (p' & Hp' & Hnot & Hat).
    rewrite Hp in Hp'. injection Hp' as <-.
    destruct (Z.eq_dec index (-1)) as [E | E].
    - rewrite (Hnot E). simpl. lia.
    - destruct (Hat E) as [-> _]. lia. }
  destruct (indexOf fullText searchText =? -1)%Z eqn:E.
  - destruct (fuzzyFindPosition fuel searchText fullText) as [r | |] eqn:F;
      simpl; try discriminate.
    apply Hpos. unfold AIAnalysisService.fuzzyFindPosition in F.
    destruct (negb _); [|injection F as <-; left; reflexivity].
    apply mapBack_range in F; lia.
  - simpl. apply Hpos. apply Z.eqb_neq in E. right.
    unfold indexOf in *.
    destruct (indexOfFrom_cases searchText fullText 0)
      as [[Hm _] | (j & Hj & [Hocc _])]; [congruence|].
    apply occursAt_bound in Hocc. lia.
Qed.

End TextMatchingFacts.

Lemma mapChangesToDocument_first_occurrence_witness :
  exists mapped,
    mapChangesToDocument asciiToLowerCase 5 [sampleChange] (js "a b c")
    = Returns mapped
    /\ Forall2
         (fun c sc =>
            change sc = c
            /\ forall s i,
                 originalText c = Some s ->
                 s <> [] ->
                 occursAt s (js "a b c") i ->
                 exists j,
                   firstOccurrence s (js "a b c") j
                   /\ start (position sc) = Z.of_nat j
                   /\ end_ (position sc)
                      = (start (position sc) + Z.of_nat (length s))%Z)
         [sampleChange] mapped.
Proof.
  apply (@mapChangesToDocument_first_occurrence asciiToLowerCase 5
           [sampleChange] (js "a b c")).
  apply le_n.
Defined.

Lemma findTextPosition_terminates_witness :
  exists p, findTextPosition asciiToLowerCase 5 (js "B C") (js "a b c")
            = Returns p.
Proof.
  apply (@findTextPosition_terminates asciiToLowerCase 5 (js "B C")
           (js "a b c")).
  apply le_n.
Defined.

Lemma findTextPosition_sentinel_witness :
  findTextPosition asciiToLowerCase 2 (js "x") (js " b") = Returns notFound.
Proof.
  apply (@findTextPosition_sentinel asciiToLowerCase 2 (js "x") (js " b")).
  right. split; reflexivity.
Defined.

Lemma findTextPosition_start_in_document_witness :
  (0 <= 3 <= Z.of_nat (length (js "a b c")))%Z.
Proof.
  apply (@findTextPosition_start_in_document asciiToLowerCase 5 (js "B C")
           (js "a b c")
           {| start := 3; end_ := 6;
              line := Some 1%Z; column := Some 4%Z |}).
  vm_compute. reflexivity.
Defined.

(** C2.  The fuzzy fallback on [searchText = "B C"] and
    [fullText = "a b c"].  There is no verbatim occurrence; the normalized
    search text [b c] occurs in the normalized full text at index 2, and
    the passage of the original text that normalizes to it, [b c], begins
    at index 2 as well.  The back-mapping loop answers 3: a white-space
    code unit normalizes to the empty string and adds nothing to
    [normalizedIndex], although the white-space run it belongs to counts
    for one code unit in the normalized text. *)
Theorem fuzzy_position_off_by_whitespace :
  indexOf (js "a b c") (js "B C") = (-1)%Z
  /\ normalizeText asciiToLowerCase (js "B C") = js "b c"
  /\ indexOf (normalizeText asciiToLowerCase (js "a b c"))
       (normalizeText asciiToLowerCase (js "B C")) = 2%Z
  /\ normalizeText asciiToLowerCase (substring (js "a b c") 2 5)
     = normalizeText asciiToLowerCase (js "B C")
  /\ findTextPosition asciiToLowerCase 5 (js "B C") (js "a b c")
     = Returns {| start := 3; end_ := 6;
                  line := Some 1%Z; column := Some 4%Z |}
  /\ substring (js "a b c") 3 6 = js " c".
Proof. repeat split; vm_compute; reflexivity. Qed.

(** ** The rules listed in the analysis prompt *)

Section SortBy.

Variable A : Type.
Variable cmp : A -> A -> Z.

Hypothesis before_total : forall a b, before cmp a b \/ before cmp b a.
Hypothesis before_trans :
  forall a b c, before cmp a b -> before cmp b c -> before cmp a c.

Lemma insertBy_perm (x : A) (l : list A) :
  Permutation (insertBy cmp x l) (x :: l).
Proof.
  induction l as [|y l IH]; simpl.
  - apply Permutation_refl.
  - destruct (cmp x y <=? 0)%Z.
    + apply Permutation_refl.
    + eapply perm_trans; [apply perm_skip, IH | apply perm_swap].
Qed.

Lemma sortBy_perm (l : list A) : Permutation (sortBy cmp l) l.
Proof.
  induction l as [|x l IH]; simpl.
  - constructor.
  - eapply perm_trans; [apply insertBy_perm | apply perm_skip, IH].
Qed.

Lemma insertBy_sorted (x : A) (l : list A) :
  StronglySorted (before cmp) l ->
  StronglySorted (before cmp) (insertBy cmp x l).
Proof using before_total before_trans.
  induction 1 as [|y l Hs IH Hy]; simpl.
  - repeat constructor.
  - destruct (cmp x y <=? 0)%Z eqn:E.
    + apply Z.leb_le in E. constructor.
      * constructor; assumption.
      * constructor; [exact E|].
        eapply Forall_impl; [|exact Hy]. intros z Hz.
        exact (before_trans E Hz).
    + apply Z.leb_gt in E. constructor; [exact IH|].
      assert (Hyx : before cmp y x).
      { destruct (before_total x y) as [H | H]; [unfold before in H; lia|].
        exact H. }
      apply (Permutation_Forall (Permutation_sym (insertBy_perm x l))).
      constructor; assumption.
Qed.

Lemma sortBy_sorted (l : list A) :
  StronglySorted (before cmp) (sortBy cmp l).
Proof using before_total before_trans.
  induction l as [|x l IH]; simpl.
  - constructor.
  - apply insertBy_sorted, IH.
Qed.

End SortBy.

Lemma severityOrder_rank (s : Severity) :
  severityOrder s = Z.of_nat (severityRank s).
Proof. destruct s; reflexivity. Qed.

Lemma severityRank_inj (s t : Severity) :
  severityRank s = severityRank t -> s = t.
Proof. destruct s, t; simpl; congruence. Qed.

Lemma before_compareRules (a b : Rule) :
  before compareRules a b <-> listedBefore a b.
Proof.
  unfold before, compareRules, listedBefore.
  rewrite !severityOrder_rank.
  destruct (Z.of_nat (severityRank (rule_severity a))
            - Z.of_nat (severityRank (rule_severity b)) =? 0)%Z eqn:E; simpl.
  - apply Z.eqb_eq in E. split.
    + intros H. right. split; [apply severityRank_inj; lia | lia].
    + intros [H | [_ H]]; lia.
  - apply Z.eqb_neq in E. split.
    + intros H. left. lia.
    + intros [H | [H _]]; [lia|]. rewrite H in E. lia.
Qed.

Ltac zeqb_cases :=
  repeat match goal with
         | |- context [(?x =? ?y)%Z] =>
             let E := fresh "E" in
             destruct (x =? y)%Z eqn:E; simpl;
             [apply Z.eqb_eq in E | apply Z.eqb_neq in E]
         end.

Lemma compareRules_total (a b : Rule) :
  before compareRules a b \/ before compareRules b a.
Proof.
  unfold before, compareRules.
  zeqb_cases; lia.
Qed.

Lemma compareRules_trans (a b c : Rule) :
  before compareRules a b -> before compareRules b c ->
  before compareRules a c.
Proof.
  unfold before, compareRules.
  zeqb_cases; lia.
Qed.

Lemma StronglySorted_weaken {A : Type} (R R' : A -> A -> Prop) (l : list A) :
  (forall a b, R a b -> R' a b) ->
  StronglySorted R l -> StronglySorted R' l.
Proof.
  intros Himp. induction 1 as [|x l Hs IH Hx]; constructor; [exact IH|].
  eapply Forall_impl; [|exact Hx]. intros z; apply Himp.
Qed.

Lemma ruleText_entry (index : nat) (rule : Rule) :
  ruleEntry (S index) rule (ruleText index rule).
Proof.
  exists (if truthyOpt (preferredLanguage rule)
          then js "Preferred Language/Format:" ++ LF
               ++ match preferredLanguage rule with
                  | Some s => s
                  | None => []
                  end
               ++ LF
          else []).
  split.
  - unfold ruleText. rewrite Nat.add_1_r. reflexivity.
  - destruct (preferredLanguage rule) as [[|x s]|]; reflexivity.
Qed.

Lemma rulesText_entries (rs : list Rule) :
  forall index, Entries (S index) rs (rulesText index rs).
Proof.
  induction rs as [|rule rs IH]; intros index; cbn [rulesText].
  - constructor.
  - constructor; [apply ruleText_entry | apply IH].
Qed.

(** Each rule of a listing has its entry in the text. *)
Lemma Entries_part (n : nat) (rs : list Rule) (text : jsstring) (r : Rule) :
  Entries n rs text ->
  In r rs ->
  exists m entry, n <= m < n + length rs
                  /\ ruleEntry m r entry /\ partOf entry text.
Proof.
  induction 1 as [n | n rule rs entry text He _ IH]; intros Hin;
    [destruct Hin|].
  destruct Hin as [-> | Hin].
  - exists n, entry. split; [simpl; lia|]. split; [exact He|].
    exists [], text. reflexivity.
  - destruct (IH Hin) as (m & e & Hm & Hr & pre & post & ->).
    exists m, e. split; [simpl; lia|]. split; [exact Hr|].
    exists (entry ++ pre), post. rewrite <- app_assoc. reflexivity.
Qed.

(** C7.  For every playbook, the prompt is the header, a listing and the
    footer, where the listing is made of the entries of the rules of
    [sortedRules], in this order, numbered from 1, and of nothing else:
    each entry shows the number, the name, the id, the type, the severity
    and the instructions of its rule.  So every rule of the playbook with
    [isActive] true has its entry in the prompt, under a number between 1
    and the number of listed rules.  [sortedRules] holds exactly the
    playbook's rules with [isActive] true (each as often as the playbook
    has it) and no rule with [isActive] false; and every rule listed
    earlier has an earlier severity in the order CRITICAL, HIGH, MEDIUM,
    LOW, INFO than every rule listed later, or the same severity and an
    [orderIndex] that is not larger. *)
Theorem buildAnalysisPrompt_active_rules_in_order
    (contractContent : jsstring) (playbook : Playbook) :
  (exists listing,
     buildAnalysisPrompt contractContent playbook
     = promptHeader contractContent playbook ++ listing ++ promptFooter
     /\ Entries 1 (sortedRules playbook) listing)
  /\ (forall r,
        In r (rules playbook) -> isActive r = true ->
        exists n entry,
          1 <= n <= length (sortedRules playbook)
          /\ ruleEntry n r entry
          /\ partOf entry (buildAnalysisPrompt contractContent playbook))
  /\ Permutation (sortedRules playbook) (filter isActive (rules playbook))
  /\ (forall r, In r (sortedRules playbook)
                <-> In r (rules playbook) /\ isActive r = true)
  /\ StronglySorted listedBefore (sortedRules playbook).
Proof.
  assert (Hperm : Permutation (sortedRules playbook)
                    (filter isActive (rules playbook)))
    by apply sortBy_perm.
  assert (Hin : forall r, In r (sortedRules playbook)
                          <-> In r (rules playbook) /\ isActive r = true).
  { intros r. rewrite <- filter_In. split.
    - apply Permutation_in; exact Hperm.
    - apply Permutation_in, Permutation_sym; exact Hperm. }
  pose proof (rulesText_entries (sortedRules playbook) 0) as Hentries.
  split; [|split; [|split; [exact Hperm|split; [exact Hin|]]]].
  - exists (rulesText 0 (sortedRules playbook)).
    split; [reflexivity | exact Hentries].
  - intros r Hr Hactive.
    destruct (@Entries_part 1 (sortedRules playbook) _ r Hentries
                (proj2 (Hin r) (conj Hr Hactive)))
      as (n & entry & Hn & He & pre & post & Htext).
    exists n, entry. split; [lia|]. split; [exact He|].
    exists (promptHeader contractContent playbook ++ pre),
           (post ++ promptFooter).
    unfold buildAnalysisPrompt. rewrite Htext, <- !app_assoc. reflexivity.
  - apply StronglySorted_weaken with (R := before compareRules).
    + intros a b. apply before_compareRules.
    + apply sortBy_sorted;
        [exact compareRules_total | exact compareRules_trans].
Qed.

(** ** Plain text to editor state and back *)

Lemma join_cons (sep p : jsstring) (rest : list jsstring) :
  rest <> [] -> join sep (p :: rest) = p ++ sep ++ join sep rest.
Proof. destruct rest; [congruence | reflexivity]. Qed.



Lemma trimStart_nil_iff (s : jsstring) :
  trimStart s = [] <-> isBlank s = true.
Proof.
  induction s as [|x s IH]; simpl; [tauto|].
  destruct (isWhiteSpace x); simpl; [exact IH|].
  split; discriminate.
Qed.

Lemma trimStart_blank (s : jsstring) :
  isBlank (trimStart s) = true -> trimStart s = [].
Proof.
  induction s as [|x s IH]; simpl; [reflexivity|].
  destruct (isWhiteSpace x) eqn:E; [exact IH|].
  simpl. rewrite E. discriminate.
Qed.

Lemma isBlank_rev (s : jsstring) : isBlank (rev s) = isBlank s.
Proof.
  unfold isBlank. induction s as [|x s IH]; [reflexivity|].
  simpl. rewrite forallb_app, IH. simpl.
  rewrite andb_true_r. apply andb_comm.
Qed.

Lemma trim_nil_iff (s : jsstring) : trim s = [] <-> isBlank s = true.
Proof.
  unfold trim, trimEnd. rewrite <- trimStart_nil_iff. split.
  - intros H.
    assert (H' : trimStart (rev (trimStart s)) = []).
    { rewrite <- (rev_involutive (trimStart _)), H. reflexivity. }
    apply trimStart_nil_iff in H'. rewrite isBlank_rev in H'.
    apply trimStart_blank; exact H'.
  - intros ->. reflexivity.
Qed.

Lemma truthy_trim (s : jsstring) : truthy (trim s) = negb (isBlank s).
Proof.
  destruct (isBlank s) eqn:E.
  - apply trim_nil_iff in E. rewrite E. reflexivity.
  - destruct (trim s) eqn:T; [|reflexivity].
    apply trim_nil_iff in T. congruence.
Qed.

Lemma extractText_paragraph (t : jsstring) :
  extractText (paragraphNode [textNode t]) = t.
Proof. reflexivity. Qed.

Lemma trimmed_paragraphs_kept (ps : list jsstring) :
  (forall p, In p ps -> p <> [] /\ trim p = p) ->
  map trim (filter (fun p => negb (isBlank p)) ps) = ps.
Proof.
  induction ps as [|p ps IH]; intros Hpar; [reflexivity|].
  destruct (Hpar p (or_introl eq_refl)) as [Hne Htrim].
  simpl. rewrite <- truthy_trim, Htrim.
  destruct p as [|x p]; [congruence|]. simpl.
  rewrite Htrim. f_equal. apply IH.
  intros q Hq. apply Hpar. right; exact Hq.
Qed.

Lemma trimStart_head (s : jsstring) (x : char) (t : jsstring) :
  trimStart s = x :: t -> isWhiteSpace x = false.
Proof.
  induction s as [|y s IH]; simpl; [discriminate|].
  destruct (isWhiteSpace y) eqn:E; [exact IH|].
  intros [= <- _]. exact E.
Qed.

Lemma quiet_tail (x : char) (p : jsstring) : quiet (x :: p) -> quiet p.
Proof.
  intros [Hbreak Hend]. split.
  - intros a b ->. apply (Hbreak (x :: a) b). reflexivity.
  - intros t ->. apply (Hend (x :: t)). reflexivity.
Qed.

Lemma isParagraph_quiet (p : jsstring) : isParagraph p -> quiet p.
Proof.
  intros (Hne & Htrim & Hbreak). split; [exact Hbreak|].
  intros t ->. unfold trim, trimEnd in Htrim.
  apply (f_equal (@rev char)) in Htrim.
  rewrite rev_involutive, rev_app_distr in Htrim. simpl in Htrim.
  apply trimStart_head in Htrim. discriminate.
Qed.

(** A quiet piece before a paragraph break is a piece of the split. *)
Lemma splitGo_piece (p : jsstring) :
  forall cur rest,
    quiet p ->
    splitGo paragraphBreak 0 cur (p ++ paragraphBreak ++ rest)
    = (rev cur ++ p) :: splitGo paragraphBreak 0 [] rest.
Proof.
  induction p as [|x p IH]; intros cur rest Hq.
  - simpl. rewrite app_nil_r. reflexivity.
  - assert (Hno : startsWith paragraphBreak
                    ((x :: p) ++ paragraphBreak ++ rest) = false).
    { destruct (startsWith _ _) eqn:E; [|reflexivity]. exfalso.
      apply startsWith_true_iff in E as [t Ht].
      destruct Hq as [Hbreak Hend].
      destruct p as [|y p]; cbn in Ht.
      - injection Ht as -> _. apply (Hend []). reflexivity.
      - injection Ht as -> -> _. apply (Hbreak [] p). reflexivity. }
    change ((x :: p) ++ paragraphBreak ++ rest)
      with (x :: (p ++ paragraphBreak ++ rest)) in *.
    cbn [splitGo]. rewrite Hno.
    rewrite IH by (eapply quiet_tail; exact Hq).
    simpl. rewrite <- app_assoc. reflexivity.
Qed.

(** A quiet text is a single piece. *)
Lemma splitGo_last (p : jsstring) :
  forall cur,
    quiet p -> splitGo paragraphBreak 0 cur p = [rev cur ++ p].
Proof.
  induction p as [|x p IH]; intros cur Hq.
  - simpl. rewrite app_nil_r. reflexivity.
  - assert (Hno : startsWith paragraphBreak (x :: p) = false).
    { destruct (startsWith _ _) eqn:E; [|reflexivity]. exfalso.
      apply startsWith_true_iff in E as [t Ht].
      destruct Hq as [Hbreak _]. apply (Hbreak [] t). exact Ht. }
    cbn [splitGo]. rewrite Hno.
    rewrite IH by (eapply quiet_tail; exact Hq).
    simpl. rewrite <- app_assoc. reflexivity.
Qed.

(** Splitting a join of paragraphs gives the paragraphs back. *)
Lemma split_join_paragraphs (ps : list jsstring) :
  ps <> [] ->
  Forall isParagraph ps ->
  split (join paragraphBreak ps) paragraphBreak = ps.
Proof.
  intros Hne Hall. induction Hall as [|p ps Hp Hps IH]; [congruence|].
  apply isParagraph_quiet in Hp. unfold split in *.
  destruct ps as [|q ps].
  - simpl. apply (splitGo_last [] Hp).
  - rewrite join_cons by discriminate.
    rewrite (splitGo_piece [] _ Hp). simpl. f_equal.
    apply IH. discriminate.
Qed.



(** ** Regular expressions: what a match means *)

Lemma rmatch_Star (r : regex) (prev : option char) (s : jsstring)
    (c : capture) (k : cont) :
  rmatch (Star r) prev s c k = starLoop (rmatch r) k (length s) prev s c.
Proof. reflexivity. Qed.

(** Whatever the matcher finds is a match. *)
Lemma rmatch_sound (r : regex) :
  forall prev s c (k : cont) res,
    rmatch r prev s c k = Some res ->
    exists prev' s' c',
      Matches r prev s c prev' s' c' /\ k prev' s' c' = Some res.
Proof.
  induction r as [|p|r1 IH1 r2 IH2|r1 IH1 r2 IH2|r IH|r IH|];
    intros prev s c k res H.
  - simpl in H. exists prev, s, c. split; [constructor | exact H].
  - simpl in H. destruct s as [|x s]; [discriminate|].
    destruct (p x) eqn:E; [|discriminate].
    exists (Some x), s, c. split; [constructor; exact E | exact H].
  - simpl in H. apply IH1 in H as (p1 & s1 & c1 & M1 & H).
    apply IH2 in H as (p2 & s2 & c2 & M2 & H).
    exists p2, s2, c2. split; [econstructor; eassumption | exact H].
  - simpl in H. destruct (rmatch r1 prev s c k) as [res1|] eqn:E.
    + injection H as ->. apply IH1 in E as (p1 & s1 & c1 & M1 & E).
      exists p1, s1, c1. split; [apply M_AltL; exact M1 | exact E].
    + apply IH2 in H as (p1 & s1 & c1 & M1 & H).
      exists p1, s1, c1. split; [apply M_AltR; exact M1 | exact H].
  - rewrite rmatch_Star in H.
    remember (length s) as fuel eqn:Hfuel. clear Hfuel.
    revert prev s c H.
    induction fuel as [|fuel IHf]; intros prev s c H; simpl in H.
    + exists prev, s, c. split; [constructor | exact H].
    + match type of H with
      | match ?m with _ => _ end = _ => destruct m as [res1|] eqn:E
      end.
      * injection H as ->. apply IH in E as (p1 & s1 & c1 & M1 & E).
        destruct (length s1 <? length s) eqn:L; [|discriminate].
        apply Nat.ltb_lt in L.
        apply IHf in E as (p2 & s2 & c2 & M2 & E).
        exists p2, s2, c2. split; [|exact E].
        eapply M_StarS; eassumption.
      * exists prev, s, c. split; [constructor | exact H].
  - simpl in H. apply IH in H as (p1 & s1 & c1 & M1 & H).
    exists p1, s1, (Some (firstn (length s - length s1) s)).
    split; [eapply M_Group; exact M1 | exact H].
  - simpl in H.
    destruct (xorb (isWordOpt prev) (isWordOpt (hd_error s))) eqn:E;
      [|discriminate].
    exists prev, s, c. split; [constructor; exact E | exact H].
Qed.

(** A match consumes a prefix of the input, a text of the pattern's
    language, and leaves the last code unit it consumed before the
    position. *)
Lemma Matches_InLang r prev s c prev' s' c' :
  Matches r prev s c prev' s' c' ->
  exists m, s = m ++ s' /\ InLang r m /\ prev' = lastOr prev m.
Proof.
  induction 1 as
    [prev s c | p prev x s c Hp
    | r1 r2 prev s c prev1 s1 c1 prev2 s2 c2 _ IH1 _ IH2
    | r1 r2 prev s c prev1 s1 c1 _ IH | r1 r2 prev s c prev1 s1 c1 _ IH
    | r prev s c
    | r prev s c prev1 s1 c1 prev2 s2 c2 _ IH1 _ _ IH2
    | r prev s c prev1 s1 c1 _ IH | prev s c Hb].
  - exists []. repeat split; constructor.
  - exists [x]. repeat split. constructor; exact Hp.
  - destruct IH1 as (m1 & -> & L1 & ->), IH2 as (m2 & -> & L2 & ->).
    exists (m1 ++ m2). rewrite app_assoc. repeat split.
    + constructor; assumption.
    + unfold lastOr. rewrite rev_app_distr.
      destruct (rev m2); [rewrite app_nil_l|]; reflexivity.
  - destruct IH as (m & -> & L & ->). exists m.
    repeat split. apply L_AltL; exact L.
  - destruct IH as (m & -> & L & ->). exists m.
    repeat split. apply L_AltR; exact L.
  - exists []. repeat split; constructor.
  - destruct IH1 as (m1 & -> & L1 & ->), IH2 as (m2 & -> & L2 & ->).
    exists (m1 ++ m2). rewrite app_assoc. repeat split.
    + constructor; assumption.
    + unfold lastOr. rewrite rev_app_distr.
      destruct (rev m2); [rewrite app_nil_l|]; reflexivity.
  - destruct IH as (m & -> & L & ->). exists m.
    repeat split. constructor; exact L.
  - exists []. repeat split; constructor.
Qed.

Lemma firstn_consumed {A : Type} (m s' : list A) :
  firstn (length (m ++ s') - length s') (m ++ s') = m.
Proof.
  rewrite length_app, Nat.add_sub.
  rewrite firstn_app, Nat.sub_diag, firstn_all. simpl.
  apply app_nil_r.
Qed.

(** What [matchHere] returns, read as a match. *)
Lemma matchHere_sound (r : regex) (prev : option char) (s s' : jsstring)
    (c : capture) :
  matchHere r prev s = Some (s', c) ->
  exists prev' m,
    Matches r prev s None prev' s' c
    /\ s = m ++ s' /\ InLang r m
    /\ firstn (length s - length s') s = m.
Proof.
  unfold matchHere. intros H.
  apply rmatch_sound in H as (p1 & s1 & c1 & M & H).
  injection H as -> ->.
  destruct (Matches_InLang M) as (m & Hs & L & _).
  exists p1, m. repeat split; try assumption.
  subst s. apply firstn_consumed.
Qed.

Lemma exec_unfold (r : regex) (prev : option char) (s : jsstring) :
  exec r prev s =
  match matchHere r prev s with
  | Some (s', c) =>
      Some {| f_before := []; f_match := firstn (length s - length s') s;
              f_group := c; f_rest := s' |}
  | None =>
      match s with
      | [] => None
      | x :: t =>
          match exec r (Some x) t with
          | Some f =>
              Some {| f_before := x :: f_before f; f_match := f_match f;
                      f_group := f_group f; f_rest := f_rest f |}
          | None => None
          end
      end
  end.
Proof. destruct s; reflexivity. Qed.

(** What [exec] finds: a decomposition of the input around a match. *)
Lemma exec_sound (r : regex) (s : jsstring) :
  forall prev f,
    exec r prev s = Some f ->
    s = f_before f ++ f_match f ++ f_rest f
    /\ InLang r (f_match f)
    /\ exists prev',
         Matches r (lastOr prev (f_before f)) (f_match f ++ f_rest f) None
           prev' (f_rest f) (f_group f).
Proof.
  induction s as [|x s IH]; intros prev f H; rewrite exec_unfold in H;
    destruct (matchHere r prev _) as [[s' c]|] eqn:E;
    try discriminate.
  - injection H as <-. cbn [f_before f_match f_rest f_group].
    apply matchHere_sound in E as (p1 & m & M & Hs & L & _).
    symmetry in Hs. apply app_eq_nil in Hs as [-> ->].
    repeat split; try assumption. exists p1. exact M.
  - apply matchHere_sound in E as (p1 & m & M & Hs & L & Hm).
    rewrite Hm in H. injection H as <-.
    cbn [f_before f_match f_rest f_group].
    repeat split; try assumption.
    exists p1. rewrite <- Hs. exact M.
  - destruct (exec r (Some x) s) as [f'|] eqn:E'; [|discriminate].
    injection H as <-. cbn [f_before f_match f_rest f_group].
    destruct (IH _ _ E') as (Hs & L & p1 & M).
    repeat split; try assumption.
    + simpl. f_equal. exact Hs.
    + exists p1.
      replace (lastOr prev (x :: f_before f'))
        with (lastOr (Some x) (f_before f')); [exact M|].
      unfold lastOr. simpl.
      destruct (rev (f_before f')); reflexivity.
Qed.

(** ** Comparing numbers *)

Lemma SFcompare_antisym (x y : spec_float) (c : comparison) :
  SFcompare x y = Some c -> SFcompare y x = Some (CompOpp c).
Proof.
  destruct x as [sx | sx | | sx mx ex], y as [sy | sy | | sy my ey];
    simpl; try discriminate;
    try (destruct sx; intros [= <-]; reflexivity);
    try (destruct sy; intros [= <-]; reflexivity);
    try (destruct sx, sy; intros [= <-]; reflexivity).
  intros [= <-]. f_equal.
  assert (Hm : Pos.compare_cont Eq my mx
               = CompOpp (Pos.compare_cont Eq mx my))
    by (rewrite (Pos.compare_cont_antisym mx my Eq); reflexivity).
  destruct sx, sy; simpl; try reflexivity;
    rewrite (Z.compare_antisym ex ey);
    destruct (ex ?= ey)%Z; simpl; try reflexivity;
    rewrite Hm; destruct (Pos.compare_cont Eq mx my); reflexivity.
Qed.

Lemma SFcompare_refl (x : spec_float) :
  x <> S754_nan -> SFcompare x x = Some Eq.
Proof.
  destruct x as [s | s | | s m e]; intros H; try congruence;
    destruct s; simpl; rewrite ?Z.compare_refl, ?Pos.compare_cont_refl;
    reflexivity.
Qed.

Lemma SFcompare_defined (x y : spec_float) :
  x <> S754_nan -> y <> S754_nan -> exists c, SFcompare x y = Some c.
Proof.
  destruct x, y; simpl; intros Hx Hy; try congruence; eauto.
Qed.

Lemma is_nan_false_iff (x : float) :
  is_nan x = false <-> Prim2SF x <> S754_nan.
Proof.
  unfold is_nan. rewrite negb_false_iff, eqb_spec. unfold SFeqb. split.
  - intros H E. rewrite E in H. discriminate.
  - intros H. rewrite (@SFcompare_refl _ H). reflexivity.
Qed.

Lemma ltb_leb (x y : float) :
  (x <? y)%float = true -> (x <=? y)%float = true.
Proof.
  rewrite ltb_spec, leb_spec. unfold SFltb, SFleb.
  destruct (SFcompare _ _) as [[]|]; auto.
Qed.

Lemma ltb_not_leb (x y : float) :
  (x <? y)%float = true -> (y <=? x)%float = false.
Proof.
  rewrite ltb_spec, leb_spec. unfold SFltb, SFleb.
  destruct (SFcompare (Prim2SF x) (Prim2SF y)) as [c|] eqn:E;
    [|discriminate].
  rewrite (@SFcompare_antisym _ _ _ E). destruct c; simpl; auto.
Qed.

Lemma not_ltb_leb (x y : float) :
  is_nan x = false -> is_nan y = false ->
  (x <? y)%float = false -> (y <=? x)%float = true.
Proof.
  rewrite !is_nan_false_iff. intros Hx Hy.
  rewrite ltb_spec, leb_spec. unfold SFltb, SFleb.
  destruct (@SFcompare_defined _ _ Hx Hy) as [c Hc].
  rewrite Hc, (@SFcompare_antisym _ _ _ Hc). destruct c; simpl; auto.
Qed.

Lemma leb_not_nan (x y : float) :
  (x <=? y)%float = true -> is_nan x = false /\ is_nan y = false.
Proof.
  rewrite leb_spec, !is_nan_false_iff. unfold SFleb.
  destruct (Prim2SF x), (Prim2SF y); simpl; try discriminate;
    intros _; split; discriminate.
Qed.

Lemma leb_not_ltb_eqb (x y : float) :
  (x <=? y)%float = true -> (x <? y)%float = false ->
  (x =? y)%float = true.
Proof.
  rewrite leb_spec, ltb_spec, eqb_spec. unfold SFleb, SFltb, SFeqb.
  destruct (SFcompare _ _) as [[]|]; auto.
Qed.

Lemma Math_min_10 (n : float) :
  is_nan n = false ->
  Math_min 10 n = if (10 <? n)%float then 10%float else n.
Proof.
  intros Hn. unfold Math_min. rewrite Hn.
  change (is_nan 10) with false. cbn [orb].
  destruct (10 <? n)%float; [reflexivity|].
  destruct (n <? 10)%float; reflexivity.
Qed.

Lemma Math_max_0 (m : float) :
  is_nan m = false ->
  Math_max 0 m = if (0 <? m)%float then m else 0%float.
Proof.
  intros Hm. unfold Math_max. rewrite Hm.
  change (is_nan 0) with false. cbn [orb].
  destruct (0 <? m)%float; [reflexivity|].
  destruct (m <? 0)%float; reflexivity.
Qed.

(** A number that is not NaN is clamped into [0, 10]. *)
Lemma clamp_in_range (n : float) :
  is_nan n = false ->
  (0 <=? clamp n)%float = true /\ (clamp n <=? 10)%float = true.
Proof.
  intros Hn. unfold clamp. rewrite (@Math_min_10 n Hn).
  assert (Hm : is_nan (if (10 <? n)%float then 10%float else n) = false)
    by (destruct (10 <? n)%float; [reflexivity | exact Hn]).
  rewrite (@Math_max_0 _ Hm).
  destruct (0 <? (if (10 <? n)%float then 10%float else n))%float eqn:E0.
  - split; [apply ltb_leb; exact E0|].
    destruct (10 <? n)%float eqn:E10; [reflexivity|].
    apply not_ltb_leb; [reflexivity | exact Hn | exact E10].
  - split; reflexivity.
Qed.

(** A number of [0, 10] is left as it is (-0 and +0 being equal). *)
Lemma clamp_fixed (n : float) :
  (0 <=? n)%float = true -> (n <=? 10)%float = true ->
  (clamp n =? n)%float = true.
Proof.
  intros H0 H10. destruct (@leb_not_nan _ _ H0) as [_ Hn].
  unfold clamp. rewrite (@Math_min_10 n Hn).
  destruct (10 <? n)%float eqn:E10.
  - apply ltb_not_leb in E10. congruence.
  - rewrite (@Math_max_0 n Hn). destruct (0 <? n)%float eqn:E0.
    + unfold is_nan in Hn. apply negb_false_iff in Hn. exact Hn.
    + apply leb_not_ltb_eqb; assumption.
Qed.

(** ** Parsing the response of the model *)

Lemma lookup_setProp_same {V : Type} (key : jsstring) (v : V)
    (props : list (jsstring * V)) :
  lookup key (setProp key v props) = Some v.
Proof.
  induction props as [|[k w] props IH]; simpl.
  - rewrite streq_refl. reflexivity.
  - destruct (streq k key) eqn:E; simpl; rewrite E; [reflexivity | exact IH].
Qed.

Lemma lookup_setProp_other {V : Type} (key key' : jsstring) (v : V)
    (props : list (jsstring * V)) :
  streq key' key = false ->
  lookup key (setProp key' v props) = lookup key props.
Proof.
  intros Hne. induction props as [|[k w] props IH]; simpl.
  - rewrite Hne. reflexivity.
  - destruct (streq k key') eqn:E; simpl.
    + apply streq_true_iff in E. subst k. rewrite Hne. reflexivity.
    + destruct (streq k key); [reflexivity | exact IH].
Qed.

Section ParseFacts.

Variable JSON_parse : jsstring -> option JSValue.
Variable ToNumberOther : JSValue -> float.

Local Abbreviation parseBody := (parseBody JSON_parse ToNumberOther).
Local Abbreviation parseAIResponse :=
  (parseAIResponse JSON_parse ToNumberOther).

Lemma matchFirst_part (text json : jsstring) (r : regex) :
  matchFirst text r = Some json ->
  exists pre post, text = pre ++ json ++ post /\ InLang r json.
Proof.
  unfold matchFirst. destruct (exec r None text) as [f|] eqn:E; [|discriminate].
  intros [= <-]. apply exec_sound in E as (Hs & L & _).
  exists (f_before f), (f_rest f). auto.
Qed.

Lemma parseAIResponse_throws (text : jsstring) :
  (exists e, parseBody text = Throws e) ->
  exists e, parseAIResponse text = Throws e.
Proof.
  intros [e He]. unfold AIAnalysisService.parseAIResponse.
  rewrite He. simpl. eauto.
Qed.

Lemma parseAIResponse_returns (text : jsstring) (result : JSValue) :
  parseAIResponse text = Returns result -> parseBody text = Returns result.
Proof.
  unfold AIAnalysisService.parseAIResponse.
  destruct (parseBody text); simpl; congruence.
Qed.

(** The [try] block once the JSON text is extracted and parsed. *)
Lemma parseBody_parsed (text json : jsstring) (analysis : JSValue) :
  matchFirst text jsonPattern = Some json ->
  JSON_parse json = Some analysis ->
  (exists props result,
      analysis = JObject props
      /\ truthyValue (lookup (js "summary") props) = true
      /\ isNumber (lookup (js "riskScore") props) = true
      /\ parseBody text = Returns (JObject result)
      /\ (forall key, In key arrayFields ->
                      lookup key props = None ->
                      lookup key result = Some (JArray []))
      /\ lookup (js "riskScore") result
         = Some (JNumber
                   (clamp (ToNumber ToNumberOther
                             (lookup (js "riskScore") props))))
      /\ lookup (js "complianceScore") result
         = Some (JNumber
                   (clamp (ToNumber ToNumberOther
                             (Some (orElse
                                      (lookup (js "complianceScore") props)
                                      (JNumber 5)))))))
  \/ ((exists e, parseBody text = Throws e)
      /\ (truthyValue (field analysis (js "summary")) = false
          \/ isNumber (field analysis (js "riskScore")) = false)).
Proof.
  intros Hm Hp. unfold AIAnalysisService.parseBody. rewrite Hm, Hp.
  destruct analysis as [| b | n | s | xs | props];
    try (right; simpl; split; [eauto | left; reflexivity]).
  cbn [getProp bind field].
  destruct (truthyValue (lookup (js "summary") props)) eqn:Es;
    [|right; simpl; split; [eauto | left; reflexivity]].
  destruct (isNumber (lookup (js "riskScore") props)) eqn:Er;
    [|right; simpl; split; [eauto | right; reflexivity]].
  left. cbn [negb orb]. eexists props, _.
  split; [reflexivity|]. split; [exact Es|]. split; [exact Er|].
  split; [reflexivity|]. split; [|split].
  - intros key Hkey Hnone.
    unfold arrayFields in Hkey. simpl in Hkey.
    destruct Hkey as [<- | [<- | [<- | [<- | []]]]];
      repeat first
        [ rewrite lookup_setProp_same
        | rewrite lookup_setProp_other by reflexivity ];
      rewrite ?Hnone; reflexivity.
  - repeat first
      [ rewrite lookup_setProp_same
      | rewrite lookup_setProp_other by reflexivity ].
    reflexivity.
  - repeat first
      [ rewrite lookup_setProp_same
      | rewrite lookup_setProp_other by reflexivity ].
    reflexivity.
Qed.

(** C3.  [parseAIResponse] throws when no part of the response text is
    the JSON text of an object; it throws when the JSON that was extracted
    and parsed has no [summary] property or a [riskScore] that is not a
    number; and when it returns, each of [changes], [missingClauses],
    [risks] and [keyTerms] that the parsed JSON does not have is the empty
    array in the result. *)
Theorem parseAIResponse_validation (text : jsstring) :
  (~ containsJSONObject JSON_parse text ->
   exists e, parseAIResponse text = Throws e)
  /\ (forall json analysis,
        matchFirst text jsonPattern = Some json ->
        JSON_parse json = Some analysis ->
        field analysis (js "summary") = None
        \/ isNumber (field analysis (js "riskScore")) = false ->
        exists e, parseAIResponse text = Throws e)
  /\ (forall result,
        parseAIResponse text = Returns result ->
        exists json analysis,
          matchFirst text jsonPattern = Some json
          /\ JSON_parse json = Some analysis
          /\ forall key,
               In key arrayFields ->
               field analysis key = None ->
               field result key = Some (JArray [])).
Proof.
  split; [|split].
  - intros Hno. apply parseAIResponse_throws.
    destruct (matchFirst text jsonPattern) as [json|] eqn:Hm.
    + destruct (JSON_parse json) as [analysis|] eqn:Hp.
      * destruct (@parseBody_parsed text json analysis Hm Hp)
          as [(props & result & -> & _) | [Hthrow _]]; [|exact Hthrow].
        exfalso. apply Hno.
        destruct (@matchFirst_part text json jsonPattern Hm) as (pre & post & Htext & _).
        exists pre, json, post, props. auto.
      * unfold AIAnalysisService.parseBody. rewrite Hm, Hp. eauto.
    + unfold AIAnalysisService.parseBody. rewrite Hm. eauto.
  - intros json analysis Hm Hp Hbad. apply parseAIResponse_throws.
    destruct (@parseBody_parsed text json analysis Hm Hp)
      as [(props & result & -> & Hs & Hr & _) | [Hthrow _]]; [|exact Hthrow].
    exfalso. simpl in Hbad. destruct Hbad as [Hbad | Hbad].
    + rewrite Hbad in Hs. discriminate.
    + congruence.
  - intros result Hret. apply parseAIResponse_returns in Hret.
    destruct (matchFirst text jsonPattern) as [json|] eqn:Hm.
    + destruct (JSON_parse json) as [analysis|] eqn:Hp.
      * destruct (@parseBody_parsed text json analysis Hm Hp)
          as [(props & res & -> & _ & _ & Hres & Hkeys & _) | [[e He] _]];
          [|congruence].
        rewrite Hres in Hret. injection Hret as <-.
        exists json, (JObject props). auto.
      * unfold AIAnalysisService.parseBody in Hret.
        rewrite Hm, Hp in Hret. discriminate.
    + unfold AIAnalysisService.parseBody in Hret.
      rewrite Hm in Hret. discriminate.
Qed.

(** X1.  The scores of a response that [parseAIResponse] accepts.  The risk
    score is the parsed one clamped: inside [0, 10] unless the parsed one is
    NaN, and equal to the parsed one when that is inside [0, 10].  The
    compliance score is 5 when the parsed JSON has none, and the parsed
    one clamped when that is a number other than 0 and NaN. *)
Theorem parseAIResponse_scores (text : jsstring) (result : JSValue) :
  parseAIResponse text = Returns result ->
  exists json analysis n,
    matchFirst text jsonPattern = Some json
    /\ JSON_parse json = Some analysis
    /\ field analysis (js "riskScore") = Some (JNumber n)
    /\ field result (js "riskScore") = Some (JNumber (clamp n))
    /\ (is_nan n = false ->
        (0 <=? clamp n)%float = true /\ (clamp n <=? 10)%float = true)
    /\ ((0 <=? n)%float = true -> (n <=? 10)%float = true ->
        (clamp n =? n)%float = true)
    /\ (field analysis (js "complianceScore") = None ->
        field result (js "complianceScore") = Some (JNumber 5))
    /\ (forall c,
          field analysis (js "complianceScore") = Some (JNumber c) ->
          truthyNumber c = true ->
          field result (js "complianceScore") = Some (JNumber (clamp c))).
Proof.
  intros Hret. apply parseAIResponse_returns in Hret.
  destruct (matchFirst text jsonPattern) as [json|] eqn:Hm.
  2:{ unfold AIAnalysisService.parseBody in Hret.
      rewrite Hm in Hret. discriminate. }
  destruct (JSON_parse json) as [analysis|] eqn:Hp.
  2:{ unfold AIAnalysisService.parseBody in Hret.
      rewrite Hm, Hp in Hret. discriminate. }
  destruct (@parseBody_parsed text json analysis Hm Hp)
    as [(props & res & -> & _ & Hnum & Hres & _ & Hrisk & Hcomp)
       | [[e He] _]]; [|congruence].
  rewrite Hres in Hret. injection Hret as <-.
  destruct (lookup (js "riskScore") props) as [[| | n | | |]|] eqn:Hr;
    try discriminate.
  exists json, (JObject props), n. cbn [field].
  split; [reflexivity|]. split; [exact Hp|]. split; [exact Hr|].
  split; [exact Hrisk|].
  split; [apply clamp_in_range|]. split; [apply clamp_fixed|]. split.
  - intros Hnone. rewrite Hcomp, Hnone. reflexivity.
  - intros c Hc Htruthy. rewrite Hcomp, Hc. unfold orElse.
    cbn [truthyValue]. rewrite Htruthy. reflexivity.
Qed.

End ParseFacts.

Lemma parseAIResponse_validation_witness :
  exists json analysis,
    matchFirst sampleResponse jsonPattern = Some json
    /\ MiniJSON.parse json = Some analysis
    /\ forall key,
         In key arrayFields ->
         field analysis key = None ->
         field
           (JObject
              [(js "summary", JString (js "fine"));
               (js "riskScore", JNumber 10);
               (js "changes", JArray []);
               (js "missingClauses", JArray []);
               (js "risks", JArray []);
               (js "keyTerms", JArray []);
               (js "complianceScore", JNumber 5)])
           key
         = Some (JArray []).
Proof.
  apply (proj2 (proj2 (@parseAIResponse_validation MiniJSON.parse
                         MiniJSON.notANumber sampleResponse))).
  vm_compute. reflexivity.
Defined.

Lemma parseAIResponse_scores_witness :
  exists json analysis n,
    matchFirst sampleResponse jsonPattern = Some json
    /\ MiniJSON.parse json = Some analysis
    /\ field analysis (js "riskScore") = Some (JNumber n)
    /\ field
         (JObject
            [(js "summary", JString (js "fine"));
             (js "riskScore", JNumber 10);
             (js "changes", JArray []);
             (js "missingClauses", JArray []);
             (js "risks", JArray []);
             (js "keyTerms", JArray []);
             (js "complianceScore", JNumber 5)])
         (js "riskScore")
       = Some (JNumber (clamp n)).
Proof.
  destruct (@parseAIResponse_scores MiniJSON.parse MiniJSON.notANumber
              sampleResponse
              (JObject
                 [(js "summary", JString (js "fine"));
                  (js "riskScore", JNumber 10);
                  (js "changes", JArray []);
                  (js "missingClauses", JArray []);
                  (js "risks", JArray []);
                  (js "keyTerms", JArray []);
                  (js "complianceScore", JNumber 5)]))
    as (json & analysis & n & Hm & Hp & Hn & Hr & _).
  - vm_compute. reflexivity.
  - exists json, analysis, n. auto.
Defined.

(** C4.  On a response whose [complianceScore] is 0, a score inside
    [0, 10], [parseAIResponse] returns 5: [analysis.complianceScore || 5]
    takes the number 0 for a missing score.  The risk score of the same
    response is returned as it is. *)
Theorem complianceScore_zero_becomes_five :
  (exists json analysis,
      matchFirst zeroComplianceResponse jsonPattern = Some json
      /\ MiniJSON.parse json = Some analysis
      /\ field analysis (js "complianceScore") = Some (JNumber 0)
      /\ field analysis (js "riskScore") = Some (JNumber 3))
  /\ exists result,
       parseAIResponse MiniJSON.parse MiniJSON.notANumber
         zeroComplianceResponse = Returns result
       /\ field result (js "complianceScore") = Some (JNumber 5)
       /\ field result (js "riskScore") = Some (JNumber 3).
Proof.
  split.
  - eexists _, _. repeat split; vm_compute; reflexivity.
  - eexists. repeat split; vm_compute; reflexivity.
Qed.

(** ** Stripping the tags of the converted document *)

Lemma afterFirst_Some (stop : char) (s rest : jsstring) :
  afterFirst stop s = Some rest ->
  exists body, s = body ++ stop :: rest /\ Forall (fun x => x <> stop) body.
Proof.
  induction s as [|x t IH]; simpl; [discriminate|].
  destruct (stop =? x)%N eqn:E.
  - apply N.eqb_eq in E. intros [= ->]. exists []. subst. auto.
  - apply N.eqb_neq in E. intros H. destruct (IH H) as (body & -> & Hb).
    exists (x :: body). split; [reflexivity|].
    constructor; [congruence | exact Hb].
Qed.

Lemma afterFirst_None (stop : char) (s : jsstring) :
  afterFirst stop s = None <-> Forall (fun x => x <> stop) s.
Proof.
  induction s as [|x t IH]; simpl.
  - split; [constructor | reflexivity].
  - destruct (stop =? x)%N eqn:E.
    + apply N.eqb_eq in E. split; [discriminate|].
      intros H. inversion H; congruence.
    + apply N.eqb_neq in E. rewrite IH. split.
      * intros H. constructor; [congruence | exact H].
      * intros H. inversion H; assumption.
Qed.

(** A greedy star over "any code unit but [stop]" followed by [stop]
    reaches the first [stop], and nothing else. *)
Lemma starLoop_until (stop : char) (k : cont) (t : jsstring) :
  forall fuel prev c,
    length t <= fuel ->
    starLoop (rmatch (Chr (notChar stop)))
      (fun p' s' c' => rmatch (lit1 stop) p' s' c' k) fuel prev t c
    = match afterFirst stop t with
      | Some rest => k (Some stop) rest c
      | None => None
      end.
Proof.
  induction t as [|x t IH]; intros fuel prev c Hfuel.
  - destruct fuel; reflexivity.
  - destruct fuel as [|fuel]; [simpl in Hfuel; lia|].
    simpl in Hfuel. cbn [starLoop rmatch lit1 afterFirst]. unfold notChar.
    destruct (stop =? x)%N eqn:E; cbn [negb].
    + apply N.eqb_eq in E. subst x. reflexivity.
    + replace (length t <? length (x :: t)) with true
        by (symmetry; apply Nat.ltb_lt; simpl; lia).
      rewrite IH by lia.
      destruct (afterFirst stop t) as [rest|]; [|reflexivity].
      destruct (k (Some stop) rest c); reflexivity.
Qed.

Lemma matchHere_tag (prev : option char) (s : jsstring) :
  matchHere tagPattern prev s =
  match s with
  | x :: t =>
      if (60 =? x)%N
      then match afterFirst 62%N t with
           | Some rest => Some (rest, None)
           | None => None
           end
      else None
  | [] => None
  end.
Proof.
  unfold matchHere, tagPattern. destruct s as [|x t]; [reflexivity|].
  cbn [rmatch lit1]. destruct (60 =? x)%N; [|reflexivity].
  exact (@starLoop_until 62%N (fun _ s' c => Some (s', c)) t
           (length t) (Some x) None (le_n _)).
Qed.

Lemma firstn_tag (body rest : jsstring) :
  firstn (length (60%N :: body ++ 62%N :: rest) - length rest)
    (60%N :: body ++ 62%N :: rest)
  = 60%N :: body ++ [62%N].
Proof.
  pose proof (firstn_consumed (60%N :: body ++ [62%N]) rest) as H.
  simpl app in H. rewrite <- app_assoc in H. exact H.
Qed.

(** What [exec] finds for the tag pattern: the first [<] that has a [>]
    after it, up to the first such [>]; and nothing when no [<] is
    closed. *)
Lemma exec_tag_cases (s : jsstring) :
  forall prev,
    (exec tagPattern prev s = None
     /\ exists pre tail,
          s = pre ++ tail
          /\ Forall (fun x => x <> 60%N) pre
          /\ (tail = []
              \/ exists t, tail = 60%N :: t /\ Forall (fun x => x <> 62%N) t))
    \/ (exists pre body rest,
          s = pre ++ 60%N :: body ++ 62%N :: rest
          /\ Forall (fun x => x <> 60%N) pre
          /\ Forall (fun x => x <> 62%N) body
          /\ exec tagPattern prev s
             = Some {| f_before := pre;
                       f_match := 60%N :: body ++ [62%N];
                       f_group := None;
                       f_rest := rest |}).
Proof.
  induction s as [|x t IH]; intros prev; rewrite exec_unfold, matchHere_tag.
  - left. split; [reflexivity|]. exists [], []. auto.
  - destruct (60 =? x)%N eqn:E.
    + apply N.eqb_eq in E. subst x.
      destruct (afterFirst 62%N t) as [rest|] eqn:A.
      * right. apply afterFirst_Some in A as (body & -> & Hb).
        exists [], body, rest. repeat split; auto.
        exact (f_equal
                 (fun m => Some {| f_before := []; f_match := m;
                                   f_group := None; f_rest := rest |})
                 (firstn_tag body rest)).
      * apply afterFirst_None in A.
        destruct (IH (Some 60%N))
          as [(Hex & _) | (pre & body & rest & Ht & _ & _ & _)].
        -- left. rewrite Hex. split; [reflexivity|].
           exists [], (60%N :: t). repeat split; eauto.
        -- exfalso. subst t. apply Forall_app in A as [_ A].
           inversion A as [|? ? _ A']. apply Forall_app in A' as [_ A'].
           inversion A'; congruence.
    + apply N.eqb_neq in E.
      destruct (IH (Some x))
        as [(Hex & pre & tail & -> & Hpre & Htail)
           | (pre & body & rest & -> & Hpre & Hbody & Hex)];
        rewrite Hex.
      * left. split; [reflexivity|]. exists (x :: pre), tail.
        repeat split; auto.
      * right. exists (x :: pre), body, rest. repeat split; auto.
Qed.

Lemma Stripped_prefix (pre s r : jsstring) :
  Forall (fun x => x <> 60%N) pre ->
  Stripped s r -> Stripped (pre ++ s) (pre ++ r).
Proof.
  induction 1 as [|x pre Hx _ IH]; intros H; simpl; [exact H|].
  apply Stripped_keep; auto.
Qed.

Lemma afterFirst_app (stop : char) (body rest : jsstring) :
  Forall (fun x => x <> stop) body ->
  afterFirst stop (body ++ stop :: rest) = Some rest.
Proof.
  induction 1 as [|y l Hy _ IH]; simpl.
  - rewrite N.eqb_refl. reflexivity.
  - destruct (stop =? y)%N eqn:E; [apply N.eqb_eq in E; congruence|].
    exact IH.
Qed.

Lemma closed_not_open (body rest : jsstring) :
  ~ Forall (fun x => x <> 62%N) (body ++ 62%N :: rest).
Proof.
  intros H. apply Forall_app in H as [_ H]. inversion H; congruence.
Qed.

(** [Stripped] describes one text only. *)
Lemma Stripped_functional (s r1 r2 : jsstring) :
  Stripped s r1 -> Stripped s r2 -> r1 = r2.
Proof.
  intros H1. revert r2.
  induction H1 as [|x s r Hx _ IH|body rest r Hb _ IH|t Ht];
    intros r2 H2.
  - inversion H2; reflexivity.
  - inversion H2; subst; try congruence. f_equal. auto.
  - remember (60%N :: body ++ 62%N :: rest) as s eqn:Hs.
    destruct H2 as [|x s' r' Hx _|body' rest' r' Hb' H'|t' Ht'];
      try discriminate.
    + injection Hs as -> _. congruence.
    + injection Hs as Hs.
      apply (f_equal (afterFirst 62%N)) in Hs.
      rewrite !afterFirst_app in Hs by assumption.
      injection Hs as ->. auto.
    + injection Hs as ->. exfalso. exact (closed_not_open _ _ Ht').
  - remember (60%N :: t) as s eqn:Hs.
    destruct H2 as [|x s' r' Hx _|body' rest' r' Hb' H'|t' Ht'];
      try discriminate.
    + injection Hs as -> _. congruence.
    + injection Hs as <-. exfalso. exact (closed_not_open _ _ Ht).
    + injection Hs as ->. reflexivity.
Qed.

Lemma scan_unfold (fuel : nat) (r : regex) (prev : option char)
    (s : jsstring) :
  scan (S fuel) r prev s =
  match exec r prev s with
  | None => ([], s)
  | Some f =>
      let here := (f_before f, f_match f, f_group f) in
      let prev' := lastOr prev (f_before f ++ f_match f) in
      match f_match f, f_rest f with
      | _ :: _, rest =>
          let '(segs, tl) := scan fuel r prev' rest in
          (here :: segs, tl)
      | [], [] => ([here], [])
      | [], x :: rest =>
          match scan fuel r (Some x) rest with
          | ([], tl) => ([here], x :: tl)
          | ((b, m, g) :: segs, tl) =>
              (here :: (x :: b, m, g) :: segs, tl)
          end
      end
  end.
Proof. reflexivity. Qed.

Lemma scan_tag (n : nat) :
  forall s, length s <= n ->
  forall fuel prev, length s < fuel ->
  Stripped s (removed (scan fuel tagPattern prev s)).
Proof.
  induction n as [|n IH]; intros s Hn fuel prev Hfuel;
    (destruct fuel as [|fuel]; [lia|]); rewrite scan_unfold;
    destruct (exec_tag_cases s prev)
      as [(Hex & pre & tail & -> & Hpre & Htail)
         | (pre & body & rest & -> & Hpre & Hbody & Hex)];
    rewrite Hex.
  - unfold removed. simpl. apply Stripped_prefix; [exact Hpre|].
    destruct Htail as [-> | (t & -> & Ht)]; constructor; exact Ht.
  - rewrite length_app in Hn. simpl in Hn. lia.
  - unfold removed. simpl. apply Stripped_prefix; [exact Hpre|].
    destruct Htail as [-> | (t & -> & Ht)]; constructor; exact Ht.
  - cbn [f_before f_match f_rest f_group].
    rewrite !length_app in Hn, Hfuel. simpl in Hn, Hfuel.
    rewrite !length_app in Hn, Hfuel. simpl in Hn, Hfuel.
    cbv zeta.
    match goal with
    | |- context [scan fuel tagPattern ?p rest] =>
        specialize (IH rest ltac:(lia) fuel p ltac:(lia));
        destruct (scan fuel tagPattern p rest) as [segs tl]
    end.
    unfold removed in *. cbn [fst snd map concat seg_before] in *.
    rewrite app_nil_r, <- app_assoc.
    apply Stripped_prefix; [exact Hpre|].
    apply Stripped_tag; assumption.
Qed.

Lemma replaceAll_removed (s : jsstring) (r : regex) :
  replaceAll s r [] = removed (scanAll r s).
Proof.
  unfold replaceAll, removed. destruct (scanAll r s); reflexivity.
Qed.

(** C5.  For every input HTML string, the root of the state that
    [htmlToLexical] returns has exactly one child, a paragraph, which has
    exactly one child, a text node; and the text of that node is the input
    with every [<] up to the next [>] removed, the only text that is. *)
Theorem htmlToLexical_strips_tags (html : jsstring) :
  exists paragraph node content,
    root_children (root (htmlToLexical html)) = [paragraph]
    /\ DocumentProcessor.type paragraph = js "paragraph"
    /\ children paragraph = Some [node]
    /\ DocumentProcessor.type node = js "text"
    /\ children node = None
    /\ text node = Some content
    /\ Stripped html content
    /\ forall other, Stripped html other -> other = content.
Proof.
  assert (H : Stripped html (replaceAll html tagPattern [])).
  { rewrite replaceAll_removed. apply (@scan_tag (length html)); lia. }
  eexists _, _, _. repeat split; [exact H|].
  intros other Hother. exact (Stripped_functional Hother H).
Qed.

(** ** Key terms *)

Ltac segs_norm :=
  unfold flatten, seg_before, seg_match;
  cbn [fst snd map concat app];
  repeat (rewrite <- app_assoc; cbn [app]);
  rewrite ?app_nil_r.

(** A global scan cuts its input into segments and a tail. *)
Lemma scan_sound (r : regex) (fuel : nat) :
  forall prev s segs tl,
    scan fuel r prev s = (segs, tl) ->
    s = flatten segs ++ tl /\ Forall (segmentOf r) segs.
Proof.
  induction fuel as [|fuel IH]; intros prev s segs tl H.
  - simpl in H. injection H as <- <-. split; [reflexivity | constructor].
  - rewrite scan_unfold in H.
    destruct (exec r prev s) as [f|] eqn:E.
    2:{ injection H as <- <-. split; [reflexivity | constructor]. }
    apply exec_sound in E as (Hs & L & p1 & M).
    assert (Hseg : segmentOf r (f_before f, f_match f, f_group f)).
    { split; [exact L|]. eauto. }
    cbv zeta in H.
    destruct (f_match f) as [|y m] eqn:Em.
    + destruct (f_rest f) as [|x rest] eqn:Er.
      * injection H as <- <-. split.
        -- rewrite Hs. segs_norm. reflexivity.
        -- constructor; [exact Hseg | constructor].
      * destruct (scan fuel r (Some x) rest) as [segs' tl'] eqn:Es.
        apply IH in Es as [Hrest Hall].
        destruct segs' as [|[[b m'] g'] segs''].
        -- injection H as <- <-. split.
           ++ rewrite Hs, Hrest. segs_norm. reflexivity.
           ++ constructor; [exact Hseg | constructor].
        -- injection H as <- <-. split.
           ++ rewrite Hs, Hrest. segs_norm. reflexivity.
           ++ constructor; [exact Hseg|].
              inversion Hall as [|? ? Hg Hall']. subst.
              constructor; [exact Hg | exact Hall'].
    + destruct (scan fuel r _ (f_rest f)) as [segs' tl'] eqn:Es.
      injection H as <- <-.
      apply IH in Es as [Hrest Hall]. split.
      * rewrite Hs. rewrite Hrest at 1. segs_norm. reflexivity.
      * constructor; assumption.
Qed.

Lemma in_flatten (g : segment) (segs : list segment) (tl : jsstring) :
  In g segs ->
  exists pre post, flatten segs ++ tl = pre ++ seg_match g ++ post.
Proof.
  induction segs as [|h segs IH]; intros Hin; [contradiction|].
  unfold flatten. simpl. fold (flatten segs).
  destruct Hin as [-> | Hin].
  - exists (seg_before g), (flatten segs ++ tl).
    rewrite <- ?app_assoc. reflexivity.
  - destruct (IH Hin) as (pre & post & Heq).
    exists (seg_before h ++ seg_match h ++ pre), post.
    rewrite <- ?app_assoc. rewrite Heq. reflexivity.
Qed.

(** *** Reading the language of a pattern *)

Lemma InLang_Chr (p : char -> bool) (m : jsstring) :
  InLang (Chr p) m -> exists x, m = [x] /\ p x = true.
Proof. inversion 1; eauto. Qed.

Lemma InLang_Seq (r1 r2 : regex) (m : jsstring) :
  InLang (Seq r1 r2) m ->
  exists m1 m2, m = m1 ++ m2 /\ InLang r1 m1 /\ InLang r2 m2.
Proof. inversion 1; eauto. Qed.

Lemma InLang_Alt (r1 r2 : regex) (m : jsstring) :
  InLang (Alt r1 r2) m -> InLang r1 m \/ InLang r2 m.
Proof. inversion 1; auto. Qed.

Lemma InLang_WordB (m : jsstring) : InLang WordB m -> m = [].
Proof. inversion 1; reflexivity. Qed.

Lemma InLang_Empty (m : jsstring) : InLang Empty m -> m = [].
Proof. inversion 1; reflexivity. Qed.

Lemma InLang_Group (r : regex) (m : jsstring) :
  InLang (Group r) m -> InLang r m.
Proof. inversion 1; assumption. Qed.

(** A star is a sequence of iterations. *)
Lemma InLang_Star (r : regex) (m : jsstring) :
  InLang (Star r) m ->
  exists ms, m = concat ms /\ Forall (InLang r) ms.
Proof.
  intros H. remember (Star r) as sr eqn:Hsr.
  induction H as [| | | | | r' | r' m1 m2 H1 _ H2 IH | |];
    try discriminate; injection Hsr as ->.
  - exists []. split; [reflexivity | constructor].
  - destruct (IH eq_refl) as (ms & -> & Hms).
    exists (m1 :: ms). split; [reflexivity | constructor; assumption].
Qed.

Lemma InLang_Star_Chr (p : char -> bool) (m : jsstring) :
  InLang (Star (Chr p)) m -> Forall (fun x => p x = true) m.
Proof.
  intros H. apply InLang_Star in H as (ms & -> & Hms).
  induction Hms as [|m ms Hm _ IH]; simpl; [constructor|].
  apply InLang_Chr in Hm as (x & -> & Hx). constructor; assumption.
Qed.

Lemma InLang_Plus_Chr (p : char -> bool) (m : jsstring) :
  InLang (Plus (Chr p)) m -> m <> [] /\ Forall (fun x => p x = true) m.
Proof.
  intros H. apply InLang_Seq in H as (m1 & m2 & -> & H1 & H2).
  apply InLang_Chr in H1 as (x & -> & Hx).
  apply InLang_Star_Chr in H2. split; [discriminate|].
  constructor; assumption.
Qed.

Lemma InLang_lit (s m : jsstring) : InLang (lit s) m -> m = s.
Proof.
  revert m; induction s as [|x s IH]; intros m H; simpl in H.
  - apply InLang_Empty; exact H.
  - apply InLang_Seq in H as (m1 & m2 & -> & H1 & H2).
    apply InLang_Chr in H1 as (y & -> & Hy). apply N.eqb_eq in Hy.
    subst y. rewrite (IH _ H2). reflexivity.
Qed.

(** *** Capitalized phrases *)

Lemma InLang_capitalizedWord (m : jsstring) :
  InLang capitalizedWord m -> CapWord m.
Proof.
  intros H. apply InLang_Seq in H as (m1 & m2 & -> & H1 & H2).
  apply InLang_Chr in H1 as (u & -> & Hu).
  apply InLang_Plus_Chr in H2 as [Hne Hl].
  exists u, m2. auto.
Qed.

Lemma InLang_capitalizedTail (m : jsstring) :
  InLang (Star (Seq (Plus (Chr isWhiteSpace)) capitalizedWord)) m ->
  CapTail m.
Proof.
  intros H. apply InLang_Star in H as (ms & -> & Hms).
  induction Hms as [|m ms Hm _ IH]; simpl; [constructor|].
  apply InLang_Seq in Hm as (ws & w & -> & Hws & Hw).
  apply InLang_Plus_Chr in Hws as [Hne Hws].
  apply InLang_capitalizedWord in Hw.
  rewrite <- app_assoc. constructor; assumption.
Qed.

Lemma InLang_capitalizedPattern (m : jsstring) :
  InLang capitalizedPattern m -> CapPhrase m.
Proof.
  intros H. unfold capitalizedPattern in H.
  apply InLang_Seq in H as (b1 & m1 & -> & Hb1 & H).
  apply InLang_WordB in Hb1. subst b1.
  apply InLang_Seq in H as (w & m2 & -> & Hw & H).
  apply InLang_Seq in H as (rest & b2 & -> & Hrest & Hb2).
  apply InLang_WordB in Hb2. subst b2.
  apply InLang_capitalizedWord in Hw.
  apply InLang_capitalizedTail in Hrest.
  exists w, rest. rewrite app_nil_r. auto.
Qed.

(** *** Defined terms *)

Lemma Matches_Seq_inv r1 r2 prev s c prev2 s2 c2 :
  Matches (Seq r1 r2) prev s c prev2 s2 c2 ->
  exists prev1 s1 c1,
    Matches r1 prev s c prev1 s1 c1 /\ Matches r2 prev1 s1 c1 prev2 s2 c2.
Proof. inversion 1; eauto. Qed.

Lemma Matches_Chr_inv p prev s c prev' s' c' :
  Matches (Chr p) prev s c prev' s' c' ->
  exists x, s = x :: s' /\ p x = true /\ c' = c.
Proof. inversion 1; eauto. Qed.

Lemma Matches_Group_inv r prev s c prev' s' c' :
  Matches (Group r) prev s c prev' s' c' ->
  c' = Some (firstn (length s - length s') s)
  /\ exists c'', Matches r prev s c prev' s' c''.
Proof. inversion 1; eauto. Qed.

Lemma Matches_noGroup r prev s c prev' s' c' :
  noGroup r = true -> Matches r prev s c prev' s' c' -> c' = c.
Proof.
  intros Hng M.
  induction M as
    [prev s c | p prev x s c Hp
    | r1 r2 prev s c prev1 s1 c1 prev2 s2 c2 _ IH1 _ IH2
    | r1 r2 prev s c prev1 s1 c1 _ IH | r1 r2 prev s c prev1 s1 c1 _ IH
    | r prev s c
    | r prev s c prev1 s1 c1 prev2 s2 c2 _ IH1 _ _ IH2
    | r prev s c prev1 s1 c1 _ IH | prev s c Hb];
    simpl in Hng; try reflexivity; try discriminate.
  - apply andb_true_iff in Hng as [H1 H2].
    rewrite (IH2 H2), (IH1 H1). reflexivity.
  - apply andb_true_iff in Hng as [H1 _]. exact (IH H1).
  - apply andb_true_iff in Hng as [_ H2]. exact (IH H2).
  - rewrite (IH2 Hng), (IH1 Hng). reflexivity.
Qed.

Lemma notChar_true (c x : char) : notChar c x = true <-> x <> c.
Proof.
  unfold notChar. rewrite negb_true_iff, N.eqb_neq. split; congruence.
Qed.

Lemma Matches_definedTerm prev s prev' s' c :
  Matches definedTermsPattern prev s None prev' s' c ->
  exists term ws kw,
    c = Some term
    /\ s = (quote :: term ++ quote :: ws ++ kw) ++ s'
    /\ term <> []
    /\ Forall (fun x => x <> quote) term
    /\ ws <> []
    /\ Forall (fun x => isWhiteSpace x = true) ws
    /\ (kw = js "means" \/ kw = js "shall mean").
Proof.
  intros M. unfold definedTermsPattern in M.
  apply Matches_Seq_inv in M as (p1 & s1 & c1 & Mq & M).
  apply Matches_Chr_inv in Mq as (x & -> & Hx & ->).
  apply N.eqb_eq in Hx. subst x.
  apply Matches_Seq_inv in M as (p2 & s2 & c2 & Mg & M).
  apply Matches_Group_inv in Mg as (-> & c0 & Mg).
  apply Matches_InLang in Mg as (term & -> & Lt & _).
  apply InLang_Plus_Chr in Lt as [Hne Hterm].
  rewrite firstn_consumed in M.
  assert (Hc : c = Some term).
  { refine (Matches_noGroup _ M). reflexivity. }
  apply Matches_InLang in M as (m & -> & Lm & _).
  apply InLang_Seq in Lm as (q & m1 & -> & Lq & Lm).
  apply InLang_Chr in Lq as (y & -> & Hy). apply N.eqb_eq in Hy. subst y.
  apply InLang_Seq in Lm as (ws & kw & -> & Lws & Lkw).
  apply InLang_Plus_Chr in Lws as [Hws Hall].
  exists term, ws, kw. repeat split; try assumption.
  - simpl. repeat (rewrite <- app_assoc; simpl). reflexivity.
  - eapply Forall_impl; [|exact Hterm]. intros a Ha.
    apply notChar_true; exact Ha.
  - apply InLang_Alt in Lkw as [H | H]; apply InLang_lit in H; auto.
Qed.

Lemma definedTerms_defined (content term : jsstring) :
  In term (definedTerms content) -> definedIn content term.
Proof.
  unfold definedTerms, scanAll. intros Hin.
  destruct (scan (S (length content)) definedTermsPattern None content)
    as [segs tl] eqn:Es.
  apply scan_sound in Es as [Hcontent Hall].
  apply in_flat_map in Hin as (g & Hg & Hin). simpl in Hg.
  rewrite Forall_forall in Hall.
  destruct (Hall g Hg) as (_ & prev & prev' & post & M).
  apply Matches_definedTerm in M
    as (t & ws & kw & Hc & Hs & Hne & Hterm & Hws & Hall' & Hkw).
  rewrite Hc in Hin. destruct Hin as [<- | []].
  apply app_inv_tail in Hs.
  destruct (@in_flatten g segs tl Hg) as (pre & post' & Heq).
  exists pre, ws, kw, post'. repeat split; try assumption.
  rewrite Hcontent, Heq, Hs. simpl.
  repeat (rewrite <- app_assoc; simpl). reflexivity.
Qed.

(** *** Counting the capitalized terms *)

Lemma countOf_app (t : jsstring) (a b : list jsstring) :
  countOf t (a ++ b) = countOf t a + countOf t b.
Proof. unfold countOf. rewrite filter_app, length_app. reflexivity. Qed.

Lemma lookup_In {V : Type} (key : jsstring) (props : list (jsstring * V))
    (v : V) :
  lookup key props = Some v -> In (key, v) props.
Proof.
  induction props as [|[k w] props IH]; simpl; [discriminate|].
  destruct (streq k key) eqn:E.
  - apply streq_true_iff in E. intros [= ->]. left. congruence.
  - intros H. right. exact (IH H).
Qed.

Lemma In_setProp {V : Type} (key : jsstring) (v : V)
    (props : list (jsstring * V)) (k : jsstring) (w : V) :
  In (k, w) (setProp key v props) ->
  (k = key /\ w = v) \/ In (k, w) props.
Proof.
  induction props as [|[k' w'] props IH]; simpl.
  - intros [[= <- <-] | []]. auto.
  - destruct (streq k' key) eqn:E; simpl.
    + apply streq_true_iff in E. subst k'.
      intros [[= <- <-] | H]; auto.
    + intros [H | H]; auto. destruct (IH H); auto.
Qed.

Lemma countTerm_below (seen : list jsstring) (acc : list (jsstring * nat))
    (term : jsstring) :
  countsBelow seen acc -> countsBelow (seen ++ [term]) (countTerm acc term).
Proof.
  intros Hacc t n Hin. unfold countTerm in Hin.
  rewrite countOf_app.
  destruct (3 <? length term) eqn:E.
  - apply Nat.ltb_lt in E. apply In_setProp in Hin as [[-> ->] | Hin].
    + split; [exact E|]. unfold countOf at 2. simpl.
      rewrite streq_refl. simpl.
      destruct (lookup term acc) as [n0|] eqn:L.
      * apply lookup_In in L. destruct (Hacc _ _ L). lia.
      * lia.
    + destruct (Hacc _ _ Hin). split; [assumption | lia].
  - destruct (Hacc _ _ Hin). split; [assumption | lia].
Qed.

Lemma countTerms_below (ms : list jsstring) :
  forall seen acc,
    countsBelow seen acc ->
    countsBelow (seen ++ ms) (fold_left countTerm ms acc).
Proof.
  induction ms as [|m ms IH]; intros seen acc Hacc; simpl.
  - rewrite app_nil_r. exact Hacc.
  - replace (seen ++ m :: ms) with ((seen ++ [m]) ++ ms)
      by (rewrite <- app_assoc; reflexivity).
    apply IH, countTerm_below, Hacc.
Qed.

Lemma frequentTerms_counted (content term : jsstring) :
  In term (frequentTerms content) ->
  3 < length term
  /\ 3 <= countOf term (matchAll content capitalizedPattern).
Proof.
  unfold frequentTerms. intros Hin.
  apply in_map_iff in Hin as ([t n] & <- & Hin).
  apply filter_In in Hin as [Hin Hn]. cbn [snd] in Hn.
  apply Nat.leb_le in Hn.
  assert (H0 : countsBelow [] []) by (intros ? ? []).
  destruct (@countTerms_below (matchAll content capitalizedPattern) [] [] H0
              _ _ Hin)
    as [Hlen Hcount].
  cbn [fst]. rewrite app_nil_l in Hcount. split; [exact Hlen | lia].
Qed.

(** *** Occurrences of the matched texts *)

Lemma occursAt_shift (term pre s : jsstring) (i : nat) :
  occursAt term s i -> occursAt term (pre ++ s) (length pre + i).
Proof.
  intros (p & q & -> & <-). exists (pre ++ p), q.
  rewrite <- app_assoc, length_app. auto.
Qed.

Lemma StronglySorted_shift (k : nat) (l : list nat) :
  StronglySorted lt l -> StronglySorted lt (map (fun i => k + i) l).
Proof.
  induction 1 as [|x l _ IH Hx]; simpl; constructor; [exact IH|].
  apply Forall_map. eapply Forall_impl; [|exact Hx].
  intros y Hy. simpl. lia.
Qed.

(** The matches equal to [term] stand at as many increasing indices of
    the scanned text. *)
Lemma occurrences_in_segments (term : jsstring) (segs : list segment)
    (tl : jsstring) :
  term <> [] ->
  exists l,
    length l = countOf term (map seg_match segs)
    /\ StronglySorted lt l
    /\ Forall (occursAt term (flatten segs ++ tl)) l.
Proof.
  intros Hne. induction segs as [|g segs IH].
  - exists []. repeat split; constructor.
  - destruct IH as (l & Hlen & Hsorted & Hocc).
    replace (flatten (g :: segs) ++ tl)
      with ((seg_before g ++ seg_match g) ++ flatten segs ++ tl)
      by (unfold flatten; simpl; rewrite !app_assoc; reflexivity).
    set (k := length (seg_before g ++ seg_match g)).
    assert (Hshift :
              Forall (occursAt term
                        ((seg_before g ++ seg_match g) ++ flatten segs ++ tl))
                     (map (fun i => k + i) l)).
    { apply Forall_map. eapply Forall_impl; [|exact Hocc].
      intros i Hi. apply occursAt_shift; exact Hi. }
    unfold countOf. simpl. destruct (streq term (seg_match g)) eqn:E.
    + apply streq_true_iff in E.
      exists (length (seg_before g) :: map (fun i => k + i) l).
      split; [simpl; rewrite length_map; f_equal; exact Hlen|]. split.
      * constructor; [apply StronglySorted_shift; exact Hsorted|].
        apply Forall_map, Forall_forall. intros i _. unfold k.
        rewrite length_app, <- E.
        destruct term; [congruence | simpl; lia].
      * constructor; [|exact Hshift].
        exists (seg_before g), (flatten segs ++ tl).
        rewrite E, <- app_assoc. auto.
    + exists (map (fun i => k + i) l).
      split; [rewrite length_map; exact Hlen|].
      split; [apply StronglySorted_shift; exact Hsorted|].
      exact Hshift.
Qed.

Lemma countOf_In (term : jsstring) (ms : list jsstring) :
  0 < countOf term ms -> In term ms.
Proof.
  unfold countOf. induction ms as [|m ms IH]; simpl; [lia|].
  destruct (streq term m) eqn:E.
  - apply streq_true_iff in E. auto.
  - auto.
Qed.

Lemma frequentTerms_frequent (content term : jsstring) :
  In term (frequentTerms content) -> frequentIn content term.
Proof.
  intros Hin. apply frequentTerms_counted in Hin as [Hlen Hcount].
  unfold matchAll, scanAll in Hcount.
  destruct (scan (S (length content)) capitalizedPattern None content)
    as [segs tl] eqn:Es.
  apply scan_sound in Es as [Hcontent Hall]. simpl in Hcount.
  split; [|split; [exact Hlen|]].
  - assert (Hin : In term (map seg_match segs))
      by (apply countOf_In; lia).
    apply in_map_iff in Hin as (g & <- & Hg).
    rewrite Forall_forall in Hall. destruct (Hall g Hg) as [L _].
    apply InLang_capitalizedPattern; exact L.
  - assert (Hne : term <> []) by (destruct term; [simpl in Hlen; lia | discriminate]).
    destruct (@occurrences_in_segments term segs tl Hne)
      as (l & Hl & Hsorted & Hocc).
    rewrite <- Hcontent in Hocc.
    destruct l as [|i1 [|i2 [|i3 l]]]; simpl in Hl; try lia.
    inversion Hsorted as [|? ? Hs1 Hf1]. subst.
    inversion Hs1 as [|? ? _ Hf2]. subst.
    inversion Hf1 as [|? ? H12 _]. inversion Hf2 as [|? ? H23 _]. subst.
    inversion Hocc as [|? ? Ho1 Hocc1]. subst.
    inversion Hocc1 as [|? ? Ho2 Hocc2]. subst.
    inversion Hocc2 as [|? ? Ho3 _]. subst.
    exists i1, i2, i3. auto.
Qed.

(** *** The returned list *)

Lemma mem_true_iff (x : jsstring) (l : list jsstring) :
  mem x l = true <-> In x l.
Proof.
  induction l as [|y l IH]; simpl; [split; [discriminate | tauto]|].
  rewrite orb_true_iff, streq_true_iff, IH. tauto.
Qed.

Lemma uniqueFrom_In (seen xs : list jsstring) (x : jsstring) :
  In x (uniqueFrom seen xs) -> In x xs /\ ~ In x seen.
Proof.
  revert seen; induction xs as [|y xs IH]; intros seen; simpl; [tauto|].
  destruct (mem y seen) eqn:E.
  - intros H. destruct (IH _ H). auto.
  - intros [<- | H].
    + split; [auto|]. rewrite <- mem_true_iff. congruence.
    + destruct (IH _ H) as [Hin Hseen]. split; [auto|].
      intros Hx. apply Hseen. right; exact Hx.
Qed.

Lemma uniqueFrom_NoDup (seen xs : list jsstring) :
  NoDup (uniqueFrom seen xs).
Proof.
  revert seen; induction xs as [|y xs IH]; intros seen; simpl.
  - constructor.
  - destruct (mem y seen); [apply IH|].
    constructor; [|apply IH].
    intros H. apply uniqueFrom_In in H as [_ H]. apply H. left; reflexivity.
Qed.

Lemma firstn_In {A : Type} (n : nat) (l : list A) (x : A) :
  In x (firstn n l) -> In x l.
Proof.
  intros H. rewrite <- (firstn_skipn n l). apply in_or_app. left; exact H.
Qed.

Lemma firstn_NoDup {A : Type} (n : nat) (l : list A) :
  NoDup l -> NoDup (firstn n l).
Proof.
  intros H. rewrite <- (firstn_skipn n l) in H.
  exact (NoDup_app_remove_r _ _ H).
Qed.

(** C10.  For every content string, [extractKeyTerms] returns a list
    without duplicates of at most 20 terms, each of which is a term quoted
    in the content and followed by [means] or [shall mean], or a
    capitalized phrase of length greater than 3 that occurs at least 3
    times in the content. *)
Theorem extractKeyTerms_terms (content : jsstring) :
  NoDup (extractKeyTerms content)
  /\ length (extractKeyTerms content) <= 20
  /\ forall term,
       In term (extractKeyTerms content) ->
       definedIn content term \/ frequentIn content term.
Proof.
  unfold extractKeyTerms. split; [|split].
  - apply firstn_NoDup, uniqueFrom_NoDup.
  - apply firstn_le_length.
  - intros term Hin. apply firstn_In in Hin.
    apply uniqueFrom_In in Hin as [Hin _].
    apply in_app_or in Hin as [Hin | Hin].
    + left. apply definedTerms_defined; exact Hin.
    + right. apply frequentTerms_frequent; exact Hin.
Qed.

(** * Part IV.  Further properties of the two services *)

(** ** The text of a converted document *)

Lemma Stripped_tagFree (s r : jsstring) : Stripped s r -> tagFree r.
Proof.
  induction 1 as [|x s r Hx _ IH|body rest r Hb _ IH|t Ht];
    intros pre mid post Heq.
  - destruct pre; discriminate.
  - destruct pre as [|y pre]; simpl in Heq.
    + injection Heq as -> _. congruence.
    + injection Heq as _ Heq. exact (IH _ _ _ Heq).
  - exact (IH _ _ _ Heq).
  - assert (Hin : In 62%N (60%N :: t)).
    { rewrite Heq. apply in_or_app. right. right.
      apply in_or_app. right. left. reflexivity. }
    destruct Hin as [Hin | Hin]; [discriminate|].
    rewrite Forall_forall in Ht. exact (Ht _ Hin eq_refl).
Qed.

(** X3.  Exporting the state that [htmlToLexical] builds gives the text
    of the HTML back: [lexicalToText (htmlToLexical html)] is [html] with
    every [<] up to the next [>] removed, and no [<] of it has a [>]
    after it, so that converting it once more changes nothing. *)
Theorem lexicalToText_htmlToLexical (html : jsstring) :
  Stripped html (lexicalToText (htmlToLexical html))
  /\ tagFree (lexicalToText (htmlToLexical html))
  /\ lexicalToText (htmlToLexical (lexicalToText (htmlToLexical html)))
     = lexicalToText (htmlToLexical html).
Proof.
  assert (Hs : forall h, Stripped h (lexicalToText (htmlToLexical h))).
  { intros h. unfold lexicalToText, htmlToLexical. simpl.
    rewrite replaceAll_removed. apply (@scan_tag (length h)); lia. }
  assert (Hfree : tagFree (lexicalToText (htmlToLexical html)))
    by exact (Stripped_tagFree (Hs html)).
  split; [apply Hs|]. split; [exact Hfree|].
  apply (@Stripped_functional (lexicalToText (htmlToLexical html)));
    [apply Hs|].
  clear Hs. revert Hfree.
  generalize (lexicalToText (htmlToLexical html)) as r.
  induction r as [|x r IH]; intros Hfree; [constructor|].
  destruct (N.eq_dec x 60%N) as [-> | Hx].
  - apply Stripped_open. apply Forall_forall. intros y Hy ->.
    apply in_split in Hy as (mid & post & ->).
    exact (Hfree [] mid post eq_refl).
  - apply Stripped_keep; [exact Hx|]. apply IH.
    intros pre mid post ->. exact (Hfree (x :: pre) mid post eq_refl).
Qed.

(** ** What [parseAIResponse] leaves alone *)

Section ParseFrame.

Variable JSON_parse : jsstring -> option JSValue.
Variable ToNumberOther : JSValue -> float.

(** An accepted response is an object with a truthy [summary], and the
    result is that object after the six assignments. *)
Lemma parseAIResponse_accepts (text : jsstring) (result : JSValue) :
  parseAIResponse JSON_parse ToNumberOther text = Returns result ->
  exists json props,
    matchFirst text jsonPattern = Some json
    /\ JSON_parse json = Some (JObject props)
    /\ truthyValue (lookup (js "summary") props) = true
    /\ result = JObject (assigned ToNumberOther props).
Proof.
  intros Hret. apply parseAIResponse_returns in Hret.
  unfold AIAnalysisService.parseBody in Hret.
  destruct (matchFirst text jsonPattern) as [json|]; [|discriminate].
  destruct (JSON_parse json) as [analysis|] eqn:Hp; [|discriminate].
  destruct analysis as [| b | n | s | xs | props]; try discriminate.
  cbn [getProp bind] in Hret.
  destruct (truthyValue (lookup (js "summary") props)) eqn:Es;
    [|discriminate].
  destruct (isNumber (lookup (js "riskScore") props)); [|discriminate].
  cbn [negb orb] in Hret. injection Hret as <-.
  exists json, props. auto.
Qed.

(** X4.  [parseAIResponse] changes nothing but the six properties it
    assigns: in the object it returns, every other property of the parsed
    JSON (the summary among them) has the value it was parsed with, and
    so has each of [changes], [missingClauses], [risks] and [keyTerms]
    whose parsed value is truthy. *)
Theorem parseAIResponse_keeps_other_properties (text : jsstring)
    (result : JSValue) :
  parseAIResponse JSON_parse ToNumberOther text = Returns result ->
  exists json props,
    matchFirst text jsonPattern = Some json
    /\ JSON_parse json = Some (JObject props)
    /\ (forall key, ~ In key assignedFields ->
                    field result key = lookup key props)
    /\ field result (js "summary") = lookup (js "summary") props
    /\ truthyValue (field result (js "summary")) = true
    /\ (forall key, In key arrayFields ->
                    truthyValue (lookup key props) = true ->
                    field result key = lookup key props).
Proof.
  intros Hret.
  apply parseAIResponse_accepts in Hret as (json & props & Hm & Hp & Hs & ->).
  exists json, props. split; [exact Hm|]. split; [exact Hp|].
  assert (Hother : forall key, ~ In key assignedFields ->
                     field (JObject (assigned ToNumberOther props)) key
                     = lookup key props).
  { intros key Hkey. cbn [field]. unfold assigned.
    assert (Hne : forall k, In k assignedFields -> streq k key = false).
    { intros k Hk. apply streq_false_iff. intros ->. exact (Hkey Hk). }
    unfold assignedFields, arrayFields in Hne. simpl in Hne.
    rewrite !lookup_setProp_other by (apply Hne; tauto).
    reflexivity. }
  split; [exact Hother|].
  assert (Hsum : field (JObject (assigned ToNumberOther props)) (js "summary")
                 = lookup (js "summary") props).
  { apply Hother. unfold assignedFields, arrayFields. simpl.
    intros H. repeat destruct H as [H | H]; try discriminate H. exact H. }
  split; [exact Hsum|]. split; [rewrite Hsum; exact Hs|].
  intros key Hkey Htruthy. cbn [field]. unfold assigned.
  destruct (lookup key props) as [v|] eqn:Hv; [|discriminate].
  unfold arrayFields in Hkey. simpl in Hkey.
  destruct Hkey as [<- | [<- | [<- | [<- | []]]]];
    repeat first
      [ rewrite lookup_setProp_same
      | rewrite lookup_setProp_other by reflexivity ];
    rewrite ?Hv; unfold orElse; rewrite ?Htruthy; reflexivity.
Qed.

End ParseFrame.

Lemma parseAIResponse_keeps_other_properties_witness :
  exists json props,
    matchFirst sampleResponse jsonPattern = Some json
    /\ MiniJSON.parse json = Some (JObject props)
    /\ field
         (JObject
            [(js "summary", JString (js "fine"));
             (js "riskScore", JNumber 10);
             (js "changes", JArray []);
             (js "missingClauses", JArray []);
             (js "risks", JArray []);
             (js "keyTerms", JArray []);
             (js "complianceScore", JNumber 5)])
         (js "summary")
       = lookup (js "summary") props.
Proof.
  destruct (@parseAIResponse_keeps_other_properties MiniJSON.parse
              MiniJSON.notANumber sampleResponse
              (JObject
                 [(js "summary", JString (js "fine"));
                  (js "riskScore", JNumber 10);
                  (js "changes", JArray []);
                  (js "missingClauses", JArray []);
                  (js "risks", JArray []);
                  (js "keyTerms", JArray []);
                  (js "complianceScore", JNumber 5)]))
    as (json & props & Hm & Hp & _ & Hs & _).
  - vm_compute. reflexivity.
  - exists json, props. auto.
Defined.

(** ** Line and column of a position *)

Lemma splitGo_LF_length (cur s : jsstring) :
  length (splitGo LF 0 cur s) = S (lineBreaks s).
Proof.
  revert cur. induction s as [|x s IH]; intros cur; [reflexivity|].
  unfold lineBreaks in *. cbn [splitGo LF startsWith count_occ length Nat.sub].
  destruct (N.eq_dec x 10) as [-> | Hx].
  - rewrite N.eqb_refl. cbn [andb length]. rewrite IH. reflexivity.
  - replace (10 =? x)%N with false
      by (symmetry; apply N.eqb_neq; congruence).
    cbn [andb]. apply IH.
Qed.

Lemma splitGo_LF_last (cur s : jsstring) :
  ~ In 10%N cur ->
  exists lastLine rest,
    rev (splitGo LF 0 cur s) = lastLine :: rest
    /\ lastLineOf (rev cur ++ s) lastLine.
Proof.
  revert cur. induction s as [|x s IH]; intros cur Hcur.
  - exists (rev cur), []. split; [reflexivity|]. exists [].
    rewrite app_nil_r. split; [reflexivity|]. split; [|left; reflexivity].
    rewrite <- in_rev. exact Hcur.
  - cbn [splitGo LF startsWith length Nat.sub].
    destruct (N.eq_dec x 10) as [-> | Hx].
    + rewrite N.eqb_refl. cbn [andb].
      destruct (IH [] (fun H => H)) as (lastLine & rest & Hrev & head & Hs & Hno & Hhead).
      exists lastLine, (rest ++ [rev cur]). split.
      * cbn [rev]. rewrite Hrev. reflexivity.
      * exists (rev cur ++ 10%N :: head). split; [|split; [exact Hno|right]].
        -- simpl in Hs. rewrite Hs, <- app_assoc. reflexivity.
        -- destruct Hhead as [-> | (h & ->)].
           ++ exists (rev cur). reflexivity.
           ++ exists (rev cur ++ 10%N :: h).
              rewrite <- app_assoc. reflexivity.
    + replace (10 =? x)%N with false
        by (symmetry; apply N.eqb_neq; congruence).
      cbn [andb].
      destruct (IH (x :: cur)) as (lastLine & rest & Hrev & Hlast).
      { intros [H | H]; [congruence | exact (Hcur H)]. }
      exists lastLine, rest. split; [exact Hrev|].
      cbn [rev] in Hlast. rewrite <- app_assoc in Hlast. exact Hlast.
Qed.

Lemma positionAt_line_column (index : Z) (searchText fullText : jsstring)
    (p : TextPosition) :
  index <> (-1)%Z ->
  positionAt index searchText fullText = Returns p ->
  start p = index
  /\ exists lastLine,
       lastLineOf (firstn (Z.to_nat index) fullText) lastLine
       /\ line p
          = Some (Z.of_nat (lineBreaks (firstn (Z.to_nat index) fullText)) + 1)%Z
       /\ column p = Some (Z.of_nat (length lastLine) + 1)%Z.
Proof.
  intros Hidx. unfold positionAt.
  replace (index =? -1)%Z with false by (symmetry; apply Z.eqb_neq; exact Hidx).
  unfold substring, split. rewrite Nat.sub_0_r. cbn [skipn].
  destruct (@splitGo_LF_last [] (firstn (Z.to_nat index) fullText)
              (fun H => H)) as (lastLine & rest & Hrev & Hlast).
  rewrite Hrev, splitGo_LF_length. intros [= <-]. cbn [start line column].
  split; [reflexivity|]. exists lastLine. split; [exact Hlast|].
  split; [|reflexivity]. f_equal. lia.
Qed.

Section LineColumn.

Variable toLowerCase : jsstring -> jsstring.

(** X5.  A position that [findTextPosition] returns is either the
    sentinel [{start: 0, end: 0}], or it carries the line and the column
    of [start]: [line] is one more than the number of line feeds of the
    document before [start], and [column] is one more than the length of
    what follows the last of these line feeds (of all the text before
    [start] when there is none). *)
Theorem findTextPosition_line_column (fuel : nat)
    (searchText fullText : jsstring) (p : TextPosition) :
  findTextPosition toLowerCase fuel searchText fullText = Returns p ->
  p = notFound
  \/ exists lastLine,
       lastLineOf (firstn (Z.to_nat (start p)) fullText) lastLine
       /\ line p
          = Some (Z.of_nat
                    (lineBreaks (firstn (Z.to_nat (start p)) fullText)) + 1)%Z
       /\ column p = Some (Z.of_nat (length lastLine) + 1)%Z.
Proof.
  rewrite findTextPosition_unfold.
  destruct (negb (truthy searchText)); [intros [= <-]; left; reflexivity|].
  assert (Hpos : forall index,
             positionAt index searchText fullText = Returns p ->
             p = notFound
             \/ exists lastLine,
                  lastLineOf (firstn (Z.to_nat (start p)) fullText) lastLine
                  /\ line p
                     = Some (Z.of_nat
                               (lineBreaks
                                  (firstn (Z.to_nat (start p)) fullText)) + 1)%Z
                  /\ column p = Some (Z.of_nat (length lastLine) + 1)%Z).
  { intros index Hp. destruct (Z.eq_dec index (-1)) as [-> | Hidx].
    - left. unfold positionAt in Hp. simpl in Hp. congruence.
    - right. destruct (@positionAt_line_column index searchText fullText p Hidx Hp) as (-> & H).
      exact H. }
  destruct (indexOf fullText searchText =? -1)%Z.
  - destruct (fuzzyFindPosition toLowerCase fuel searchText fullText)
      as [r | |]; simpl; try discriminate.
    apply Hpos.
  - simpl. apply Hpos.
Qed.

End LineColumn.

Lemma findTextPosition_line_column_witness :
  {| start := 5; end_ := 6; line := Some 3%Z; column := Some 2%Z |} = notFound
  \/ exists lastLine,
       lastLineOf (firstn 5 (js "ab" ++ LF ++ LF ++ js "cde")) lastLine
       /\ Some 3%Z
          = Some (Z.of_nat
                    (lineBreaks (firstn 5 (js "ab" ++ LF ++ LF ++ js "cde")))
                  + 1)%Z
       /\ Some 2%Z = Some (Z.of_nat (length lastLine) + 1)%Z.
Proof.
  apply (@findTextPosition_line_column asciiToLowerCase 0 (js "d")
           (js "ab" ++ LF ++ LF ++ js "cde")
           {| start := 5; end_ := 6; line := Some 3%Z; column := Some 2%Z |}).
  vm_compute. reflexivity.
Defined.

(** ** Exporting what [textToLexical] builds *)

Lemma trimStart_suffix (s : jsstring) :
  exists ws, s = ws ++ trimStart s /\ isBlank ws = true.
Proof.
  induction s as [|x s (ws & Hs & Hws)]; [exists []; auto|].
  simpl. destruct (isWhiteSpace x) eqn:E.
  - exists (x :: ws). simpl. rewrite E, Hws. split; [congruence | reflexivity].
  - exists []. auto.
Qed.

Lemma trim_infix (s : jsstring) :
  exists a b, s = a ++ trim s ++ b /\ isBlank a = true /\ isBlank b = true.
Proof.
  destruct (trimStart_suffix s) as (a & Ha & Hba).
  destruct (trimStart_suffix (rev (trimStart s))) as (b & Hb & Hbb).
  exists a, (rev b). unfold trim, trimEnd.
  split; [|split; [exact Hba | rewrite isBlank_rev; exact Hbb]].
  rewrite <- rev_app_distr, <- Hb, rev_involutive. exact Ha.
Qed.

Lemma trimStart_idem (s : jsstring) : trimStart (trimStart s) = trimStart s.
Proof.
  induction s as [|x s IH]; [reflexivity|]. simpl.
  destruct (isWhiteSpace x) eqn:E; [exact IH|]. simpl. rewrite E. reflexivity.
Qed.

Lemma trimStart_app (l : jsstring) (x : char) (m : jsstring) :
  isWhiteSpace x = false -> trimStart (l ++ x :: m) = trimStart l ++ x :: m.
Proof.
  intros Hx. induction l as [|y l IH]; simpl; [rewrite Hx; reflexivity|].
  destruct (isWhiteSpace y); [exact IH | reflexivity].
Qed.

Lemma trimEnd_cons (x : char) (s : jsstring) :
  isWhiteSpace x = false -> trimEnd (x :: s) = x :: trimEnd s.
Proof.
  intros Hx. unfold trimEnd. simpl.
  rewrite trimStart_app by exact Hx.
  rewrite rev_app_distr. reflexivity.
Qed.

Lemma trim_idem (s : jsstring) : trim (trim s) = trim s.
Proof.
  unfold trim.
  assert (H : trimStart (trimEnd (trimStart s)) = trimEnd (trimStart s)).
  { destruct (trimStart s) as [|x q] eqn:E; [reflexivity|].
    pose proof (trimStart_head s E) as Hx.
    rewrite trimEnd_cons by exact Hx. simpl. rewrite Hx. reflexivity. }
  rewrite H. unfold trimEnd. rewrite rev_involutive, trimStart_idem.
  reflexivity.
Qed.

(** No piece of a split by the paragraph break holds a paragraph break. *)
Lemma splitGo_no_break (s : jsstring) :
  forall skip cur,
    (skip = 0 ->
     (forall a b, rev cur <> a ++ paragraphBreak ++ b)
     /\ forall c s', cur = 10%N :: c -> s <> 10%N :: s') ->
    (skip <> 0 -> cur = []) ->
    forall p, In p (splitGo paragraphBreak skip cur s) ->
              forall a b, p <> a ++ paragraphBreak ++ b.
Proof.
  assert (Hnil : forall a b : jsstring, [] <> a ++ paragraphBreak ++ b).
  { intros a b H. symmetry in H. apply app_eq_nil in H as [_ H].
    discriminate H. }
  induction s as [|x s IH]; intros skip cur H0 Hs p Hp.
  - simpl in Hp. destruct Hp as [<- | []].
    destruct skip as [|k].
    + apply H0. reflexivity.
    + rewrite Hs by discriminate. exact Hnil.
  - destruct skip as [|k].
    + destruct (H0 eq_refl) as [Hcur Hnext].
      cbn [splitGo] in Hp.
      destruct (startsWith paragraphBreak (x :: s)) eqn:E.
      * destruct Hp as [<- | Hp]; [exact Hcur|].
        revert p Hp. apply IH; [discriminate | reflexivity].
      * revert p Hp. apply IH; [|congruence]. intros _. split.
        -- intros a b Hab. cbn [rev] in Hab.
           destruct (rev b) as [|y rb] eqn:Eb.
           ++ apply (f_equal (@rev char)) in Eb.
              rewrite rev_involutive in Eb. simpl in Eb. subst b.
              rewrite app_nil_r in Hab.
              change paragraphBreak with ([10%N] ++ [10%N]) in Hab.
              rewrite app_assoc in Hab.
              apply app_inj_tail in Hab as [Hc ->].
              apply (Hnext (rev a) s); [|reflexivity].
              apply (f_equal (@rev char)) in Hc.
              rewrite rev_involutive, rev_app_distr in Hc. exact Hc.
           ++ apply (f_equal (@rev char)) in Eb.
              rewrite rev_involutive in Eb. simpl in Eb. subst b.
              rewrite !app_assoc in Hab.
              apply app_inj_tail in Hab as [Hc _].
              apply (Hcur a (rev rb)). rewrite Hc, <- app_assoc.
              reflexivity.
        -- intros c s' [= -> _] ->. discriminate E.
    + cbn [splitGo] in Hp. revert p Hp.
      rewrite (Hs ltac:(discriminate)).
      apply IH; [|reflexivity]. intros _. split; [exact Hnil|].
      intros c s' Hc. discriminate Hc.
Qed.

Lemma split_no_break (t p : jsstring) :
  In p (split t paragraphBreak) -> forall a b, p <> a ++ paragraphBreak ++ b.
Proof.
  apply splitGo_no_break; [|congruence]. intros _. split.
  - intros a b H. symmetry in H. apply app_eq_nil in H as [_ H].
    discriminate H.
  - intros c s' Hc. discriminate Hc.
Qed.

(** What the round trip computes. *)
Lemma roundTrip_pieces (t : jsstring) :
  lexicalToText (textToLexical t)
  = join paragraphBreak
      (map trim (filter (fun p => negb (isBlank p)) (split t paragraphBreak))).
Proof.
  unfold lexicalToText, textToLexical. simpl. rewrite map_map.
  rewrite (filter_ext (fun p => truthy (trim p))
                      (fun p => negb (isBlank p)) truthy_trim).
  f_equal.
Qed.

Lemma roundTrip_paragraphs (t : jsstring) :
  Forall isParagraph
    (map trim (filter (fun p => negb (isBlank p)) (split t paragraphBreak))).
Proof.
  apply Forall_forall. intros q Hq.
  apply in_map_iff in Hq as (p & <- & Hp).
  apply filter_In in Hp as [Hp Hnb].
  split; [|split].
  - intros H. apply trim_nil_iff in H. rewrite H in Hnb. discriminate.
  - apply trim_idem.
  - intros a b Hab.
    destruct (trim_infix p) as (a' & b' & Hpb & _).
    apply (@split_no_break t p Hp (a' ++ a) (b ++ b')).
    rewrite Hpb at 1. rewrite Hab, <- !app_assoc. reflexivity.
Qed.

(** X6.  What [lexicalToText] exports from the state that [textToLexical]
    builds is a text in normal form: it is the join, by two line feeds, of
    paragraphs that are not empty, have no white space at either end and
    hold no two line feeds in a row; and converting and exporting it once
    more gives the same text. *)
Theorem lexicalToText_textToLexical_normal (t : jsstring) :
  (exists ps,
     Forall isParagraph ps
     /\ lexicalToText (textToLexical t) = join paragraphBreak ps)
  /\ lexicalToText (textToLexical (lexicalToText (textToLexical t)))
     = lexicalToText (textToLexical t).
Proof.
  pose proof (roundTrip_paragraphs t) as Hps.
  split; [eexists; split; [exact Hps | apply roundTrip_pieces]|].
  rewrite (roundTrip_pieces t).
  remember (map trim (filter (fun p => negb (isBlank p))
                             (split t paragraphBreak))) as ps eqn:E.
  clear E. rewrite roundTrip_pieces.
  destruct ps as [|p ps]; [reflexivity|].
  rewrite split_join_paragraphs by (discriminate || exact Hps).
  f_equal. apply trimmed_paragraphs_kept.
  intros q Hq. rewrite Forall_forall in Hps.
  destruct (Hps q Hq) as (Hne & Htrim & _). auto.
Qed.

(** ** Counting words *)

Lemma trimStart_length (s : jsstring) : length (trimStart s) <= length s.
Proof.
  induction s as [|x s IH]; simpl; [lia|].
  destruct (isWhiteSpace x); simpl; lia.
Qed.

(** The greedy loop of [\s*] followed by nothing takes all the white space
    there is. *)
Lemma starLoop_whitespace (fuel : nat) :
  forall prev s c,
    length s <= fuel ->
    starLoop (rmatch (Chr isWhiteSpace)) (fun _ s' c' => Some (s', c'))
      fuel prev s c
    = Some (trimStart s, c).
Proof.
  induction fuel as [|fuel IH]; intros prev s c Hfuel.
  - destruct s; [reflexivity | simpl in Hfuel; lia].
  - destruct s as [|x s]; [reflexivity|].
    cbn [starLoop rmatch trimStart].
    destruct (isWhiteSpace x); [|reflexivity].
    replace (length s <? length (x :: s)) with true
      by (symmetry; apply Nat.ltb_lt; simpl; lia).
    rewrite IH by (simpl in Hfuel; lia). reflexivity.
Qed.

Lemma matchHere_whitespaceRun (prev : option char) (s : jsstring) :
  matchHere (Plus (Chr isWhiteSpace)) prev s
  = match s with
    | [] => None
    | x :: s' => if isWhiteSpace x then Some (trimStart s', None) else None
    end.
Proof.
  destruct s as [|x s]; [reflexivity|].
  unfold matchHere, Plus. cbn [rmatch].
  destruct (isWhiteSpace x); [|reflexivity].
  apply starLoop_whitespace. apply le_n.
Qed.

(** The pieces of a split by [\s+] that are not empty are as many as the
    words. *)
Lemma splitLoop_words (n : nat) :
  forall s fuel prev cur,
    length s <= n ->
    length s < fuel ->
    length (filter (fun word => 0 <? length word)
              (splitLoop fuel (Plus (Chr isWhiteSpace)) prev cur s))
    = match cur with
      | [] => wordStarts true s
      | _ :: _ => S (wordStarts false s)
      end.
Proof.
  induction n as [|n IH]; intros s fuel prev cur Hn Hfuel;
    (destruct fuel as [|fuel]; [lia|]).
  - destruct s; [|simpl in Hn; lia].
    destruct cur as [|y cur]; [reflexivity|].
    cbn [splitLoop filter]. rewrite length_rev. reflexivity.
  - destruct s as [|x s].
    + destruct cur as [|y cur]; [reflexivity|].
      cbn [splitLoop filter]. rewrite length_rev. reflexivity.
    + cbn [splitLoop]. rewrite matchHere_whitespaceRun.
      simpl in Hn, Hfuel. cbn [wordStarts].
      pose proof (trimStart_length s) as Hlen.
      destruct (isWhiteSpace x) eqn:E.
      * replace (length (x :: s) - length (trimStart s) + length cur =? 0)
          with false by (symmetry; apply Nat.eqb_neq; cbn [length]; lia).
        cbn [filter].
        assert (Hrest :
          length (filter (fun word => 0 <? length word)
                    (splitLoop fuel (Plus (Chr isWhiteSpace))
                       (lastOr prev
                          (firstn (length (x :: s) - length (trimStart s))
                             (x :: s)))
                       [] (trimStart s)))
          = wordStarts true s).
        { rewrite IH by lia. clear. induction s as [|y s IHs]; [reflexivity|].
          simpl. destruct (isWhiteSpace y) eqn:Ey; [exact IHs|].
          simpl. rewrite Ey. reflexivity. }
        destruct cur as [|y cur].
        -- cbn [rev length Nat.ltb Nat.leb]. exact Hrest.
        -- replace (0 <? length (rev (y :: cur))) with true
             by (symmetry; apply Nat.ltb_lt; rewrite length_rev; simpl; lia).
           rewrite <- Hrest. reflexivity.
      * rewrite IH by lia. destruct cur; reflexivity.
Qed.

Lemma wordStarts_blank (b : bool) (s : jsstring) :
  isBlank s = true -> wordStarts b s = 0.
Proof.
  revert b. induction s as [|x s IH]; intros b H; [reflexivity|].
  simpl in *. apply andb_true_iff in H as [-> H]. apply IH. exact H.
Qed.

Lemma wordStarts_trail (b : bool) (s t : jsstring) :
  isBlank t = true -> wordStarts b (s ++ t) = wordStarts b s.
Proof.
  intros Ht. revert b. induction s as [|x s IH]; intros b.
  - apply wordStarts_blank. exact Ht.
  - simpl. destruct (isWhiteSpace x); rewrite IH; reflexivity.
Qed.

Lemma wordStarts_lead (g r : jsstring) :
  isBlank g = true -> wordStarts true (g ++ r) = wordStarts true r.
Proof.
  induction g as [|x g IH]; intros H; [reflexivity|].
  simpl in *. apply andb_true_iff in H as [-> H]. apply IH. exact H.
Qed.

Lemma wordStarts_gap (b : bool) (g r : jsstring) :
  isGap g -> wordStarts b (g ++ r) = wordStarts true r.
Proof.
  intros [Hne Hg]. destruct g as [|x g]; [congruence|].
  simpl in *. apply andb_true_iff in Hg as [-> Hg].
  apply wordStarts_lead. exact Hg.
Qed.

Lemma wordStarts_word (w r : jsstring) :
  isWord w -> wordStarts true (w ++ r) = S (wordStarts false r).
Proof.
  intros [Hne Hw]. destruct w as [|x w]; [congruence|].
  simpl in *. apply andb_true_iff in Hw as [Hx Hw].
  apply negb_true_iff in Hx. rewrite Hx. simpl. f_equal. clear Hne Hx.
  induction w as [|y w IH]; [reflexivity|].
  simpl in *. apply andb_true_iff in Hw as [Hy Hw].
  apply negb_true_iff in Hy. rewrite Hy. simpl. apply IH. exact Hw.
Qed.

Lemma countWords_wordStarts (text : jsstring) :
  countWords text = wordStarts true text.
Proof.
  destruct (trim_infix text) as (a & b & Ht & Ha & Hb).
  rewrite Ht at 2.
  rewrite wordStarts_lead, wordStarts_trail by assumption.
  unfold countWords, splitBy.
  destruct (trim text) as [|x s]; [reflexivity|].
  apply (@splitLoop_words (length (x :: s))); simpl; lia.
Qed.

(** X7.  [countWords] counts the words of a text, the maximal runs of
    code units that are not white space: a text of white space only has 0
    words, and a text made of a word followed by [n] times a gap and a
    word, with or without white space before and after, has [n + 1]
    words. *)
Theorem countWords_counts_words (text : jsstring) :
  (isBlank text = true -> countWords text = 0)
  /\ (forall lead w rest trail,
        isBlank lead = true ->
        isBlank trail = true ->
        isWord w ->
        Forall (fun gw => isGap (fst gw) /\ isWord (snd gw)) rest ->
        text = lead ++ spaced w rest ++ trail ->
        countWords text = S (length rest)).
Proof.
  rewrite countWords_wordStarts. split; [apply wordStarts_blank|].
  intros lead w rest trail Hlead Htrail Hw Hrest ->.
  rewrite wordStarts_lead by exact Hlead. unfold spaced.
  rewrite <- app_assoc, wordStarts_word by exact Hw. f_equal.
  induction Hrest as [|[g w'] rest [Hg Hw'] _ IH].
  - apply wordStarts_blank. exact Htrail.
  - cbn [map concat fst snd length]. rewrite <- !app_assoc.
    rewrite wordStarts_gap by exact Hg.
    rewrite wordStarts_word by exact Hw'. f_equal. exact IH.
Qed.

Lemma countWords_counts_words_witness :
  countWords (js "  this Agreement is" ++ LF) = 3.
Proof.
  apply (countWords_counts_words (js "  this Agreement is" ++ LF))
    with (lead := js "  ") (w := js "this")
         (rest := [(js " ", js "Agreement"); (js " ", js "is")])
         (trail := LF).
  - reflexivity.
  - reflexivity.
  - split; [discriminate | reflexivity].
  - repeat constructor; discriminate.
  - reflexivity.
Defined.

(** ** The matcher finds every match *)

Lemma lastOr_app (prev : option char) (a b : jsstring) :
  lastOr prev (a ++ b) = lastOr (lastOr prev a) b.
Proof.
  unfold lastOr. rewrite rev_app_distr.
  destruct (rev b); [rewrite app_nil_l|]; reflexivity.
Qed.

Lemma starLoop_fallback
    (body : option char -> jsstring -> capture -> cont -> option mresult)
    (k : cont) (fuel : nat) (prev : option char) (s : jsstring)
    (c : capture) :
  k prev s c <> None -> starLoop body k fuel prev s c <> None.
Proof.
  intros Hk. destruct fuel as [|fuel]; [exact Hk|]. cbn [starLoop].
  destruct (body prev s c _); [discriminate | exact Hk].
Qed.

(** When the pattern has a match that the continuation accepts, the
    matcher does not fail. *)
Lemma rmatch_complete r prev s c prev' s' c' :
  Matches r prev s c prev' s' c' ->
  forall k : cont,
    k prev' s' c' <> None ->
    rmatch r prev s c k <> None
    /\ forall r0 fuel,
         r = Star r0 ->
         length s <= fuel ->
         starLoop (rmatch r0) k fuel prev s c <> None.
Proof.
  induction 1 as
    [prev s c | p prev x s c Hp
    | r1 r2 prev s c prev1 s1 c1 prev2 s2 c2 _ IH1 _ IH2
    | r1 r2 prev s c prev1 s1 c1 _ IH | r1 r2 prev s c prev1 s1 c1 _ IH
    | r prev s c
    | r prev s c prev1 s1 c1 prev2 s2 c2 _ IH1 Hlen _ IH2
    | r prev s c prev1 s1 c1 _ IH | prev s c Hb];
    intros k Hk.
  - split; [exact Hk | discriminate].
  - split; [simpl; rewrite Hp; exact Hk | discriminate].
  - split; [|discriminate]. simpl. apply IH1. apply IH2. exact Hk.
  - split; [|discriminate]. simpl.
    destruct (rmatch r1 prev s c k) eqn:E; [discriminate|].
    exfalso. exact (proj1 (IH k Hk) E).
  - split; [|discriminate]. simpl.
    destruct (rmatch r1 prev s c k); [discriminate|]. apply IH. exact Hk.
  - split; [rewrite rmatch_Star|intros r0 fuel _ _];
      apply starLoop_fallback; exact Hk.
  - assert (Hloop : forall fuel,
              length s <= fuel ->
              starLoop (rmatch r) k fuel prev s c <> None).
    { intros fuel Hfuel. destruct fuel as [|fuel]; [lia|]. cbn [starLoop].
      match goal with
      | |- match rmatch r prev s c ?k' with _ => _ end <> None =>
          assert (Hbody : rmatch r prev s c k' <> None)
      end.
      { apply IH1.
        replace (length s1 <? length s) with true
          by (symmetry; apply Nat.ltb_lt; exact Hlen).
        apply (proj2 (IH2 k Hk) r fuel eq_refl). lia. }
      match goal with
      | |- match ?m with _ => _ end <> None => destruct m
      end; [discriminate | congruence]. }
    split; [rewrite rmatch_Star; apply Hloop; apply le_n|].
    intros r0 fuel [= <-]. apply Hloop.
  - split; [|discriminate]. simpl. apply IH. exact Hk.
  - split; [simpl; rewrite Hb; exact Hk | discriminate].
Qed.

Lemma exec_complete (r : regex) (pre s : jsstring) :
  forall prev prev' s' c',
    Matches r (lastOr prev pre) s None prev' s' c' ->
    exec r prev (pre ++ s) <> None.
Proof.
  induction pre as [|x pre IH]; intros prev prev' s' c' M;
    rewrite exec_unfold;
    destruct (matchHere r prev _) as [[s0 c0]|] eqn:E; try discriminate.
  - exfalso. revert E. unfold matchHere.
    apply (rmatch_complete M). discriminate.
  - cbn [app].
    assert (H : exec r (Some x) (pre ++ s) <> None).
    { apply (IH (Some x) prev' s' c').
      replace (lastOr (Some x) pre) with (lastOr prev (x :: pre));
        [exact M|].
      unfold lastOr. simpl. destruct (rev pre); reflexivity. }
    destruct (exec r (Some x) (pre ++ s)); [discriminate | congruence].
Qed.

(** A text of the language of a pattern without [\b] is matched wherever
    it stands. *)
Lemma InLang_Matches (r : regex) (m : jsstring) :
  InLang r m ->
  noBoundary r = true ->
  forall prev rest c,
    exists c', Matches r prev (m ++ rest) c (lastOr prev m) rest c'.
Proof.
  induction 1 as
    [| p x Hp | r1 r2 m1 m2 _ IH1 _ IH2 | r1 r2 m _ IH | r1 r2 m _ IH
     | r | r m1 m2 _ IH1 _ IH2 | r m _ IH |];
    intros Hnb prev rest c; simpl in Hnb; try discriminate.
  - exists c. constructor.
  - exists c. constructor. exact Hp.
  - apply andb_true_iff in Hnb as [H1 H2].
    destruct (IH1 H1 prev (m2 ++ rest) c) as [c1 M1].
    destruct (IH2 H2 (lastOr prev m1) rest c1) as [c2 M2].
    exists c2. rewrite <- app_assoc, lastOr_app.
    eapply M_Seq; eassumption.
  - apply andb_true_iff in Hnb as [H1 _].
    destruct (IH H1 prev rest c) as [c1 M1].
    exists c1. apply M_AltL. exact M1.
  - apply andb_true_iff in Hnb as [_ H2].
    destruct (IH H2 prev rest c) as [c1 M1].
    exists c1. apply M_AltR. exact M1.
  - exists c. constructor.
  - destruct m1 as [|x m1].
    + apply (IH2 Hnb).
    + destruct (IH1 Hnb prev (m2 ++ rest) c) as [c1 M1].
      destruct (IH2 Hnb (lastOr prev (x :: m1)) rest c1) as [c2 M2].
      exists c2. rewrite <- app_assoc, lastOr_app.
      eapply M_StarS; [exact M1 | | exact M2].
      simpl. rewrite !length_app. lia.
  - destruct (IH Hnb prev rest c) as [c1 M1].
    eexists. eapply M_Group. exact M1.
Qed.

Lemma exec_finds (r : regex) (pre m post : jsstring) :
  noBoundary r = true ->
  InLang r m ->
  exec r None (pre ++ m ++ post) <> None.
Proof.
  intros Hnb L.
  destruct (@InLang_Matches r m L Hnb (lastOr None pre) post None)
    as [c' M].
  exact (@exec_complete r pre (m ++ post) None _ _ _ M).
Qed.

(** ** The type of a contract *)

Lemma ci_plain (c x : char) :
  (c < 128)%N -> isUpper c = false ->
  (ci c x = true <-> asciiLowerChar x = c).
Proof.
  unfold ci, canonicalizeASCII, asciiLowerChar, isLower, isUpper.
  intros Hc Hu.
  rewrite andb_true_iff, N.ltb_lt, N.eqb_eq.
  apply andb_false_iff in Hu.
  rewrite N.leb_gt, N.leb_gt in Hu.
  destruct (N.leb_spec 97 x), (N.leb_spec x 122), (N.leb_spec 97 c),
    (N.leb_spec c 122), (N.leb_spec 65 x), (N.leb_spec x 90);
    cbn [andb]; lia.
Qed.

Lemma InLang_litCI (s m : jsstring) :
  plain s -> (InLang (litCI s) m <-> asciiToLowerCase m = s).
Proof.
  intros Hs. revert m. induction Hs as [|c s [Hc Hu] _ IH]; intros m; simpl.
  - split.
    + intros H. apply InLang_Empty in H. subst m. reflexivity.
    + intros H. apply map_eq_nil in H. subst m. constructor.
  - split.
    + intros H. apply InLang_Seq in H as (m1 & m2 & -> & H1 & H2).
      apply InLang_Chr in H1 as (x & -> & Hx).
      apply (ci_plain x Hc Hu) in Hx. apply IH in H2.
      unfold asciiToLowerCase in *. simpl. rewrite Hx, H2. reflexivity.
    + destruct m as [|x m]; [discriminate|]. simpl. intros [= Hx Hm].
      change (x :: m) with ([x] ++ m). constructor.
      * constructor. apply (ci_plain x Hc Hu). exact Hx.
      * apply IH. exact Hm.
Qed.

Lemma noBoundary_litCI (s : jsstring) : noBoundary (litCI s) = true.
Proof. induction s as [|x s IH]; [reflexivity | exact IH]. Qed.

Lemma InLang_Plus_Chr_intro (p : char -> bool) (m : jsstring) :
  m <> [] -> Forall (fun x => p x = true) m -> InLang (Plus (Chr p)) m.
Proof.
  intros Hne Hall. destruct m as [|x m]; [congruence|].
  inversion Hall as [|? ? Hx Hm]; subst.
  change (x :: m) with ([x] ++ m). constructor; [constructor; exact Hx|].
  clear Hne Hall Hx. induction Hm as [|y m Hy _ IH]; [constructor|].
  change (y :: m) with ([y] ++ m). constructor; [constructor; exact Hy|].
  exact IH.
Qed.

(** The texts that [\w+\s+keyword] matches. *)
Lemma InLang_typedAs (keyword m : jsstring) :
  plain keyword ->
  (InLang (typedAs keyword) m <->
   exists w g kw,
     m = w ++ g ++ kw
     /\ (w <> [] /\ Forall (fun x => isWordChar x = true) w)
     /\ (g <> [] /\ Forall (fun x => isWhiteSpace x = true) g)
     /\ asciiToLowerCase kw = keyword).
Proof.
  intros Hk. unfold typedAs. split.
  - intros H. apply InLang_Seq in H as (w & m1 & -> & Hw & H).
    apply InLang_Seq in H as (g & kw & -> & Hg & Hkw).
    apply InLang_Plus_Chr in Hw. apply InLang_Plus_Chr in Hg.
    apply (InLang_litCI kw Hk) in Hkw.
    exists w, g, kw. auto.
  - intros (w & g & kw & -> & [Hw1 Hw2] & [Hg1 Hg2] & Hkw).
    constructor; [apply InLang_Plus_Chr_intro; assumption|].
    constructor; [apply InLang_Plus_Chr_intro; assumption|].
    apply (InLang_litCI kw Hk). exact Hkw.
Qed.

Lemma lower_letters_word (m s : jsstring) :
  asciiToLowerCase m = s ->
  Forall (fun c => isLower c = true) s ->
  Forall (fun x => isWordChar x = true) m.
Proof.
  intros <- H. induction m as [|x m IH]; [constructor|].
  inversion H as [|? ? Hx Hm]; subst. constructor; [|exact (IH Hm)].
  unfold asciiLowerChar in Hx. unfold isWordChar.
  fold (isUpper x) in Hx.
  destruct (isUpper x); [reflexivity|]. rewrite Hx. reflexivity.
Qed.

(** What the first two patterns find is a phrase, and group 1 holds it. *)
Lemma exec_anyType (keyword content : jsstring) (f : found) :
  plain keyword ->
  exec (anyTypePattern keyword) None content = Some f ->
  exists m,
    f_group f = Some m /\ m <> [] /\ typePhrase keyword content m.
Proof.
  intros Hk H. apply exec_sound in H as (Hcontent & _ & prev' & M).
  unfold anyTypePattern in M.
  apply Matches_Seq_inv in M as (p1 & s1 & c1 & Mo & Mg).
  apply Matches_InLang in Mo as (m0 & Hs & _ & _).
  apply Matches_Group_inv in Mg as (Hg & c0 & Mb).
  apply Matches_InLang in Mb as (m & -> & Lb & _).
  rewrite firstn_consumed in Hg.
  apply (InLang_typedAs m Hk) in Lb
    as (w & g & kw & Hm & Hw & Hgap & Hkw).
  exists m. split; [exact Hg|]. split.
  - rewrite Hm. destruct Hw as [Hne _].
    destruct w; [congruence | discriminate].
  - exists (f_before f ++ m0), w, g, kw, (f_rest f).
    repeat split; try tauto.
    rewrite Hcontent, Hs, <- !app_assoc. reflexivity.
Qed.

(** The first two patterns find a phrase when there is one. *)
Lemma exec_anyType_complete (keyword content m : jsstring) :
  plain keyword ->
  typePhrase keyword content m ->
  exec (anyTypePattern keyword) None content <> None.
Proof.
  intros Hk (pre & w & g & kw & post & -> & Hm & Hw & Hg & Hkw).
  apply exec_finds.
  - simpl. rewrite !noBoundary_litCI. reflexivity.
  - unfold anyTypePattern. change m with ([] ++ m). constructor.
    + apply L_AltR. constructor.
    + constructor. apply (InLang_typedAs m Hk).
      exists w, g, kw. auto.
Qed.

(** What one of the last four patterns finds ends with a phrase of the
    first pattern. *)
Lemma exec_namedType (prefix tail content : jsstring) (f : found) :
  plain (prefix ++ tail) ->
  tail <> [] ->
  Forall (fun c => isLower c = true) tail ->
  exec (namedTypePattern (prefix ++ tail)) None content = Some f ->
  exists m, typePhrase (js "agreement") content m.
Proof.
  intros Hp Hne Htail H. apply exec_sound in H as (Hcontent & L & _).
  unfold namedTypePattern in L. apply InLang_Group in L.
  apply InLang_Seq in L as (n & m1 & Hfm & Hn & L).
  apply InLang_Seq in L as (g & kw & -> & Hg & Hkw).
  apply (InLang_litCI n Hp) in Hn.
  apply InLang_Plus_Chr in Hg.
  apply InLang_litCI in Hkw;
    [|repeat constructor; reflexivity].
  unfold asciiToLowerCase in Hn.
  apply map_eq_app in Hn as (n1 & w & -> & _ & Hw).
  exists (w ++ g ++ kw), (f_before f ++ n1), w, g, kw, (f_rest f).
  split; [|split; [reflexivity|split; [|split; [exact Hg | exact Hkw]]]].
  - rewrite Hcontent, Hfm, <- !app_assoc. reflexivity.
  - split.
    + intros ->. simpl in Hw. congruence.
    + exact (@lower_letters_word w tail Hw Htail).
Qed.

Section ContractTypeFacts.

Variable toLowerCase : jsstring -> jsstring.

Local Abbreviation firstType := (firstType toLowerCase).
Local Abbreviation extractContractType := (extractContractType toLowerCase).

Lemma firstType_decides (pattern : regex) (rest : list regex)
    (content : jsstring) (f : found) (m : jsstring) :
  exec pattern None content = Some f ->
  f_group f = Some m ->
  m <> [] ->
  firstType (pattern :: rest) content = Some (toLowerCase m).
Proof.
  intros He Hg Hm. cbn [DocumentProcessor.firstType]. rewrite He, Hg.
  destruct m; [congruence | reflexivity].
Qed.

Lemma firstType_skips (pattern : regex) (rest : list regex)
    (content : jsstring) :
  exec pattern None content = None ->
  firstType (pattern :: rest) content = firstType rest content.
Proof. intros He. cbn [DocumentProcessor.firstType]. rewrite He. reflexivity. Qed.

Lemma plain_agreement : plain (js "agreement").
Proof. repeat constructor. Qed.

Lemma plain_contract : plain (js "contract").
Proof. repeat constructor. Qed.

(** Without a phrase that ends in [agreement], the last four patterns
    find nothing. *)
Lemma named_patterns_skipped (content : jsstring) :
  ~ (exists m, typePhrase (js "agreement") content m) ->
  firstType (skipn 2 typePatterns) content = None.
Proof.
  intros Hno. cbn [skipn typePatterns].
  assert (Hskip : forall prefix tail rest,
            plain (prefix ++ tail) ->
            tail <> [] ->
            Forall (fun c => isLower c = true) tail ->
            firstType (namedTypePattern (prefix ++ tail) :: rest) content
            = firstType rest content).
  { intros prefix tail rest Hp Hne Htail. apply firstType_skips.
    destruct (exec _ None content) as [f|] eqn:E; [|reflexivity].
    exfalso. apply Hno.
    exact (@exec_namedType prefix tail content f Hp Hne Htail E). }
  rewrite (Hskip (js "non-") (js "disclosure"))
    by (repeat constructor || discriminate).
  rewrite (Hskip [] (js "service")) by (repeat constructor || discriminate).
  rewrite (Hskip [] (js "employment"))
    by (repeat constructor || discriminate).
  rewrite (Hskip [] (js "license")) by (repeat constructor || discriminate).
  reflexivity.
Qed.

(** X8.  [extractContractType] finds a phrase made of a run of word
    characters, white space and the word [agreement] or [contract] in any
    case.  When the content has a phrase that ends in [agreement], the
    result is such a phrase in lower case; when it has none but has a
    phrase that ends in [contract], the result is such a phrase in lower
    case; when it has neither, there is no result.  The last four patterns
    of the list never decide: the first two alone give the same result. *)
Theorem extractContractType_phrase (content : jsstring) :
  ((exists m, typePhrase (js "agreement") content m) ->
   exists m, typePhrase (js "agreement") content m
             /\ extractContractType content = Some (toLowerCase m))
  /\ (~ (exists m, typePhrase (js "agreement") content m) ->
      (exists m, typePhrase (js "contract") content m) ->
      exists m, typePhrase (js "contract") content m
                /\ extractContractType content = Some (toLowerCase m))
  /\ (~ (exists m, typePhrase (js "agreement") content m) ->
      ~ (exists m, typePhrase (js "contract") content m) ->
      extractContractType content = None)
  /\ extractContractType content = firstType (firstn 2 typePatterns) content.
Proof.
  unfold DocumentProcessor.extractContractType.
  change typePatterns
    with (anyTypePattern (js "agreement")
          :: anyTypePattern (js "contract") :: skipn 2 typePatterns).
  cbn [firstn].
  destruct (exec (anyTypePattern (js "agreement")) None content)
    as [f|] eqn:E1.
  - destruct (@exec_anyType _ content f plain_agreement E1) as (m & Hg & Hne & Hm).
    rewrite !(@firstType_decides _ _ content f m E1 Hg Hne).
    split; [intros _; exists m; auto|].
    split; [intros Hno; exfalso; apply Hno; exists m; exact Hm|].
    split; [intros Hno; exfalso; apply Hno; exists m; exact Hm|].
    reflexivity.
  - assert (Hno : ~ (exists m, typePhrase (js "agreement") content m)).
    { intros [m Hm].
      exact (@exec_anyType_complete _ content m plain_agreement Hm E1). }
    rewrite !(@firstType_skips _ _ content E1).
    split; [intros H; exfalso; exact (Hno H)|].
    destruct (exec (anyTypePattern (js "contract")) None content)
      as [f|] eqn:E2.
    + destruct (@exec_anyType _ content f plain_contract E2) as (m & Hg & Hne & Hm).
      rewrite !(@firstType_decides _ _ content f m E2 Hg Hne).
      split; [intros _ _; exists m; auto|].
      split; [intros _ Hno2; exfalso; apply Hno2; exists m; exact Hm|].
      reflexivity.
    + rewrite !(@firstType_skips _ _ content E2).
      rewrite (@named_patterns_skipped content Hno).
      split; [|split; reflexivity].
      intros _ [m Hm]. exfalso.
      exact (@exec_anyType_complete _ content m plain_contract Hm E2).
Qed.

End ContractTypeFacts.

(** ** What [parseAIResponse] parses, and how it fails *)

Lemma afterLast_Some (stop : char) (s rest : jsstring) :
  afterLast stop s = Some rest ->
  exists mid, s = mid ++ stop :: rest /\ ~ In stop rest.
Proof.
  revert rest. induction s as [|x t IH]; intros rest; simpl; [discriminate|].
  destruct (afterLast stop t) as [r|] eqn:E.
  - intros [= ->]. destruct (IH rest eq_refl) as (mid & -> & Hno).
    exists (x :: mid). auto.
  - destruct (stop =? x)%N eqn:Ex; [|discriminate].
    apply N.eqb_eq in Ex. intros [= <-]. subst x. exists []. split;
      [reflexivity|].
    clear IH. induction t as [|y t IHt]; [intros []|].
    simpl in E. destruct (afterLast stop t); [discriminate|].
    destruct (stop =? y)%N eqn:Ey; [discriminate|].
    apply N.eqb_neq in Ey. intros [H | H]; [congruence|].
    exact (IHt eq_refl H).
Qed.

Lemma afterLast_None (stop : char) (s : jsstring) :
  afterLast stop s = None -> ~ In stop s.
Proof.
  induction s as [|x t IH]; simpl; [tauto|].
  destruct (afterLast stop t); [discriminate|].
  destruct (stop =? x)%N eqn:Ex; [discriminate|].
  apply N.eqb_neq in Ex. intros _ [H | H]; [congruence|].
  exact (IH eq_refl H).
Qed.

(** A greedy star over any code unit followed by [stop] and nothing else
    reaches the last [stop]. *)
Lemma starLoop_upto_last (stop : char) (t : jsstring) :
  forall fuel prev c,
    length t <= fuel ->
    starLoop (rmatch (Chr anyChar))
      (fun p' s' c' =>
         rmatch (lit1 stop) p' s' c' (fun _ s'' c'' => Some (s'', c'')))
      fuel prev t c
    = match afterLast stop t with
      | Some rest => Some (rest, c)
      | None => None
      end.
Proof.
  induction t as [|x t IH]; intros fuel prev c Hfuel.
  - destruct fuel; reflexivity.
  - destruct fuel as [|fuel]; [simpl in Hfuel; lia|].
    simpl in Hfuel. cbn [starLoop rmatch lit1 afterLast anyChar].
    replace (length t <? length (x :: t)) with true
      by (symmetry; apply Nat.ltb_lt; simpl; lia).
    rewrite IH by lia.
    destruct (afterLast stop t) as [rest|]; [reflexivity|].
    destruct (stop =? x)%N; reflexivity.
Qed.

Lemma matchHere_json (prev : option char) (s : jsstring) :
  matchHere jsonPattern prev s =
  match s with
  | x :: t =>
      if (123 =? x)%N
      then match afterLast 125%N t with
           | Some rest => Some (rest, None)
           | None => None
           end
      else None
  | [] => None
  end.
Proof.
  unfold matchHere, jsonPattern. destruct s as [|x t]; [reflexivity|].
  cbn [rmatch lit1]. destruct (123 =? x)%N; [|reflexivity].
  exact (@starLoop_upto_last 125%N t (length t) (Some x) None (le_n _)).
Qed.

(** What [exec] finds with the pattern of the JSON text. *)
Lemma exec_json (text : jsstring) :
  forall prev,
    match exec jsonPattern prev text with
    | Some f =>
        text = f_before f ++ f_match f ++ f_rest f
        /\ (exists mid, f_match f = 123%N :: mid ++ [125%N])
        /\ ~ In 123%N (f_before f)
        /\ ~ In 125%N (f_rest f)
    | None => braceFree text
    end.
Proof.
  induction text as [|x t IH]; intros prev; rewrite exec_unfold,
    matchHere_json.
  - intros pre mid post H. symmetry in H.
    apply app_eq_nil in H as [_ H]. discriminate H.
  - destruct (123 =? x)%N eqn:Ex.
    + apply N.eqb_eq in Ex. subst x.
      destruct (afterLast 125%N t) as [rest|] eqn:El.
      * apply afterLast_Some in El as (mid & -> & Hno).
        cbn [f_before f_match f_rest].
        replace (123%N :: mid ++ 125%N :: rest)
          with ((123%N :: mid ++ [125%N]) ++ rest)
          by (simpl; rewrite <- app_assoc; reflexivity).
        rewrite firstn_consumed.
        split; [reflexivity|]. split; [exists mid; reflexivity|].
        split; [intros [] | exact Hno].
      * apply afterLast_None in El.
        assert (Hfree : braceFree (123%N :: t)).
        { intros pre mid post H. apply El.
          destruct pre as [|y pre]; injection H as H; subst t;
            rewrite ?in_app_iff; simpl; rewrite ?in_app_iff; simpl; tauto. }
        specialize (IH (Some 123%N)).
        destruct (exec jsonPattern (Some 123%N) t) as [f|]; [|exact Hfree].
        exfalso. destruct IH as (Ht & [mid Hm] & _).
        apply El. rewrite Ht, Hm.
        rewrite !in_app_iff. right. left. simpl. right.
        rewrite in_app_iff. right. left. reflexivity.
    + apply N.eqb_neq in Ex. specialize (IH (Some x)).
      destruct (exec jsonPattern (Some x) t) as [f|].
      * destruct IH as (Ht & Hm & Hb & Hr).
        cbn [f_before f_match f_rest].
        split; [simpl; f_equal; exact Ht|]. split; [exact Hm|].
        split; [|exact Hr]. intros [H | H]; [congruence | exact (Hb H)].
      * intros pre mid post H. destruct pre as [|y pre].
        -- injection H as -> _. congruence.
        -- injection H as _ H. exact (IH pre mid post H).
Qed.

Lemma matchFirst_json (text : jsstring) :
  (matchFirst text jsonPattern = None /\ braceFree text)
  \/ exists json,
       matchFirst text jsonPattern = Some json /\ jsonExtent text json.
Proof.
  unfold matchFirst. pose proof (exec_json text None) as H.
  destruct (exec jsonPattern None text) as [f|]; [right | left; auto].
  destruct H as (Ht & [mid Hm] & Hb & Hr).
  exists (f_match f). split; [reflexivity|].
  exists (f_before f), mid, (f_rest f). auto.
Qed.

Section ParseOutcome.

Variable JSON_parse : jsstring -> option JSValue.
Variable ToNumberOther : JSValue -> float.

(** X9.  [parseAIResponse] hands to [JSON.parse] the part of the response
    from its first [{] to its last [}], and every call either returns or
    throws an error whose message begins with [Failed to parse AI
    response: ].  The error wraps [No JSON found in AI response] exactly
    when no [{] of the response has a [}] after it; otherwise it wraps the
    SyntaxError of [JSON.parse], the TypeError of reading [summary] on
    [null], or [Invalid analysis structure] for a parsed value whose
    [summary] is falsy or whose [riskScore] is not a number.  A call
    returns exactly when the parsed value is an object with a truthy
    [summary] and a number for [riskScore]. *)
Theorem parseAIResponse_outcome (text : jsstring) :
  (braceFree text ->
   parseAIResponse JSON_parse ToNumberOther text
   = Throws (Wrapped (js "Failed to parse AI response: ")
               (Err (js "No JSON found in AI response"))))
  /\ (forall json,
        jsonExtent text json ->
        matchFirst text jsonPattern = Some json
        /\ parseAIResponse JSON_parse ToNumberOther text
           = match JSON_parse json with
             | None =>
                 Throws (Wrapped (js "Failed to parse AI response: ")
                           SyntaxErr)
             | Some JNull =>
                 Throws (Wrapped (js "Failed to parse AI response: ")
                           TypeErr)
             | Some (JObject props) =>
                 if truthyValue (lookup (js "summary") props)
                    && isNumber (lookup (js "riskScore") props)
                 then Returns (JObject (assigned ToNumberOther props))
                 else Throws (Wrapped (js "Failed to parse AI response: ")
                                (Err (js "Invalid analysis structure")))
             | Some _ =>
                 Throws (Wrapped (js "Failed to parse AI response: ")
                           (Err (js "Invalid analysis structure")))
             end)
  /\ (braceFree text \/ exists json, jsonExtent text json).
Proof.
  destruct (matchFirst_json text) as [[Hm Hfree] | (json & Hm & Hext)].
  - split; [|split].
    + intros _. unfold parseAIResponse, parseBody. rewrite Hm. reflexivity.
    + intros json (pre & mid & post & Ht & -> & _). exfalso.
      apply (Hfree pre mid post). rewrite Ht. simpl.
      rewrite <- app_assoc. reflexivity.
    + left. exact Hfree.
  - split; [|split].
    + intros Hfree. exfalso.
      destruct Hext as (pre & mid & post & Ht & -> & _).
      apply (Hfree pre mid post). rewrite Ht. simpl.
      rewrite <- app_assoc. reflexivity.
    + intros json' Hext'.
      assert (json' = json) as ->.
      { destruct (matchFirst_json text) as [[Hm' _] | (j & Hm' & _)];
          [congruence|].
        clear Hm'. clear j.
        destruct Hext as (pre & mid & post & Ht & Hj & Hb & Hr).
        destruct Hext' as (pre' & mid' & post' & Ht' & Hj' & Hb' & Hr').
        subst json json'. rewrite Ht in Ht'. clear Ht.
        assert (Hpre : pre = pre').
        { clear Hr Hr'. revert pre' Hb' Ht'.
          induction pre as [|x pre IH]; intros [|y pre'] Hb' Ht'.
          - reflexivity.
          - exfalso. injection Ht' as <- _. apply Hb'. left. reflexivity.
          - exfalso. injection Ht' as -> _. apply Hb. left. reflexivity.
          - injection Ht' as <- Ht'. f_equal.
            apply IH; [| |exact Ht'].
            + intros H. apply Hb. right. exact H.
            + intros H. apply Hb'. right. exact H. }
        subst pre'. apply app_inv_head in Ht'.
        injection Ht' as Ht'. rewrite <- !app_assoc in Ht'.
        apply (f_equal (@rev char)) in Ht'.
        rewrite !rev_app_distr in Ht'. simpl in Ht'.
        rewrite <- !app_assoc in Ht'. simpl in Ht'.
        assert (Hpost : rev post = rev post').
        { assert (Hr1 : ~ In 125%N (rev post))
            by (rewrite <- in_rev; exact Hr).
          assert (Hr2 : ~ In 125%N (rev post'))
            by (rewrite <- in_rev; exact Hr').
          revert Hr1 Hr2 Ht'. generalize (rev post) (rev post').
          intros a. induction a as [|x a IH]; intros [|y b] Ha Hb0 H.
          - reflexivity.
          - exfalso. injection H as <- _. apply Hb0. left. reflexivity.
          - exfalso. injection H as -> _. apply Ha. left. reflexivity.
          - injection H as <- H. f_equal.
            apply IH; [| |exact H].
            + intros H1. apply Ha. right. exact H1.
            + intros H1. apply Hb0. right. exact H1. }
        rewrite Hpost in Ht'. apply app_inv_head in Ht'.
        injection Ht' as Ht'. apply (f_equal (@rev char)) in Ht'.
        rewrite !rev_involutive in Ht'. rewrite Ht'. reflexivity. }
      split; [exact Hm|].
      unfold parseAIResponse, parseBody. rewrite Hm.
      destruct (JSON_parse json) as [[| b | n | s | xs | props]|];
        try reflexivity.
      cbn [getProp bind].
      destruct (truthyValue (lookup (js "summary") props));
        destruct (isNumber (lookup (js "riskScore") props)); reflexivity.
    + right. exists json. exact Hext.
Qed.

End ParseOutcome.

(** ** What [normalizeText] keeps *)

Lemma collapse_true (t : jsstring) :
  collapse true t = collapse false (trimStart t).
Proof.
  induction t as [|x t IH]; [reflexivity|]. simpl.
  destruct (isWhiteSpace x) eqn:E; [exact IH|].
  simpl. rewrite E. reflexivity.
Qed.

Lemma collapse_word (w r : jsstring) :
  forallb (fun x => negb (isWhiteSpace x)) w = true ->
  collapse false (w ++ r) = w ++ collapse false r.
Proof.
  induction w as [|x w IH]; intros H; [reflexivity|].
  simpl in *. apply andb_true_iff in H as [Hx H].
  apply negb_true_iff in Hx. rewrite Hx, IH by exact H. reflexivity.
Qed.

Lemma collapse_words (w : jsstring) :
  forallb (fun x => negb (isWhiteSpace x)) w = true ->
  collapse false w = w.
Proof.
  intros H. rewrite <- (app_nil_r w) at 1.
  rewrite collapse_word by exact H. apply app_nil_r.
Qed.

Lemma trimStart_lead (g r : jsstring) :
  isBlank g = true -> trimStart (g ++ r) = trimStart r.
Proof.
  induction g as [|x g IH]; intros H; [reflexivity|].
  simpl in *. apply andb_true_iff in H as [-> H]. exact (IH H).
Qed.

Lemma collapse_gap (g r : jsstring) :
  isGap g -> collapse false (g ++ r) = 32%N :: collapse false (trimStart r).
Proof.
  intros [Hne Hg]. destruct g as [|x g]; [congruence|].
  simpl in *. apply andb_true_iff in Hg as [-> Hg].
  rewrite collapse_true, trimStart_lead by exact Hg. reflexivity.
Qed.

Lemma trimStart_word (w r : jsstring) :
  isWord w -> trimStart (w ++ r) = w ++ r.
Proof.
  intros [Hne Hw]. destruct w as [|x w]; [congruence|].
  simpl in *. apply andb_true_iff in Hw as [Hx _].
  apply negb_true_iff in Hx. rewrite Hx. reflexivity.
Qed.

(** What [exec] finds with [\s+]: the first run of white space. *)
Lemma exec_whitespace (s : jsstring) :
  forall prev,
    (exec whitespaceRun prev s = None
     /\ forallb (fun x => negb (isWhiteSpace x)) s = true)
    \/ exists pre x t,
         s = pre ++ x :: t
         /\ forallb (fun x => negb (isWhiteSpace x)) pre = true
         /\ isWhiteSpace x = true
         /\ exec whitespaceRun prev s
            = Some {| f_before := pre;
                      f_match :=
                        x :: firstn (length t - length (trimStart t)) t;
                      f_group := None;
                      f_rest := trimStart t |}.
Proof.
  unfold whitespaceRun.
  induction s as [|x t IH]; intros prev;
    rewrite exec_unfold, matchHere_whitespaceRun.
  - left. auto.
  - destruct (isWhiteSpace x) eqn:E.
    + right. exists [], x, t. repeat split; try assumption.
      cbn [length]. pose proof (trimStart_length t) as Hlen.
      replace (S (length t) - length (trimStart t))
        with (S (length t - length (trimStart t))) by lia.
      reflexivity.
    + destruct (IH (Some x))
        as [(Hex & Hall) | (pre & y & t' & -> & Hpre & Hy & Hex)];
        rewrite Hex.
      * left. simpl. rewrite E, Hall. auto.
      * right. exists (x :: pre), y, t'. simpl. rewrite E, Hpre. auto.
Qed.

Lemma scan_whitespace (n : nat) :
  forall s, length s <= n ->
  forall fuel prev, length s < fuel ->
  concat (map (fun g => seg_before g ++ js " ")
            (fst (scan fuel whitespaceRun prev s)))
  ++ snd (scan fuel whitespaceRun prev s)
  = collapse false s.
Proof.
  induction n as [|n IH]; intros s Hn fuel prev Hfuel;
    (destruct fuel as [|fuel]; [lia|]); rewrite scan_unfold;
    destruct (exec_whitespace s prev)
      as [(Hex & Hall) | (pre & x & t & -> & Hpre & Hx & Hex)];
    rewrite Hex.
  - simpl. symmetry. apply collapse_words. exact Hall.
  - rewrite length_app in Hn. simpl in Hn. lia.
  - simpl. symmetry. apply collapse_words. exact Hall.
  - cbn [f_before f_match f_rest f_group]. cbv zeta.
    rewrite !length_app in Hn, Hfuel. simpl in Hn, Hfuel.
    pose proof (trimStart_length t) as Hlen.
    match goal with
    | |- context [scan fuel whitespaceRun ?p (trimStart t)] =>
        specialize (IH (trimStart t) ltac:(lia) fuel p ltac:(lia));
        destruct (scan fuel whitespaceRun p (trimStart t)) as [segs tl]
    end.
    cbn [fst snd map concat seg_before] in *.
    rewrite <- !app_assoc, IH, collapse_word by exact Hpre.
    simpl. rewrite Hx, collapse_true. reflexivity.
Qed.

Lemma replaceAll_whitespace (s : jsstring) :
  replaceAll s whitespaceRun (js " ") = collapse false s.
Proof.
  unfold replaceAll.
  rewrite <- (@scan_whitespace (length s) s (le_n _) (S (length s)) None
                (le_n _)).
  unfold scanAll. destruct (scan _ _ _ s). reflexivity.
Qed.

(** A text that begins and ends with a code unit other than white space
    is what [trim] leaves of it between white space. *)
Lemma trim_tight (a b m r : jsstring) (x y : char) :
  isBlank a = true -> isBlank b = true ->
  isWhiteSpace x = false -> isWhiteSpace y = false ->
  rev (x :: m) = y :: r ->
  trim (a ++ (x :: m) ++ b) = x :: m.
Proof.
  intros Ha Hb Hx Hy Hr. unfold trim.
  cbn [app]. rewrite trimStart_app by exact Hx.
  apply trimStart_nil_iff in Ha. rewrite Ha. cbn [app].
  unfold trimEnd.
  change (x :: m ++ b) with ((x :: m) ++ b).
  rewrite rev_app_distr, Hr, trimStart_app by exact Hy.
  assert (Hb' : trimStart (rev b) = []).
  { apply trimStart_nil_iff. rewrite isBlank_rev. exact Hb. }
  rewrite Hb', <- Hr. cbn [app]. apply rev_involutive.
Qed.

Lemma isWord_last (w : jsstring) :
  isWord w -> exists y r, rev w = y :: r /\ isWhiteSpace y = false.
Proof.
  intros [Hne Hw]. destruct (rev w) as [|y r] eqn:E.
  - apply (f_equal (@rev char)) in E. rewrite rev_involutive in E.
    simpl in E. congruence.
  - exists y, r. split; [reflexivity|].
    assert (Hin : In y w) by (apply in_rev; rewrite E; left; reflexivity).
    rewrite forallb_forall in Hw. apply negb_true_iff. exact (Hw y Hin).
Qed.

(** A word followed by spaces and words ends as it begins, with a code
    unit that is not white space. *)
Lemma spaced_last (rest : list (jsstring * jsstring)) :
  forall w,
    isWord w ->
    Forall (fun gw => isWord (snd gw)) rest ->
    exists y r, rev (spaced w rest) = y :: r /\ isWhiteSpace y = false.
Proof.
  induction rest as [|[g w'] rest IH]; intros w Hw Hrest.
  - unfold spaced. simpl. rewrite app_nil_r. apply isWord_last. exact Hw.
  - inversion Hrest as [|? ? Hw' Hrest']; subst. cbn [snd] in Hw'.
    destruct (IH w' Hw' Hrest') as (y & r & Hr & Hy).
    unfold spaced in *. cbn [map concat fst snd].
    replace (w ++ (g ++ w') ++ concat (map (fun gw => fst gw ++ snd gw) rest))
      with ((w ++ g)
            ++ (w' ++ concat (map (fun gw => fst gw ++ snd gw) rest)))
      by (rewrite <- !app_assoc; reflexivity).
    rewrite rev_app_distr, Hr. eexists _, _. split; [reflexivity | exact Hy].
Qed.

Lemma collapse_spaced (rest : list (jsstring * jsstring)) (trail : jsstring) :
  Forall (fun gw => isGap (fst gw) /\ isWord (snd gw)) rest ->
  collapse false (concat (map (fun gw => fst gw ++ snd gw) rest) ++ trail)
  = concat (map (fun gw => js " " ++ snd gw) rest) ++ collapse false trail.
Proof.
  induction 1 as [|[g w] rest [Hg Hw] _ IH]; [reflexivity|].
  cbn [map concat fst snd]. rewrite <- !app_assoc.
  rewrite collapse_gap by exact Hg.
  rewrite trimStart_word by exact Hw.
  rewrite collapse_word by apply Hw.
  rewrite IH. reflexivity.
Qed.

Lemma collapse_blank (s : jsstring) :
  isBlank s = true -> isBlank (collapse false s) = true.
Proof.
  intros H. destruct s as [|x s]; [reflexivity|].
  simpl in *. apply andb_true_iff in H as [-> H].
  rewrite collapse_true.
  apply trimStart_nil_iff in H. rewrite H. reflexivity.
Qed.

Section NormalizeText.

Variable toLowerCase : jsstring -> jsstring.

(** X10.  [normalizeText], the normalization behind the fuzzy match,
    keeps the words of the text in lower case and nothing else: a text
    that is white space only once in lower case gives the empty string,
    and a text that reads, in lower case, as a word followed by gaps and
    words, with or without white space around, gives these words with one
    space for each gap. *)
Theorem normalizeText_words (text : jsstring) :
  (isBlank (toLowerCase text) = true -> normalizeText toLowerCase text = [])
  /\ (forall lead w rest trail,
        isBlank lead = true ->
        isBlank trail = true ->
        isWord w ->
        Forall (fun gw => isGap (fst gw) /\ isWord (snd gw)) rest ->
        toLowerCase text = lead ++ spaced w rest ++ trail ->
        normalizeText toLowerCase text
        = spaced w (map (fun gw => (js " ", snd gw)) rest)).
Proof.
  unfold normalizeText. rewrite replaceAll_whitespace. split.
  - intros H. apply trim_nil_iff, collapse_blank, H.
  - intros lead w rest trail Hlead Htrail Hw Hrest ->.
    assert (Hcollapse :
      collapse false (lead ++ spaced w rest ++ trail)
      = collapse false lead
        ++ spaced w (map (fun gw => (js " ", snd gw)) rest)
        ++ collapse false trail).
    { unfold spaced. rewrite map_map. cbn [fst snd].
      rewrite <- !app_assoc.
      rewrite <- collapse_spaced by exact Hrest.
      rewrite <- collapse_word by apply Hw.
      destruct lead as [|x lead]; [reflexivity|].
      rewrite collapse_gap by (split; [discriminate | exact Hlead]).
      rewrite trimStart_word by exact Hw.
      simpl in Hlead. apply andb_true_iff in Hlead as [Hx Hlead].
      simpl. rewrite Hx, collapse_true.
      apply trimStart_nil_iff in Hlead. rewrite Hlead. reflexivity. }
    rewrite Hcollapse.
    assert (Hwords : Forall (fun gw : jsstring * jsstring => isWord (snd gw))
                       (map (fun gw => (js " ", snd gw)) rest)).
    { apply Forall_map. eapply Forall_impl; [|exact Hrest].
      intros gw [_ H]. exact H. }
    destruct (spaced_last Hw Hwords) as (y & r & Hr & Hy).
    destruct (spaced w (map (fun gw => (js " ", snd gw)) rest))
      as [|x m] eqn:Em.
    + discriminate Hr.
    + apply (@trim_tight _ _ m r x y); try assumption.
      * apply collapse_blank. exact Hlead.
      * apply collapse_blank. exact Htrail.
      * destruct Hw as [Hne Hw]. destruct w as [|x' w]; [congruence|].
        unfold spaced in Em. injection Em as <- _.
        simpl in Hw. apply andb_true_iff in Hw as [Hx _].
        apply negb_true_iff. exact Hx.
Qed.

End NormalizeText.

Lemma normalizeText_words_witness :
  normalizeText asciiToLowerCase (js " The  Quick" ++ LF ++ js "fox ")
  = js "the quick fox".
Proof.
  apply (@normalizeText_words asciiToLowerCase
           (js " The  Quick" ++ LF ++ js "fox "))
    with (lead := js " ") (w := js "the")
         (rest := [(js "  ", js "quick"); (LF, js "fox")])
         (trail := js " ").
  - reflexivity.
  - reflexivity.
  - split; [discriminate | reflexivity].
  - repeat constructor; discriminate.
  - reflexivity.
Defined.

(** ** Rules that tie keep the order of the playbook *)

Section Stable.

Variable A : Type.
Variable cmp : A -> A -> Z.
Variable tie : A -> bool.

Hypothesis tie_class :
  forall x y, tie x = true -> (0 < cmp x y)%Z -> tie y = false.

Lemma insertBy_ties (x : A) (l : list A) :
  filter tie (insertBy cmp x l) = filter tie (x :: l).
Proof.
  induction l as [|y l IH]; [reflexivity|]. cbn [insertBy].
  destruct (cmp x y <=? 0)%Z eqn:E; [reflexivity|].
  apply Z.leb_gt in E. cbn [filter] in *. rewrite IH.
  destruct (tie x) eqn:Ex; [|reflexivity].
  rewrite (tie_class Ex E). reflexivity.
Qed.

Lemma sortBy_ties (l : list A) : filter tie (sortBy cmp l) = filter tie l.
Proof.
  induction l as [|x l IH]; [reflexivity|].
  cbn [sortBy]. rewrite insertBy_ties. cbn [filter]. rewrite IH.
  reflexivity.
Qed.

End Stable.

Lemma sameRank_true_iff (a r : Rule) :
  sameRank a r = true
  <-> rule_severity a = rule_severity r /\ orderIndex a = orderIndex r.
Proof.
  unfold sameRank. rewrite andb_true_iff, Nat.eqb_eq, Z.eqb_eq.
  split; intros [H1 H2]; split; try assumption.
  - apply severityRank_inj. exact H1.
  - rewrite H1. reflexivity.
Qed.

Lemma sameRank_compareRules (a x y : Rule) :
  sameRank a x = true -> compareRules a y = compareRules x y.
Proof.
  intros H. apply sameRank_true_iff in H as [Hs Hi].
  unfold compareRules. rewrite Hs, Hi. reflexivity.
Qed.

Lemma compareRules_zero (a r : Rule) :
  compareRules a r = 0%Z <-> sameRank a r = true.
Proof.
  rewrite sameRank_true_iff. unfold compareRules.
  destruct (rule_severity a), (rule_severity r); simpl;
    split; try discriminate; try lia;
    try (intros [H _]; discriminate H);
    try (intros H; split; [reflexivity | lia]).
Qed.

(** X11.  Rules with the same severity and the same [orderIndex] are
    listed in the prompt in the order in which the playbook holds them:
    among the sorted rules, those that tie with any rule [a] are the
    active rules of the playbook that tie with [a], in playbook order. *)
Theorem sortedRules_stable (playbook : Playbook) (a : Rule) :
  filter (sameRank a) (sortedRules playbook)
  = filter (sameRank a) (filter isActive (rules playbook)).
Proof.
  unfold sortedRules. apply sortBy_ties.
  intros x y Hx Hlt. destruct (sameRank a y) eqn:Hy; [|reflexivity].
  exfalso.
  rewrite <- (@sameRank_compareRules a x y Hx) in Hlt.
  apply compareRules_zero in Hy. lia.
Qed.

(** ** The MIME type of a file name *)

Lemma splitGo_char_last (c : char) (s : jsstring) :
  forall cur,
    exists rest,
      rev (splitGo [c] 0 cur s)
      = match afterLast c s with
        | Some ext => ext
        | None => rev cur ++ s
        end :: rest.
Proof.
  induction s as [|x t IH]; intros cur.
  - exists []. simpl. rewrite app_nil_r. reflexivity.
  - cbn [splitGo startsWith length Nat.sub afterLast].
    destruct (c =? x)%N eqn:E; cbn [andb].
    + destruct (IH []) as [rest Hrest]. exists (rest ++ [rev cur]).
      cbn [rev]. rewrite Hrest.
      destruct (afterLast c t); reflexivity.
    + destruct (IH (x :: cur)) as [rest Hrest]. exists rest.
      rewrite Hrest. cbn [rev]. rewrite <- app_assoc.
      destruct (afterLast c t); reflexivity.
Qed.

Lemma pop_split_dot (s : jsstring) :
  pop (split s (js ".")) = Some (extension s).
Proof.
  unfold pop, split, extension. change (js ".") with [46%N].
  destruct (@splitGo_char_last 46%N s []) as [rest ->]. reflexivity.
Qed.

Lemma mem_false_iff (x : jsstring) (l : list jsstring) :
  mem x l = false <-> ~ In x l.
Proof.
  rewrite <- mem_true_iff. destruct (mem x l); split; congruence.
Qed.

Section MimeTypeFacts.

Variable toLowerCase : jsstring -> jsstring.

(** X12.  [getMimeTypeFromName] looks at the extension of the file name
    in lower case, what follows its last dot or the whole name when it has
    no dot.  One of the five extensions of the table gives the type of
    the table.  Any other extension gives [application/octet-stream],
    unless it is the name of a property of [Object.prototype]: the result
    is then the inherited value, which is not a string. *)
Theorem getMimeTypeFromName_extension (filename : jsstring) :
  (forall type,
     In (extension (toLowerCase filename), type) mimeTypes ->
     getMimeTypeFromName toLowerCase filename = MimeString type)
  /\ ((forall type,
         ~ In (extension (toLowerCase filename), type) mimeTypes) ->
      ~ In (extension (toLowerCase filename)) objectPrototype ->
      getMimeTypeFromName toLowerCase filename
      = MimeString (js "application/octet-stream"))
  /\ (In (extension (toLowerCase filename)) objectPrototype ->
      getMimeTypeFromName toLowerCase filename
      = InheritedValue (extension (toLowerCase filename))).
Proof.
  unfold getMimeTypeFromName. rewrite pop_split_dot.
  set (ext := extension (toLowerCase filename)).
  assert (Hkey : (if truthy ext then ext else []) = ext)
    by (destruct ext; reflexivity).
  rewrite Hkey. split; [|split].
  - intros type Hin. simpl in Hin.
    repeat (destruct Hin as [[= <- <-] | Hin]; [reflexivity|]).
    destruct Hin.
  - intros Hnot Hproto.
    destruct (lookup ext mimeTypes) as [own|] eqn:L.
    + apply lookup_In in L. exfalso. exact (Hnot own L).
    + apply mem_false_iff in Hproto. rewrite Hproto. reflexivity.
  - intros Hproto.
    assert (L : lookup ext mimeTypes = None).
    { simpl in Hproto.
      repeat (destruct Hproto as [<- | Hproto]; [reflexivity|]).
      destruct Hproto. }
    rewrite L. apply mem_true_iff in Hproto. rewrite Hproto. reflexivity.
Qed.

End MimeTypeFacts.

Lemma getMimeTypeFromName_extension_witness :
  getMimeTypeFromName asciiToLowerCase (js "Lease.v2.DOCX")
  = MimeString
      (js "application/vnd.openxmlformats-officedocument.wordprocessingml.document").
Proof.
  apply (@getMimeTypeFromName_extension asciiToLowerCase
           (js "Lease.v2.DOCX")).
  left. reflexivity.
Defined.

(** ** Patterns with lazy quantifiers *)

Lemma lmatch_sound (r : lazyRegex) :
  forall prev s c (k : cont) res,
    lmatch r prev s c k = Some res ->
    exists prev' s' c',
      LMatches r prev s c prev' s' c' /\ k prev' s' c' = Some res.
Proof.
  induction r as [r0|r1 IH1 r2 IH2|r IH|r IH]; intros prev s c k res H.
  - simpl in H. apply rmatch_sound in H as (p1 & s1 & c1 & M & H).
    exists p1, s1, c1. split; [constructor; exact M | exact H].
  - simpl in H. apply IH1 in H as (p1 & s1 & c1 & M1 & H).
    apply IH2 in H as (p2 & s2 & c2 & M2 & H).
    exists p2, s2, c2. split; [econstructor; eassumption | exact H].
  - cbn [lmatch] in H.
    remember (length s) as fuel eqn:Hfuel. clear Hfuel.
    revert prev s c H.
    induction fuel as [|fuel IHf]; intros prev s c H; cbn [lazyLoop] in H;
      destruct (k prev s c) as [res0|] eqn:Ek.
    + injection H as <-. exists prev, s, c. split; [constructor | exact Ek].
    + discriminate.
    + injection H as <-. exists prev, s, c. split; [constructor | exact Ek].
    + apply IH in H as (p1 & s1 & c1 & M1 & H).
      destruct (length s1 <? length s) eqn:L; [|discriminate].
      apply Nat.ltb_lt in L.
      apply IHf in H as (p2 & s2 & c2 & M2 & H).
      exists p2, s2, c2. split; [|exact H].
      eapply LM_StarS; eassumption.
  - simpl in H. apply IH in H as (p1 & s1 & c1 & M1 & H).
    exists p1, s1, (Some (firstn (length s - length s1) s)).
    split; [eapply LM_Group; exact M1 | exact H].
Qed.

(** A match consumes a prefix of the input. *)
Lemma LMatches_consumes r prev s c prev' s' c' :
  LMatches r prev s c prev' s' c' -> exists m, s = m ++ s'.
Proof.
  induction 1 as
    [r prev s c prev1 s1 c1 M
    | r1 r2 prev s c prev1 s1 c1 prev2 s2 c2 _ IH1 _ IH2
    | r prev s c
    | r prev s c prev1 s1 c1 prev2 s2 c2 _ IH1 _ _ IH2
    | r prev s c prev1 s1 c1 _ IH].
  - apply Matches_InLang in M as (m & Hs & _). exists m. exact Hs.
  - destruct IH1 as [m1 ->], IH2 as [m2 ->].
    exists (m1 ++ m2). rewrite app_assoc. reflexivity.
  - exists []. reflexivity.
  - destruct IH1 as [m1 ->], IH2 as [m2 ->].
    exists (m1 ++ m2). rewrite app_assoc. reflexivity.
  - exact IH.
Qed.

Lemma lexec_unfold (r : lazyRegex) (prev : option char) (s : jsstring) :
  lexec r prev s =
  match lmatchHere r prev s with
  | Some (s', c) =>
      Some {| f_before := []; f_match := firstn (length s - length s') s;
              f_group := c; f_rest := s' |}
  | None =>
      match s with
      | [] => None
      | x :: t =>
          match lexec r (Some x) t with
          | Some f =>
              Some {| f_before := x :: f_before f; f_match := f_match f;
                      f_group := f_group f; f_rest := f_rest f |}
          | None => None
          end
      end
  end.
Proof. destruct s; reflexivity. Qed.

(** What [lexec] finds: a decomposition of the input around a match. *)
Lemma lexec_sound (r : lazyRegex) (s : jsstring) :
  forall prev f,
    lexec r prev s = Some f ->
    exists prev0 prev',
      s = f_before f ++ f_match f ++ f_rest f
      /\ LMatches r prev0 (f_match f ++ f_rest f) None
           prev' (f_rest f) (f_group f).
Proof.
  induction s as [|x s IH]; intros prev f H; rewrite lexec_unfold in H;
    destruct (lmatchHere r prev _) as [[s' c]|] eqn:E;
    try discriminate.
  - unfold lmatchHere in E.
    apply lmatch_sound in E as (p1 & s1 & c1 & M & E).
    injection E as -> ->. injection H as <-.
    cbn [f_before f_match f_rest f_group].
    destruct (LMatches_consumes M) as [m Hm].
    symmetry in Hm. apply app_eq_nil in Hm as [-> ->].
    exists prev, p1. split; [reflexivity | exact M].
  - unfold lmatchHere in E.
    apply lmatch_sound in E as (p1 & s1 & c1 & M & E).
    injection E as -> ->.
    destruct (LMatches_consumes M) as [m Hm].
    rewrite Hm in H. rewrite firstn_consumed in H. injection H as <-.
    cbn [f_before f_match f_rest f_group].
    exists prev, p1. split; [exact Hm|]. rewrite <- Hm. exact M.
  - destruct (lexec r (Some x) s) as [f'|] eqn:E'; [|discriminate].
    injection H as <-. cbn [f_before f_match f_rest f_group].
    destruct (IH _ _ E') as (p0 & p1 & Hs & M).
    exists p0, p1. split; [simpl; f_equal; exact Hs | exact M].
Qed.

Lemma LMatches_LSeq_inv r1 r2 prev s c prev2 s2 c2 :
  LMatches (LSeq r1 r2) prev s c prev2 s2 c2 ->
  exists prev1 s1 c1,
    LMatches r1 prev s c prev1 s1 c1 /\ LMatches r2 prev1 s1 c1 prev2 s2 c2.
Proof. inversion 1; eauto. Qed.

Lemma LMatches_LGroup_inv r prev s c prev' s' c' :
  LMatches (LGroup r) prev s c prev' s' c' ->
  c' = Some (firstn (length s - length s') s)
  /\ exists c'', LMatches r prev s c prev' s' c''.
Proof. inversion 1; eauto. Qed.

Lemma LMatches_Greedy_inv r prev s c prev' s' c' :
  LMatches (Greedy r) prev s c prev' s' c' -> Matches r prev s c prev' s' c'.
Proof. inversion 1; assumption. Qed.

(** The iterations of a lazy star over a class are of the class. *)
Lemma LMatches_LazyStar_Chr (p : char -> bool) prev s c prev' s' c' :
  LMatches (LazyStar (Greedy (Chr p))) prev s c prev' s' c' ->
  exists m, s = m ++ s' /\ Forall (fun x => p x = true) m.
Proof.
  intros M. remember (LazyStar (Greedy (Chr p))) as r eqn:Hr.
  induction M as
    [r0 prev s c prev1 s1 c1 M
    | r1 r2 prev s c prev1 s1 c1 prev2 s2 c2 _ _ _ _
    | r0 prev s c
    | r0 prev s c prev1 s1 c1 prev2 s2 c2 M1 _ _ _ IH2
    | r0 prev s c prev1 s1 c1 _ _];
    try discriminate; injection Hr as ->.
  - exists []. split; [reflexivity | constructor].
  - destruct (IH2 eq_refl) as (m & -> & Hm).
    apply LMatches_Greedy_inv, Matches_Chr_inv in M1 as (x & -> & Hx & _).
    exists (x :: m). split; [reflexivity | constructor; assumption].
Qed.

(** *** Where group 1 comes from *)

Lemma capturesClass_LSeq (p : char -> bool) (a rest : lazyRegex) :
  capturesClass p rest -> capturesClass p (LSeq a rest).
Proof.
  intros Hrest prev s c prev' s' c' M.
  apply LMatches_LSeq_inv in M as (p1 & s1 & c1 & Ma & Mr).
  destruct (LMatches_consumes Ma) as [m0 ->].
  destruct (Hrest _ _ _ _ _ _ Mr) as (before & m & after & -> & Hc & Hm).
  exists (m0 ++ before), m, after. rewrite <- app_assoc. auto.
Qed.

Lemma capturesClass_restOfLine :
  capturesClass (noneOf [92%N; 110%N]) restOfLine.
Proof.
  intros prev s c prev' s' c' M. unfold restOfLine in M.
  apply LMatches_LGroup_inv in M as (-> & c0 & M).
  apply LMatches_Greedy_inv, Matches_InLang in M as (m & -> & L & _).
  apply InLang_Plus_Chr in L as [Hne Hall].
  rewrite firstn_consumed. exists [], m, []. auto.
Qed.

Lemma capturesClass_labelPattern (label : jsstring) :
  capturesClass (noneOf [92%N; 110%N]) (labelPattern label).
Proof.
  unfold labelPattern.
  repeat apply capturesClass_LSeq. exact capturesClass_restOfLine.
Qed.

Lemma capturesClass_datePattern (word : jsstring) :
  capturesClass (noneOf [92%N; 110%N]) (datePattern word).
Proof.
  unfold datePattern.
  repeat apply capturesClass_LSeq. exact capturesClass_restOfLine.
Qed.

Lemma capturesClass_betweenPattern :
  capturesClass (noneOf [44%N]) betweenPattern.
Proof.
  unfold betweenPattern. apply capturesClass_LSeq.
  intros prev s c prev' s' c' M.
  apply LMatches_LSeq_inv in M as (p1 & s1 & c1 & Mg & Mt).
  apply LMatches_LGroup_inv in Mg as (-> & c0 & Mg).
  apply LMatches_LSeq_inv in Mg as (p2 & s2 & c2 & Mx & Ms).
  apply LMatches_Greedy_inv, Matches_Chr_inv in Mx as (x & -> & Hx & _).
  apply LMatches_LazyStar_Chr in Ms as (m & -> & Hm).
  apply LMatches_Greedy_inv in Mt.
  assert (Hc : c' = Some (firstn (length (x :: m ++ s1) - length s1)
                            (x :: m ++ s1))).
  { refine (Matches_noGroup _ Mt). reflexivity. }
  apply Matches_InLang in Mt as (after & -> & _).
  exists [], (x :: m), after. split; [reflexivity|].
  split; [|split; [discriminate | constructor; assumption]].
  rewrite Hc. f_equal.
  exact (firstn_consumed (x :: m) (after ++ s')).
Qed.

(** Group 1 of a found match is a part of the content. *)
Lemma group1_class (p : char -> bool) (pattern : lazyRegex)
    (content g : jsstring) :
  capturesClass p pattern ->
  group1 pattern content = Some g ->
  partOf g content /\ g <> [] /\ Forall (fun x => p x = true) g.
Proof.
  intros Hclass H. unfold group1 in H.
  destruct (lexec pattern None content) as [f|] eqn:E; [|discriminate].
  apply lexec_sound in E as (p0 & p1 & Hcontent & M).
  destruct (Hclass _ _ _ _ _ _ M) as (before & m & after & Hs & Hc & Hne & Hm).
  rewrite Hc in H. destruct m as [|x m]; [congruence|].
  injection H as <-. split; [|split; [discriminate | exact Hm]].
  exists (f_before f ++ before), (after ++ f_rest f).
  rewrite Hcontent, Hs, <- !app_assoc. reflexivity.
Qed.

Lemma trim_part (g content : jsstring) (p : char -> bool) :
  partOf g content ->
  Forall (fun x => p x = true) g ->
  partOf (trim g) content /\ Forall (fun x => p x = true) (trim g).
Proof.
  intros (pre & post & ->) Hall.
  destruct (trim_infix g) as (a & b & Hg & _).
  split.
  - exists (pre ++ a), (b ++ post). rewrite Hg at 1.
    rewrite <- !app_assoc. reflexivity.
  - rewrite Hg in Hall. apply Forall_app in Hall as [_ Hall].
    apply Forall_app in Hall as [Hall _]. exact Hall.
Qed.

Lemma noneOf_not_in (cs : list char) (t : jsstring) (x : char) :
  Forall (fun y => noneOf cs y = true) t ->
  existsb (fun c => ci c x) cs = true ->
  ~ In x t.
Proof.
  intros Hall Hx Hin. rewrite Forall_forall in Hall.
  specialize (Hall x Hin). unfold noneOf in Hall.
  rewrite Hx in Hall. discriminate.
Qed.

Lemma uniqueFrom_length (seen xs : list jsstring) :
  length (uniqueFrom seen xs) <= length xs.
Proof.
  revert seen. induction xs as [|x xs IH]; intros seen; simpl; [lia|].
  destruct (mem x seen); simpl; [specialize (IH seen) | specialize (IH (x :: seen))];
    lia.
Qed.

(** X13.  [extractParties] returns at most four parties without
    duplicates.  Each of them is a part of the content without white
    space at either end; and it either holds no comma (the party that
    follows [between]), or holds neither the letter [n], in either case,
    nor a backslash (the parties that follow [party], [client] and
    [vendor]): the class [[^\\n]] of these patterns stops at the first
    [n], not at the end of the line. *)
Theorem extractParties_parties (content : jsstring) :
  NoDup (extractParties content)
  /\ length (extractParties content) <= 4
  /\ forall party,
       In party (extractParties content) ->
       partOf party content
       /\ trim party = party
       /\ (~ In 44%N party
           \/ (~ In 110%N party /\ ~ In 78%N party /\ ~ In 92%N party)).
Proof.
  unfold extractParties, unique. split; [apply uniqueFrom_NoDup|]. split.
  - etransitivity; [apply uniqueFrom_length|].
    unfold partyPatterns. cbn [flat_map]. rewrite !length_app.
    repeat match goal with
           | |- context [group1 ?p content] =>
               destruct (group1 p content)
           end; simpl; lia.
  - intros party Hin. apply uniqueFrom_In in Hin as [Hin _].
    apply in_flat_map in Hin as (pattern & Hp & Hin).
    destruct (group1 pattern content) as [g|] eqn:Eg; [|destruct Hin].
    destruct Hin as [<- | []].
    assert (Hclass : forall p,
              capturesClass p pattern ->
              partOf (trim g) content
              /\ Forall (fun x => p x = true) (trim g)).
    { intros p Hc.
      destruct (@group1_class p pattern content g Hc Eg)
        as (Hpart & _ & Hall).
      exact (@trim_part g content p Hpart Hall). }
    assert (Hlabel : forall label,
              pattern = labelPattern label ->
              partOf (trim g) content
              /\ ~ In 110%N (trim g) /\ ~ In 78%N (trim g)
              /\ ~ In 92%N (trim g)).
    { intros label ->.
      destruct (Hclass _ (@capturesClass_labelPattern label)) as [Hpart Ht].
      split; [exact Hpart|].
      repeat split; apply (@noneOf_not_in _ _ _ Ht); reflexivity. }
    split; [|split; [apply trim_idem|]];
      unfold partyPatterns in Hp; simpl in Hp;
      destruct Hp as [<- | [Hp | [Hp | [Hp | []]]]];
      try (symmetry in Hp; apply Hlabel in Hp).
    + exact (proj1 (Hclass _ capturesClass_betweenPattern)).
    + exact (proj1 Hp).
    + exact (proj1 Hp).
    + exact (proj1 Hp).
    + left.
      apply (@noneOf_not_in _ _ _
               (proj2 (Hclass _ capturesClass_betweenPattern))).
      reflexivity.
    + right. exact (proj2 Hp).
    + right. exact (proj2 Hp).
    + right. exact (proj2 Hp).
Qed.

Section DateFacts.

Variable toLowerCase : jsstring -> jsstring.
Variable toISOString : jsstring -> option jsstring.

(** X14.  The dates of [extractContractMetadata].  When [effectiveDate]
    or [expirationDate] is present, the text handed to [new Date] is a
    part of the content without white space at either end that holds
    neither the letter [n], in either case, nor a backslash: the class
    [[^\\n]] cuts the date at the first [n].  The result is that text when
    it is not a valid date, and otherwise the part of its ISO rendering
    before the first [T]. *)
Theorem extractContractMetadata_dates (content date : jsstring) :
  effectiveDate (extractContractMetadata toLowerCase toISOString content)
  = Some date
  \/ expirationDate (extractContractMetadata toLowerCase toISOString content)
     = Some date ->
  exists dateStr,
    partOf dateStr content
    /\ trim dateStr = dateStr
    /\ (~ In 110%N dateStr /\ ~ In 78%N dateStr /\ ~ In 92%N dateStr)
    /\ match toISOString dateStr with
       | Some iso => date = hd [] (split iso (js "T"))
       | None => date = dateStr
       end.
Proof.
  assert (Hdate : forall word,
            extractDate toISOString content (datePattern word) = Some date ->
            exists dateStr,
              partOf dateStr content
              /\ trim dateStr = dateStr
              /\ (~ In 110%N dateStr /\ ~ In 78%N dateStr
                  /\ ~ In 92%N dateStr)
              /\ match toISOString dateStr with
                 | Some iso => date = hd [] (split iso (js "T"))
                 | None => date = dateStr
                 end).
  { intros word H. unfold extractDate in H.
    destruct (group1 (datePattern word) content) as [g|] eqn:Eg;
      [|discriminate].
    apply (@group1_class _ _ content g (@capturesClass_datePattern word))
      in Eg as (Hpart & _ & Hall).
    destruct (@trim_part g content _ Hpart Hall) as [Hp Ht].
    exists (trim g). split; [exact Hp|]. split; [apply trim_idem|].
    split; [repeat split; apply (@noneOf_not_in _ _ _ Ht); reflexivity|].
    destruct (toISOString (trim g)); injection H as <-; reflexivity. }
  cbn [effectiveDate expirationDate extractContractMetadata].
  intros [H | H]; exact (Hdate _ H).
Qed.

End DateFacts.

Lemma extractContractMetadata_dates_witness :
  exists dateStr,
    partOf dateStr (js "Effective Date: January 1, 2024")
    /\ trim dateStr = dateStr
    /\ (~ In 110%N dateStr /\ ~ In 78%N dateStr /\ ~ In 92%N dateStr)
    /\ match (fun _ : jsstring => @None jsstring) dateStr with
       | Some iso => js "Ja" = hd [] (split iso (js "T"))
       | None => js "Ja" = dateStr
       end.
Proof.
  apply (@extractContractMetadata_dates asciiToLowerCase (fun _ => None)
           (js "Effective Date: January 1, 2024") (js "Ja")).
  left. vm_compute. reflexivity.
Defined.

(** ** Validating an uploaded file *)

Lemma ltb_nan (x y : float) : is_nan x = true -> (x <? y)%float = false.
Proof.
  intros H. rewrite ltb_spec. unfold SFltb.
  destruct (is_nan x) eqn:E; [|discriminate].
  assert (Hx : Prim2SF x = S754_nan).
  { destruct (Prim2SF x) as [s | s | | s m e] eqn:Ex; try reflexivity;
      exfalso;
      assert (Hn : is_nan x = false)
        by (apply is_nan_false_iff; rewrite Ex; discriminate);
      congruence. }
  rewrite Hx. reflexivity.
Qed.

Section ValidateFileFacts.

Variable MAX_FILE_SIZE : option jsstring.
Variable ALLOWED_FILE_TYPES : option jsstring.
Variable parseInt : jsstring -> float.
Variable toFixed1 : float -> jsstring.

Local Abbreviation validateFile :=
  (validateFile MAX_FILE_SIZE ALLOWED_FILE_TYPES parseInt toFixed1).
Local Abbreviation maxSize := (maxSize MAX_FILE_SIZE parseInt).
Local Abbreviation allowedTypes := (allowedTypes ALLOWED_FILE_TYPES).

(** X15.  [validateFile] accepts a file exactly when its size is not
    above the limit and its type is one of the allowed types, and it
    reports an error exactly when it rejects.  The limit is what
    [parseInt] makes of [MAX_FILE_SIZE], or of [94371840] when the
    variable is unset or empty; when that is not a number, no file is
    rejected for its size.  The allowed types are the pieces of
    [ALLOWED_FILE_TYPES] between commas, compared as they stand, and the
    four default types only when the variable is unset: set to the empty
    string, it allows the empty type alone. *)
Theorem validateFile_accepts (file : FileInfo) :
  (valid (validateFile file) = true
   <-> (maxSize <? file_size file)%float = false
       /\ In (file_type file) allowedTypes)
  /\ (valid (validateFile file) = true <-> error (validateFile file) = None)
  /\ (is_nan maxSize = true ->
      (valid (validateFile file) = true <-> In (file_type file) allowedTypes))
  /\ (MAX_FILE_SIZE = None \/ MAX_FILE_SIZE = Some [] ->
      maxSize = parseInt (js "94371840"))
  /\ (ALLOWED_FILE_TYPES = None -> allowedTypes = defaultAllowedTypes)
  /\ (ALLOWED_FILE_TYPES = Some [] ->
      valid (validateFile file) = true -> file_type file = []).
Proof.
  assert (Hvalid : valid (validateFile file) = true
                   <-> (maxSize <? file_size file)%float = false
                       /\ In (file_type file) allowedTypes).
  { unfold DocumentProcessor.validateFile.
    destruct (maxSize <? file_size file)%float; cbn [valid].
    - split; [discriminate | intros [H _]; discriminate H].
    - rewrite <- mem_true_iff.
      destruct (mem (file_type file) allowedTypes); cbn [negb valid];
        split; try discriminate; auto. intros [_ H]. discriminate H. }
  split; [exact Hvalid|]. split; [|split; [|split; [|split]]].
  - unfold DocumentProcessor.validateFile.
    destruct (maxSize <? file_size file)%float; cbn [valid error];
      [split; discriminate|].
    destruct (negb (mem (file_type file) allowedTypes)); cbn [valid error];
      split; (discriminate || reflexivity).
  - intros Hnan. rewrite Hvalid, (@ltb_nan _ (file_size file) Hnan). tauto.
  - intros [-> | ->]; reflexivity.
  - intros ->. reflexivity.
  - intros Hset Hv. apply Hvalid in Hv as [_ Hin].
    unfold DocumentProcessor.allowedTypes in Hin. rewrite Hset in Hin.
    destruct Hin as [<- | []]. reflexivity.
Qed.

End ValidateFileFacts.

(** ** The code on small inputs *)

Example split_on_comma :
  split (js "a,,b,") (js ",") = [js "a"; []; js "b"; []].
Proof. reflexivity. Qed.

Example split_of_empty : split [] (js ",") = [[]].
Proof. reflexivity. Qed.

Example split_leftmost :
  split (js "a" ++ LF ++ LF ++ LF ++ js "b") paragraphBreak
  = [js "a"; LF ++ js "b"].
Proof. reflexivity. Qed.

Example trim_both_ends : trim (js "  a b  ") = js "a b".
Proof. reflexivity. Qed.

Example normalizeText_collapses :
  normalizeText asciiToLowerCase (js "  Hello   World  ") = js "hello world".
Proof. vm_compute. reflexivity. Qed.

Example normalizeText_of_space : normalizeText asciiToLowerCase (js " ") = [].
Proof. vm_compute. reflexivity. Qed.

Example findTextPosition_exact_match :
  findTextPosition asciiToLowerCase 5 (js "b") (js "a b c")
  = Returns {| start := 2; end_ := 3;
               line := Some 1%Z; column := Some 3%Z |}.
Proof. vm_compute. reflexivity. Qed.

Example findTextPosition_second_line :
  findTextPosition asciiToLowerCase 5 (js "cd") (js "ab" ++ LF ++ js "cd")
  = Returns {| start := 3; end_ := 5;
               line := Some 2%Z; column := Some 1%Z |}.
Proof. vm_compute. reflexivity. Qed.

Example jsonPattern_first_to_last_brace :
  matchFirst (js "x {a} } y") jsonPattern = Some (js "{a} }").
Proof. vm_compute. reflexivity. Qed.

Example jsonPattern_needs_both_braces :
  matchFirst (js "x } { y") jsonPattern = None.
Proof. vm_compute. reflexivity. Qed.

Example parseAIResponse_without_json :
  parseAIResponse MiniJSON.parse MiniJSON.notANumber (js "no json here")
  = Throws (Wrapped (js "Failed to parse AI response: ")
              (Err (js "No JSON found in AI response"))).
Proof. vm_compute. reflexivity. Qed.

Example parseAIResponse_without_summary :
  parseAIResponse MiniJSON.parse MiniJSON.notANumber (jsq "{'riskScore': 3}")
  = Throws (Wrapped (js "Failed to parse AI response: ")
              (Err (js "Invalid analysis structure"))).
Proof. vm_compute. reflexivity. Qed.

Example tagPattern_strips :
  replaceAll (js "<p>hi <b>x</b> < y <<a> z > w <") tagPattern []
  = js "hi x  z > w <".
Proof. vm_compute. reflexivity. Qed.

Example capitalizedPattern_backtracks :
  matchAll (js "Hello WorldX Ab Cd  Ef_ Gh") capitalizedPattern
  = [js "Hello"; js "Ab Cd"; js "Gh"].
Proof. vm_compute. reflexivity. Qed.

Example extractKeyTerms_sample :
  extractKeyTerms
    (jsq "'Fee' means x. Total Cost, Total Cost and Total Cost; 'a' 'b'  shall mean")
  = [js "Fee"; js "b"; js "Total Cost"].
Proof. vm_compute. reflexivity. Qed.

Example sortedRules_sample :
  map rule_id
    (sortedRules
       {| name := js "p"; description := None;
          AIAnalysisService.contractType := None;
          rules :=
            [ {| rule_id := js "low"; rule_name := []; rule_type := CLAUSE_CHECK;
                 aiPrompt := []; rule_severity := LOW;
                 preferredLanguage := None; orderIndex := 0;
                 isActive := true |};
              {| rule_id := js "off"; rule_name := []; rule_type := CLAUSE_CHECK;
                 aiPrompt := []; rule_severity := CRITICAL;
                 preferredLanguage := None; orderIndex := 0;
                 isActive := false |};
              {| rule_id := js "high2"; rule_name := []; rule_type := CLAUSE_CHECK;
                 aiPrompt := []; rule_severity := HIGH;
                 preferredLanguage := None; orderIndex := 2;
                 isActive := true |};
              {| rule_id := js "high1"; rule_name := []; rule_type := CLAUSE_CHECK;
                 aiPrompt := []; rule_severity := HIGH;
                 preferredLanguage := None; orderIndex := 1;
                 isActive := true |} ] |})
  = [js "high1"; js "high2"; js "low"].
Proof. vm_compute. reflexivity. Qed.

Example natToString_twelve : natToString 12 = js "12".
Proof. reflexivity. Qed.

Example extractContractType_service :
  extractContractType asciiToLowerCase (js "This Service Agreement is made")
  = Some (js "service agreement").
Proof. vm_compute. reflexivity. Qed.

Example extractContractType_this :
  extractContractType asciiToLowerCase (js "This Agreement is made")
  = Some (js "this agreement").
Proof. vm_compute. reflexivity. Qed.

Example extractContractType_non_disclosure :
  extractContractType asciiToLowerCase (js "a Non-Disclosure Agreement")
  = Some (js "disclosure agreement").
Proof. vm_compute. reflexivity. Qed.

Example extractContractType_agreement_first :
  extractContractType asciiToLowerCase
    (js "supply contract under the master agreement")
  = Some (js "master agreement").
Proof. vm_compute. reflexivity. Qed.

Example countWords_blank : countWords (js "   ") = 0.
Proof. reflexivity. Qed.

Example countWords_three :
  countWords (js " one  two" ++ LF ++ js "three ") = 3.
Proof. reflexivity. Qed.

Example getMimeTypeFromName_no_dot :
  getMimeTypeFromName asciiToLowerCase (js "PDF")
  = MimeString (js "application/pdf").
Proof. reflexivity. Qed.

Example getMimeTypeFromName_constructor :
  getMimeTypeFromName asciiToLowerCase (js "notes.constructor")
  = InheritedValue (js "constructor").
Proof. reflexivity. Qed.

Example extractParties_between :
  extractParties (js "made between Acme Corp and Beta LLC")
  = [js "Acme Corp"].
Proof. vm_compute. reflexivity. Qed.

Example extractParties_stops_at_n :
  extractParties (js "Client: Acme Corporation") = [js "Acme Corporatio"].
Proof. vm_compute. reflexivity. Qed.

Example extractDate_iso :
  extractDate (fun _ => Some (js "2024-01-15T00:00:00.000Z"))
    (js "Effective date: 2024-01-15") (datePattern (js "effective"))
  = Some (js "2024-01-15").
Proof. vm_compute. reflexivity. Qed.
